(** * SpatialEval: scoring metrics, dataset loading, evaluation harness and
    the grid / graph primitives of the dataset generator.

    Shallow embedding of
      - src/spatialeval/harness/metrics.py
      - src/spatialeval/data.py, src/spatialops/data.py
      - src/spatialops/harness/evaluator.py
      - data/generate_dataset_v2.py (the geometry helpers, a_star,
        bfs_connected, generate_geometric_reasoning,
        generate_navigation_pathfinding, generate_viewpoint_visibility)

    Modelling conventions.
      - A Python [str] is the list of its code points; code points are
        taken below 256, so a character is an [ascii].
      - A Python [int] is a [Z].  The composite score is computed in
        binary64 ([PyNum.float64]: round to nearest, ties to even,
        infinities and NaN).  Elsewhere a Python [float] is the exact
        rational it denotes ([Q]), and the range of binary64 is modelled
        where an [int] is converted to [float].
      - A function that may raise returns [res A]; a loop or a recursion
        that the source does not bound takes a [fuel] and returns [None]
        when the fuel is used up. *)

From Stdlib Require Import QArith Qabs Qround Qpower Lqa Ascii String Lia.
From stdpp Require Import gmap strings list fin_maps.

Set Warnings "-register-all,-clear-no-such-hyp".

Open Scope Z_scope.

(** ** Python values and exceptions *)

Inductive pyexn : Type :=
  | ValueError (msg : string)
  | IndexError
  | KeyError
  | OverflowError
  | ModelError (msg : string).

Inductive res (A : Type) : Type :=
  | Ok (a : A)
  | Raise (e : pyexn).
Arguments Ok {A} a.
Arguments Raise {A} e.

Definition res_bind {A B : Type} (r : res A) (k : A -> res B) : res B :=
  match r with
  | Ok a => k a
  | Raise e => Raise e
  end.

Notation "'let!' x ':=' r 'in' k" := (res_bind r (fun x => k))
  (at level 10, x pattern, r at level 100, k at level 200).

(** A [for] loop whose body may raise. *)
Fixpoint for_each {A S : Type} (body : S -> A -> res S) (l : list A) (s : S)
  : res S :=
  match l with
  | [] => Ok s
  | a :: l' => let! s' := body s a in for_each body l' s'
  end.

Definition raises {A : Type} (r : res A) : Prop :=
  match r with
  | Ok _ => False
  | Raise _ => True
  end.

(** ** Strings *)

Module PyStr.

Definition code (c : ascii) : nat := nat_of_ascii c.

Definition chars (s : string) : list ascii := list_ascii_of_string s.

(** [str.isspace] on one code point: TAB..CR, FS..US, SPACE, NEL, NBSP. *)
Definition is_space (c : ascii) : bool :=
  let n := code c in
  ((9 <=? n) && (n <=? 13) || (28 <=? n) && (n <=? 32)
   || (n =? 133) || (n =? 160))%nat.

(** [\d] restricted to code points below 256. *)
Definition is_digit (c : ascii) : bool :=
  let n := code c in ((48 <=? n) && (n <=? 57))%nat.

(** [str.lower] on one code point below 256: A-Z and the Latin-1
    capitals. *)
Definition lower_char (c : ascii) : ascii :=
  let n := code c in
  if ((65 <=? n) && (n <=? 90))%nat then ascii_of_nat (n + 32)
  else if ((192 <=? n) && (n <=? 222) && negb (n =? 215))%nat
       then ascii_of_nat (n + 32)
       else c.

(** [str.lower] on text below code point 256: there it changes each
    character on its own.  Above, it depends on the context (the Greek
    final sigma) and is outside this model. *)
Definition lower (s : list ascii) : list ascii := map lower_char s.

Fixpoint lstrip (s : list ascii) : list ascii :=
  match s with
  | c :: s' => if is_space c then lstrip s' else s
  | [] => []
  end.

Definition rstrip (s : list ascii) : list ascii := rev (lstrip (rev s)).

Definition strip (s : list ascii) : list ascii := rstrip (lstrip s).

(** [s.split()]: the maximal runs of non-space characters. [cur] is the
    run being read, last character first. *)
Fixpoint split_from (s : list ascii) (cur : list ascii) : list (list ascii) :=
  match s with
  | [] => match cur with [] => [] | _ => [rev cur] end
  | c :: s' =>
      if is_space c
      then match cur with
           | [] => split_from s' []
           | _ => rev cur :: split_from s' []
           end
      else split_from s' (c :: cur)
  end.

Definition split (s : list ascii) : list (list ascii) := split_from s [].

Definition ascii_eqb (a b : ascii) : bool := Ascii.eqb a b.

Fixpoint startswith (s p : list ascii) {struct p} : bool :=
  match p, s with
  | [], _ => true
  | _ :: _, [] => false
  | a :: p', b :: s' => ascii_eqb a b && startswith s' p'
  end.

(** [p in s] *)
Fixpoint contains (s p : list ascii) : bool :=
  startswith s p ||
  match s with
  | [] => false
  | _ :: s' => contains s' p
  end.

Definition endswith (s p : list ascii) : bool := startswith (rev s) (rev p).

(** [" ".join(["word"] * n)] *)
Fixpoint words (n : nat) : list ascii :=
  match n with
  | O => []
  | S O => chars "word"
  | S n' => chars "word " ++ words n'
  end.

End PyStr.

(** ** Numbers *)

Module PyNum.

Open Scope Q_scope.

(** [max(a, b)]: the first argument unless the second is larger. *)
Definition py_max (a b : Q) : Q := if Qlt_le_dec a b then b else a.

(** [min(a, b)]: the first argument unless the second is smaller. *)
Definition py_min (a b : Q) : Q := if Qlt_le_dec b a then b else a.

(** Round half to even, to an integer. *)
Definition round_half_even (x : Q) : Z :=
  let f := Qfloor x in
  let d := x - inject_Z f in
  match Qcompare d (1 # 2) with
  | Lt => f
  | Gt => (f + 1)%Z
  | Eq => if Z.even f then f else (f + 1)%Z
  end.

(** *** binary64

    A [float] of the composite score is a binary64 value: a rational, an
    infinity or a NaN.  The sign of a zero is not modelled. *)
Inductive float64 : Type :=
  | Fin (x : Q)
  | PInf
  | NInf
  | NaN.

(** The exponent of the binade of a positive rational [x]: the [e] with
    2^e <= x < 2^(e+1). *)
Definition ilog2 (x : Q) : Z :=
  let k := (Z.log2 (Qnum x) - Z.log2 (Zpos (Qden x)))%Z in
  if Qle_bool (2 ^ k) x then k else (k - 1)%Z.

(** The distance between the binary64 values around [x]: 53 bits of
    precision, and the spacing of the subnormal numbers below 2^-1022. *)
Definition quantum (x : Q) : Q :=
  2 ^ (Z.max (ilog2 (Qabs x)) (-1022) - 52).

(** Round to the nearest multiple of the quantum, ties to the even
    one. *)
Definition nearest (x : Q) : Q :=
  if Qeq_bool x 0 then 0
  else inject_Z (round_half_even (x / quantum x)) * quantum x.

(** The binary64 value of a real result: the nearest one, an infinity
    from 2^1024 on. *)
Definition b64 (x : Q) : float64 :=
  let y := nearest x in
  if Qle_bool (2 ^ 1024) (Qabs y)
  then (if Qle_bool 0 x then PInf else NInf)
  else Fin y.

(** The sign of a float that is neither zero nor a NaN: [Some true] when
    it is negative. *)
Definition fsign (a : float64) : option bool :=
  match a with
  | Fin x => if Qeq_bool x 0 then None else Some (negb (Qle_bool 0 x))
  | PInf => Some false
  | NInf => Some true
  | NaN => None
  end.

Definition inf (neg : bool) : float64 := if neg then NInf else PInf.

(** [a * b] on floats: it never raises, an overflow gives an infinity. *)
Definition fmul (a b : float64) : float64 :=
  match a, b with
  | Fin x, Fin y => b64 (x * y)
  | NaN, _ | _, NaN => NaN
  | _, _ =>
      match fsign a, fsign b with
      | Some sa, Some sb => inf (xorb sa sb)
      | _, _ => NaN
      end
  end.

(** [a + b] on floats. *)
Definition fadd (a b : float64) : float64 :=
  match a, b with
  | Fin x, Fin y => b64 (x + y)
  | NaN, _ | _, NaN => NaN
  | PInf, NInf | NInf, PInf => NaN
  | PInf, _ | _, PInf => PInf
  | NInf, _ | _, NInf => NInf
  end.

(** [round(x, 2)] on a float, as CPython computes it: the decimal with
    two places nearest to the exact value of [x], ties to the even digit,
    converted back to binary64; an infinity or a NaN is returned as it
    is. *)
Definition round2 (x : float64) : float64 :=
  match x with
  | Fin q => b64 (inject_Z (round_half_even (q * 100)) / 100)
  | _ => x
  end.

End PyNum.

(** ** Regular expressions used by the metrics *)

Module PyRe.
Import PyStr.

(** State of the scanner for [-?\d+\.?\d*]: no match open, reading the
    integer part, or reading the digits after the point.  The characters
    of the open match are kept last first. *)
Inductive numstate : Type :=
  | Idle
  | IntPart (acc : list ascii)
  | FracPart (acc : list ascii).

Definition is_minus (c : ascii) : bool := ascii_eqb c "-".
Definition is_dot (c : ascii) : bool := ascii_eqb c ".".

(** A match can start at [c :: s']: a digit, or a minus sign followed by
    a digit. *)
Definition starts_number (c : ascii) (s' : list ascii) : bool :=
  is_digit c ||
  (is_minus c && match s' with d :: _ => is_digit d | [] => false end).

(** [re.findall(r"-?\d+\.?\d*", s)]: leftmost, greedy, non-overlapping. *)
Fixpoint findall_number_from (s : list ascii) (st : numstate)
  : list (list ascii) :=
  match s with
  | [] =>
      match st with
      | Idle => []
      | IntPart acc | FracPart acc => [rev acc]
      end
  | c :: s' =>
      match st with
      | Idle =>
          if starts_number c s' then findall_number_from s' (IntPart [c])
          else findall_number_from s' Idle
      | IntPart acc =>
          if is_digit c then findall_number_from s' (IntPart (c :: acc))
          else if is_dot c then findall_number_from s' (FracPart (c :: acc))
          else rev acc ::
               (if starts_number c s' then findall_number_from s' (IntPart [c])
                else findall_number_from s' Idle)
      | FracPart acc =>
          if is_digit c then findall_number_from s' (FracPart (c :: acc))
          else rev acc ::
               (if starts_number c s' then findall_number_from s' (IntPart [c])
                else findall_number_from s' Idle)
      end
  end.

Definition findall_number (s : list ascii) : list (list ascii) :=
  findall_number_from s Idle.

Fixpoint skip (p : ascii -> bool) (s : list ascii) : list ascii :=
  match s with
  | c :: s' => if p c then skip p s' else s
  | [] => []
  end.

(** The class [[\+\-\*\/\=]]. *)
Definition is_operator (c : ascii) : bool :=
  ascii_eqb c "+" || ascii_eqb c "-" || ascii_eqb c "*"
  || ascii_eqb c "/" || ascii_eqb c "=".

(** [\d+\s*[\+\-\*\/\=]\s*\d+] anchored at the head of [s]. *)
Definition arithmetic_at (s : list ascii) : bool :=
  match s with
  | c :: s1 =>
      is_digit c &&
      match skip is_space (skip is_digit s1) with
      | o :: s2 =>
          is_operator o &&
          match skip is_space s2 with
          | d :: _ => is_digit d
          | [] => false
          end
      | [] => false
      end
  | [] => false
  end.

(** [re.search(r"\d+\s*[\+\-\*\/\=]\s*\d+", s) is not None] *)
Fixpoint search_arithmetic (s : list ascii) : bool :=
  arithmetic_at s ||
  match s with
  | _ :: s' => search_arithmetic s'
  | [] => false
  end.

Definition is_space_or_colon (c : ascii) : bool :=
  is_space c || ascii_eqb c ":".

Definition followed_by_marker (s w : list ascii) : bool :=
  startswith s w &&
  match drop (length w) s with
  | c :: _ => is_space_or_colon c
  | [] => false
  end.

(** [(answer|result|solution)[\s:]+] anchored at the head of [s]. *)
Definition marker_at (s : list ascii) : bool :=
  followed_by_marker s (chars "answer")
  || followed_by_marker s (chars "result")
  || followed_by_marker s (chars "solution").

(** [re.search(r"(answer|result|solution)[\s:]+", s) is not None] *)
Fixpoint search_marker (s : list ascii) : bool :=
  marker_at s ||
  match s with
  | _ :: s' => search_marker s'
  | [] => false
  end.

End PyRe.

(** ** Floats and their text *)

Module PyFloat.
Import PyStr.

Definition digit_char (d : nat) : ascii := ascii_of_nat (48 + d).
Definition digit_val (c : ascii) : Z := Z.of_nat (code c) - 48.

(** Value of a run of decimal digits, most significant first. *)
Definition digits_val (ds : list ascii) : Z :=
  fold_left (fun acc c => 10 * acc + digit_val c) ds 0.

(** Decimal digits of a natural number, most significant first;
    [fuel] bounds the number of digits. *)
Fixpoint nat_digits (fuel : nat) (n : N) (acc : list ascii) : list ascii :=
  match fuel with
  | O => acc
  | S fuel' =>
      let acc' := digit_char (N.to_nat (n mod 10)) :: acc in
      if (n / 10 =? 0)%N then acc' else nat_digits fuel' (n / 10)%N acc'
  end.

(** [str(z)] for an [int]. *)
Definition str_int (z : Z) : list ascii :=
  let n := Z.to_N (Z.abs z) in
  let ds := nat_digits (S (N.to_nat (N.log2 n))) n [] in
  if z <? 0 then "-"%char :: ds else ds.

(** A finite [float], given by what [repr] prints: the sign, the shortest
    digit string that reads back as the float, and the position of the
    decimal point: the value is [0.d1 d2 ... dn * 10 ^ decpt]. *)
Record pyfloat : Type := mk_float {
  fneg : bool;
  fdigits : list ascii;
  fdecpt : Z
}.

(** [10 ** e] as a rational. *)
Definition pow10 (e : Z) : Q := (10 ^ e)%Q.

Definition float_value (f : pyfloat) : Q :=
  let m := inject_Z (digits_val (fdigits f)) in
  let v := (m * pow10 (fdecpt f - Z.of_nat (length (fdigits f))))%Q in
  if fneg f then Qopp v else v.

Definition zeros (n : nat) : list ascii := repeat "0"%char n.

(** [str(f)] for a [float]: positional notation when
    [-4 < decpt <= 16], exponent notation otherwise. *)
Definition str_float (f : pyfloat) : list ascii :=
  let ds := fdigits f in
  let n := Z.of_nat (length ds) in
  let p := fdecpt f in
  let body :=
    if (-4 <? p) && (p <=? 16) then
      if p <=? 0 then chars "0." ++ zeros (Z.to_nat (- p)) ++ ds
      else if n <=? p then ds ++ zeros (Z.to_nat (p - n)) ++ chars ".0"
      else take (Z.to_nat p) ds ++ "."%char :: drop (Z.to_nat p) ds
    else
      let e := p - 1 in
      let mant := match ds with
                  | d :: (_ :: _) as rest => d :: "."%char :: rest
                  | _ => ds
                  end in
      let es := str_int (Z.abs e) in
      let es2 := match es with [_] => "0"%char :: es | _ => es end in
      mant ++ "e"%char :: (if e <? 0 then "-"%char else "+"%char) :: es2
  in if fneg f then "-"%char :: body else body.

(** What [float(s)] returns: a finite value, or an infinity when the
    number is out of the range of binary64. *)
Inductive parsed : Type :=
  | Finite (q : Q)
  | Infinite.

(** Integers [z] with [|z| >= 2^1024 - 2^970] do not convert to [float]. *)
Definition float_limit : Z := 2 ^ 1024 - 2 ^ 970.

Fixpoint span_digits (s : list ascii) : list ascii * list ascii :=
  match s with
  | c :: s' =>
      if is_digit c
      then let (ds, rest) := span_digits s' in (c :: ds, rest)
      else ([], s)
  | [] => ([], [])
  end.

(** The digits of a number after its sign has been read. *)
Definition float_of_unsigned (neg : bool) (s1 : list ascii) : option parsed :=
  let (ip, s2) := span_digits s1 in
  match ip with
  | [] => None
  | _ =>
      let s3 := match s2 with
                | c :: t => if PyRe.is_dot c then t else s2
                | [] => s2
                end in
      let (fp, s4) := span_digits s3 in
      match s4 with
      | _ :: _ => None
      | [] =>
          let m := digits_val (ip ++ fp) in
          let v := (inject_Z m * pow10 (- Z.of_nat (length fp)))%Q in
          if Qle_bool (inject_Z float_limit) v then Some Infinite
          else Some (Finite (if neg then Qopp v else v))
      end
  end.

(** [float(s)] on strings of the shape [-?\d+\.?\d*]; [None] is the
    [ValueError] of any other string. *)
Definition float_of_string (s : list ascii) : option parsed :=
  match s with
  | c :: t =>
      if PyRe.is_minus c then float_of_unsigned true t
      else float_of_unsigned false s
  | [] => float_of_unsigned false s
  end.

End PyFloat.

(** ** src/spatialeval/harness/metrics.py *)

Module Metrics.
Import PyStr PyRe PyFloat PyNum.

Open Scope Q_scope.

(** The ground truth of a task, by its runtime type.  [GOther] stands for
    a value that is neither a number, a string nor a list. *)
Inductive gtvalue : Type :=
  | GInt (z : Z)
  | GFloat (f : pyfloat)
  | GStr (s : list ascii)
  | GList (l : list gtvalue)
  | GOther.

(** [str(ground_truth)] for the numeric ground truths. *)
Definition str_number (g : gtvalue) : list ascii :=
  match g with
  | GInt z => str_int z
  | GFloat f => str_float f
  | _ => []
  end.

(** The ground truth as the right operand of [extracted_num - ground_truth]:
    an [int] is converted to [float], which raises when it is too large. *)
Definition as_float (z : Z) : res Q :=
  if (float_limit <=? Z.abs z)%Z then Raise OverflowError
  else Ok (inject_Z z).

Definition Qltb (a b : Q) : bool := negb (Qle_bool b a).

(** The body of the [try] for one candidate: [Some score] when the
    function returns, [None] when the loop goes on. *)
Definition check_number (extracted_num : parsed) (truth : Q) : option Q :=
  match extracted_num with
  | Infinite => None
  | Finite x =>
      if Qltb (Qabs (x - truth)) 1e-6 then Some 1.0
      else if negb (Qeq_bool truth 0) then
        let relative_error := Qabs (x - truth) / Qabs truth in
        if Qltb relative_error 0.01 then Some 0.9
        else if Qltb relative_error 0.05 then Some 0.7
        else None
      else None
  end.

(** [for num_str in reversed(numbers)] with the numbers already reversed. *)
Fixpoint check_numbers (numbers : list (list ascii)) (truth : Q) : Q :=
  match numbers with
  | [] => 0.0
  | num_str :: rest =>
      match float_of_string num_str with
      | None => check_numbers rest truth
      | Some extracted_num =>
          match check_number extracted_num truth with
          | Some score => score
          | None => check_numbers rest truth
          end
      end
  end.

Definition accuracy_number (response : list ascii) (truth : res Q) : res Q :=
  let numbers := findall_number response in
  match numbers with
  | [] => Ok 0.0
  | _ => let! t := truth in Ok (check_numbers (rev numbers) t)
  end.

Definition accuracy_string (response_lower : list ascii) (s : list ascii)
  : Q :=
  let gt_lower := strip (lower s) in
  if contains response_lower gt_lower then 1.0
  else if endswith response_lower gt_lower then 1.0
  else 0.0.

Fixpoint compute_accuracy (response : list ascii) (ground_truth : gtvalue)
  : res Q :=
  let response_lower := strip (lower response) in
  match ground_truth with
  | GInt z => accuracy_number response (as_float z)
  | GFloat f => accuracy_number response (Ok (float_value f))
  | GStr s => Ok (accuracy_string response_lower s)
  | GList l =>
      (fix any_match (l : list gtvalue) : res Q :=
         match l with
         | [] => Ok 0.0
         | gt :: rest =>
             let! a := compute_accuracy response gt in
             if Qltb 0.5 a then Ok 1.0 else any_match rest
         end) l
  | GOther => Ok 0.0
  end.

Definition reasoning_indicators : list (list ascii) :=
  map chars
    ["first"; "second"; "then"; "next"; "therefore"; "thus";
     "because"; "since"; "step"; "calculate"; "compute";
     "the formula"; "using"; "applying"; "we get"; "we have"]%string.

Definition indicator_count (response_lower : list ascii) : nat :=
  length (filter (fun ind => contains response_lower ind = true)
                 reasoning_indicators).

Definition compute_reasoning_score (response : list ascii) : Q :=
  let score := 0.5 in
  let response_lower := lower response in
  let score :=
    score + py_min (inject_Z (Z.of_nat (indicator_count response_lower)) * 0.05)
                   0.3 in
  let score := if search_arithmetic response then score + 0.1 else score in
  let score := if search_marker response_lower then score + 0.1 else score in
  py_min score 1.0.

Definition word_count (response : list ascii) : Z :=
  Z.of_nat (length (split response)).

Definition compute_efficiency_score (response : list ascii) : Q :=
  let word_count := word_count response in
  if ((50 <=? word_count) && (word_count <=? 200))%Z then 1.0
  else if (word_count <? 50)%Z then py_max 0.5 (inject_Z word_count / 50)
  else py_max 0.3 (1.0 - inject_Z (word_count - 200) / 500).

(** The literals [0.5], [0.3] and [0.2] as binary64 values. *)
Definition default_weights : float64 * float64 * float64 :=
  (b64 0.5, b64 0.3, b64 0.2).

(** The function validates nothing: it has no [raise].  Its arithmetic
    is that of binary64; the integer literal [100] converts exactly. *)
Definition compute_spatialeval_score
  (accuracy reasoning efficiency : float64)
  (weights : float64 * float64 * float64) : res float64 :=
  let '(w_acc, w_reas, w_eff) := weights in
  let score :=
    fmul (fadd (fadd (fmul accuracy w_acc) (fmul reasoning w_reas))
               (fmul efficiency w_eff))
         (Fin 100) in
  Ok (round2 score).

End Metrics.

(** ** src/spatialeval/data.py and src/spatialops/data.py *)

Module Data.

(** A task record as [json.load] returns it. *)
Record task : Type := mk_task {
  task_id : string;
  prompt : list ascii;
  ground_truth : Metrics.gtvalue
}.

(** An insertion-ordered [dict]: [d[k] = v] replaces in place or appends. *)
Fixpoint dict_set {V : Type} (k : string) (v : V) (d : list (string * V))
  : list (string * V) :=
  match d with
  | [] => [(k, v)]
  | (k', v') :: d' =>
      if String.eqb k k' then (k, v) :: d' else (k', v') :: dict_set k v d'
  end.

Definition dataset : Type := list (string * list (string * list task)).

(** The task files under the data directory: [files c d] is what
    [json.load] reads from [<data_dir>/c/d/tasks.json], [None] when the
    file does not exist. *)
Definition files : Type := string -> string -> option (list task).

Definition DIFFICULTIES : list string := ["easy"; "medium"; "hard"]%string.

Definition mem (x : string) (l : list string) : bool :=
  existsb (String.eqb x) l.

(** [repr] of a list of strings that need no escaping, as an f-string
    prints it. *)
Definition repr_list (l : list string) : string :=
  "[" +:+ String.concat ", " (map (fun s : string => "'" +:+ s +:+ "'") l)
  +:+ "]".

(** [d[k]]: the value stored under [k], or [KeyError]. *)
Fixpoint getitem {V : Type} (d : list (string * V)) (k : string) : res V :=
  match d with
  | [] => Raise KeyError
  | (k', v) :: d' => if String.eqb k k' then Ok v else getitem d' k
  end.

(** [d.get(k, default)] *)
Definition get {V : Type} (d : list (string * V)) (k : string) (default : V)
  : V :=
  match getitem d k with
  | Ok v => v
  | Raise _ => default
  end.

(** [d[k] += n] *)
Definition dict_incr (d : list (string * Z)) (k : string) (n : Z)
  : res (list (string * Z)) :=
  let! v := getitem d k in Ok (dict_set k (v + n) d).

(** [for tasks in category_data.values(): count += len(tasks)] *)
Definition count_values (category_data : list (string * list task))
  (count : Z) : Z :=
  fold_left (fun count tasks => count + Z.of_nat (length tasks))
            (map snd category_data) count.

Section Load.
Variable CATEGORIES : list string.
Variable data_dir : files.

(** The inner [for difficulty in difficulties] loop. *)
Fixpoint load_difficulties (category : string) (difficulties : list string)
  (entry : list (string * list task)) : res (list (string * list task)) :=
  match difficulties with
  | [] => Ok entry
  | difficulty :: rest =>
      if negb (mem difficulty DIFFICULTIES)
      then Raise (ValueError ("Unknown difficulty: " +:+ difficulty
                              +:+ ". Valid difficulties: "
                              +:+ repr_list DIFFICULTIES))
      else
        let tasks := match data_dir category difficulty with
                     | Some ts => ts
                     | None => []
                     end in
        load_difficulties category rest (dict_set difficulty tasks entry)
  end.

(** The outer [for category in categories] loop. *)
Fixpoint load_categories (categories difficulties : list string)
  (dataset : dataset) : res Data.dataset :=
  match categories with
  | [] => Ok dataset
  | category :: rest =>
      if negb (mem category CATEGORIES)
      then Raise (ValueError ("Unknown category: " +:+ category
                              +:+ ". Valid categories: "
                              +:+ repr_list CATEGORIES))
      else
        let! entry := load_difficulties category difficulties [] in
        load_categories rest difficulties (dict_set category entry dataset)
  end.
End Load.

Module SpatialEval.

Definition CATEGORIES : list string :=
  ["coordinate_understanding"; "navigation_pathfinding"; "real_estate";
   "network_infrastructure"; "geometric_reasoning";
   "distance_computation"]%string.

Definition load_dataset (data_dir : files)
  (categories difficulties : option (list string)) : res dataset :=
  let categories := default CATEGORIES categories in
  let difficulties := default DIFFICULTIES difficulties in
  load_categories CATEGORIES data_dir categories difficulties [].

Definition load_category (category : string) (data_dir : files)
  (difficulties : option (list string)) : res (list (string * list task)) :=
  let! dataset := load_dataset data_dir (Some [category]) difficulties in
  getitem dataset category.

Definition get_task_count (dataset : dataset) : Z :=
  fold_left (fun count category_data => count_values category_data count)
            (map snd dataset) 0.


End SpatialEval.

Module SpatialOps.

Definition TIER_1_CATEGORIES : list string :=
  ["coordinate_understanding"; "geometric_reasoning";
   "distance_computation"; "topological_reasoning"]%string.
Definition TIER_2_CATEGORIES : list string :=
  ["navigation_pathfinding"; "viewpoint_visibility";
   "pattern_recognition"; "network_infrastructure"]%string.
Definition TIER_3_CATEGORIES : list string :=
  ["constraint_based_placement"; "resource_allocation";
   "temporal_spatial_reasoning"; "real_estate_geospatial"]%string.

Definition CATEGORIES : list string :=
  TIER_1_CATEGORIES ++ TIER_2_CATEGORIES ++ TIER_3_CATEGORIES.

Definition load_dataset (data_dir : files)
  (categories difficulties : option (list string)) (tier : option Z)
  : res dataset :=
  let! cats_to_load :=
    match tier with
    | Some t =>
        if t =? 1 then Ok TIER_1_CATEGORIES
        else if t =? 2 then Ok TIER_2_CATEGORIES
        else if t =? 3 then Ok TIER_3_CATEGORIES
        else Raise (ValueError
                      ("Invalid tier: "
                       +:+ string_of_list_ascii (PyFloat.str_int t)
                       +:+ ". Must be 1, 2, or 3."))
    | None =>
        match categories with
        | Some cs => Ok cs
        | None => Ok CATEGORIES
        end
    end in
  let difficulties := default DIFFICULTIES difficulties in
  load_categories CATEGORIES data_dir cats_to_load difficulties [].

Definition CATEGORY_CODES : list (string * string) :=
  [("coordinate_understanding", "CU"); ("geometric_reasoning", "GR");
   ("distance_computation", "DC"); ("topological_reasoning", "TR");
   ("navigation_pathfinding", "NP"); ("viewpoint_visibility", "VVA");
   ("pattern_recognition", "PRA"); ("network_infrastructure", "NI");
   ("constraint_based_placement", "CBP"); ("resource_allocation", "RAO");
   ("temporal_spatial_reasoning", "TSR");
   ("real_estate_geospatial", "RE")]%string.

(** The dataclass [Task]. *)
Record Task : Type := mk_Task {
  Task_task_id : string;
  Task_category : string;
  Task_difficulty : string;
  Task_prompt : list ascii;
  Task_ground_truth : Metrics.gtvalue
}.

Definition category_code (self : Task) : string :=
  get CATEGORY_CODES (Task_category self) "UNK".

Definition tier (self : Task) : Z :=
  if mem (Task_category self) TIER_1_CATEGORIES then 1
  else if mem (Task_category self) TIER_2_CATEGORIES then 2
  else if mem (Task_category self) TIER_3_CATEGORIES then 3
  else 0.

Definition load_category (category : string) (data_dir : files)
  (difficulties : option (list string)) : res (list (string * list task)) :=
  let! dataset :=
    load_dataset data_dir (Some [category]) difficulties None in
  getitem dataset category.

Definition load_tier (tier : Z) (data_dir : files)
  (difficulties : option (list string)) : res dataset :=
  load_dataset data_dir None difficulties (Some tier).

Definition get_task_count (dataset : dataset) : Z :=
  fold_left (fun count category_data => count_values category_data count)
            (map snd dataset) 0.

(** The dictionary [get_dataset_summary] returns; [by_tier] holds the
    values under the keys 1, 2 and 3. *)
Record summary : Type := mk_summary {
  total_tasks : Z;
  by_category : list (string * Z);
  by_difficulty : list (string * Z);
  by_tier : Z * Z * Z
}.

(** The body of [for difficulty, tasks in difficulties.items()]. *)
Definition summary_difficulty (st : Z * list (string * Z))
  (item : string * list task) : res (Z * list (string * Z)) :=
  let '(cat_total, by_difficulty) := st in
  let '(difficulty, tasks) := item in
  let task_count := Z.of_nat (length tasks) in
  let cat_total := cat_total + task_count in
  let! by_difficulty := dict_incr by_difficulty difficulty task_count in
  Ok (cat_total, by_difficulty).

(** The body of [for category, difficulties in dataset.items()]. *)
Definition summary_category (s : summary)
  (item : string * list (string * list task)) : res summary :=
  let '(category, difficulties) := item in
  let! st := for_each summary_difficulty difficulties
                      (0, by_difficulty s) in
  let '(cat_total, by_difficulty) := st in
  let by_category := dict_set category cat_total (by_category s) in
  let total_tasks := total_tasks s + cat_total in
  let '(t1, t2, t3) := by_tier s in
  let by_tier :=
    if mem category TIER_1_CATEGORIES then (t1 + cat_total, t2, t3)
    else if mem category TIER_2_CATEGORIES then (t1, t2 + cat_total, t3)
    else if mem category TIER_3_CATEGORIES then (t1, t2, t3 + cat_total)
    else (t1, t2, t3) in
  Ok (mk_summary total_tasks by_category by_difficulty by_tier).

Definition get_dataset_summary (dataset : dataset) : res summary :=
  let summary :=
    mk_summary 0 [] [("easy", 0); ("medium", 0); ("hard", 0)]%string
               (0, 0, 0) in
  for_each summary_category dataset summary.


End SpatialOps.

End Data.

(** ** src/spatialops/harness/evaluator.py *)

Module Harness.
Import Data.

Open Scope Q_scope.

(** One entry of [self.results]. *)
Record result : Type := mk_result {
  r_task_id : string;
  r_category : string;
  r_difficulty : string;
  r_prompt : list ascii;
  r_ground_truth : Metrics.gtvalue;
  r_response : list ascii;
  r_accuracy : Q;
  r_reasoning_score : Q;
  r_efficiency_score : Q
}.

Record category_score : Type := mk_category_score {
  cs_accuracy : Q;
  cs_reasoning : Q;
  cs_efficiency : Q;
  cs_score : Q
}.

(** What [_compute_final_scores] returns: the error dictionary, or the
    aggregated scores. *)
Inductive final_scores : Type :=
  | NoResults
  | Scores (overall_score accuracy reasoning efficiency : Q)
           (num_tasks : nat) (per_category : list (string * category_score)).

(** [xs[:n]] *)
Definition slice_to {A : Type} (xs : list A) (n : Z) : list A :=
  if (0 <=? n)%Z then take (Z.to_nat n) xs
  else take (length xs - Z.to_nat (- n)) xs.

Definition mean (xs : list Q) : Q :=
  fold_left Qplus xs 0 / inject_Z (Z.of_nat (length xs)).

(** [Evaluator.__init__]: the value of [self.dataset], or the exception
    raised by the loader. *)
Definition Evaluator_init (data_dir : files)
  (categories difficulties : option (list string)) : res dataset :=
  SpatialOps.load_dataset data_dir categories difficulties None.

Section Evaluator.
(** The model callable: it returns a response or raises. *)
Variable model_fn : list ascii -> res (list ascii).

(** The metrics the evaluator imports from spatialops.harness.metrics. *)
Variable compute_accuracy : list ascii -> Metrics.gtvalue -> res Q.
Variable compute_reasoning_score : list ascii -> Q.
Variable compute_efficiency_score : list ascii -> Q.
Variable compute_spatialops_score : Q -> Q -> Q -> res Q.

Definition all_tasks (dataset : dataset) : list (string * string * task) :=
  flat_map (fun '(category, category_data) =>
    flat_map (fun '(difficulty, tasks) =>
      map (fun task => (category, difficulty, task)) tasks)
    category_data) dataset.

(** The body of the evaluation loop for one task. *)
Definition evaluate_task (item : string * string * task) : res result :=
  let '(category, difficulty, task) := item in
  let prompt := prompt task in
  let ground_truth := ground_truth task in
  let! response := model_fn prompt in
  let! accuracy := compute_accuracy response ground_truth in
  let reasoning := compute_reasoning_score response in
  let efficiency := compute_efficiency_score response in
  Ok (mk_result (task_id task) category difficulty prompt ground_truth
                response accuracy reasoning efficiency).

(** The evaluation loop over [self.results]: the list after the loop,
    and whether the loop ended or raised. *)
Fixpoint run_loop (tasks : list (string * string * task))
  (results : list result) : list result * res unit :=
  match tasks with
  | [] => (results, Ok tt)
  | item :: rest =>
      match evaluate_task item with
      | Raise e => (results, Raise e)
      | Ok r => run_loop rest (results ++ [r])
      end
  end.

Definition score_of (rs : list result) : res category_score :=
  let acc := mean (map r_accuracy rs) in
  let reas := mean (map r_reasoning_score rs) in
  let eff := mean (map r_efficiency_score rs) in
  let! score := compute_spatialops_score acc reas eff in
  Ok (mk_category_score acc reas eff score).

(** The loop [for category in self.dataset.keys()] over the dictionary
    [category_scores]. *)
Fixpoint category_scores (categories : list string) (results : list result)
  (scores : list (string * category_score))
  : res (list (string * category_score)) :=
  match categories with
  | [] => Ok scores
  | category :: rest =>
      let cat_results :=
        filter (fun r => r_category r = category) results in
      match cat_results with
      | [] => category_scores rest results scores
      | _ => let! sc := score_of cat_results in
             category_scores rest results (dict_set category sc scores)
      end
  end.

Definition _compute_final_scores (dataset : dataset)
  (results : list result) : res final_scores :=
  match results with
  | [] => Ok NoResults
  | _ =>
      let! total := score_of results in
      let! per_category := category_scores (map fst dataset) results [] in
      Ok (Scores (cs_score total) (cs_accuracy total) (cs_reasoning total)
                 (cs_efficiency total) (length results) per_category)
  end.

(** The tasks the loop goes through: all of them, or [all_tasks[:max_tasks]]. *)
Definition selected_tasks (dataset : dataset) (max_tasks : option Z)
  : list (string * string * task) :=
  let all_tasks := all_tasks dataset in
  match max_tasks with
  | Some n => slice_to all_tasks n
  | None => all_tasks
  end.

(** [Evaluator.run]: the value of [self.results] afterwards, and the
    returned scores or the exception that left the method. *)
Definition run (dataset : dataset) (max_tasks : option Z)
  : list result * res final_scores :=
  match run_loop (selected_tasks dataset max_tasks) [] with
  | (results, Raise e) => (results, Raise e)
  | (results, Ok _) => (results, _compute_final_scores dataset results)
  end.

End Evaluator.

End Harness.

(** ** data/generate_dataset_v2.py *)

Module Generator.

Abbreviation cell := (Z * Z)%type.

Definition manhattan_distance (p1 p2 : cell) : Z :=
  Z.abs (p1.1 - p2.1) + Z.abs (p1.2 - p2.2).

(** *** a_star *)

(** An entry [(f_score, (x, y))] of [open_set]. *)
Abbreviation entry := (Z * (Z * Z))%type.

(** Python's order on the tuples [(f, (x, y))]. *)
Definition entry_leb (a b : entry) : bool :=
  (a.1 <? b.1)
  || ((a.1 =? b.1)
      && ((a.2.1 <? b.2.1) || ((a.2.1 =? b.2.1) && (a.2.2 <=? b.2.2)))).

(** [heapq] keeps a binary heap in a list.  The only thing the caller
    sees is the order in which entries are popped, [heappop] returns a
    least entry, and two entries that compare equal are the same tuple:
    the heap is modelled by the bag of its entries. *)
Definition heappush (heap : list entry) (item : entry) : list entry :=
  item :: heap.

Fixpoint heappop (heap : list entry) : option (entry * list entry) :=
  match heap with
  | [] => None
  | e :: heap' =>
      match heappop heap' with
      | None => Some (e, [])
      | Some (m, rest) =>
          if entry_leb e m then Some (e, heap') else Some (m, e :: rest)
      end
  end.

Abbreviation grid := (list (list Z)).

(** [grid[x][y]] for indices that are not negative. *)
Definition grid_at (grid : grid) (c : cell) : option Z :=
  match grid !! Z.to_nat c.1 with
  | Some row => row !! Z.to_nat c.2
  | None => None
  end.

Definition heuristic (a b : cell) : Z :=
  Z.abs (a.1 - b.1) + Z.abs (a.2 - b.2).

Definition directions : list (Z * Z) := [(0, 1); (0, -1); (1, 0); (-1, 0)].

Definition in_bounds (rows cols : Z) (c : cell) : bool :=
  (0 <=? c.1) && (c.1 <? rows) && (0 <=? c.2) && (c.2 <? cols).

Abbreviation astate := (list (Z * (Z * Z)) * gmap (Z * Z) Z)%type.

(** The body of [for dx, dy in ...] for one direction. *)
Definition relax (grid : grid) (rows cols : Z) (end_ current : cell)
  (st : astate) (d : Z * Z) : res astate :=
  let '(open_set, g_score) := st in
  let neighbor := (current.1 + d.1, current.2 + d.2) in
  if in_bounds rows cols neighbor then
    match grid_at grid neighbor with
    | None => Raise IndexError
    | Some v =>
        if v =? 1 then Ok (open_set, g_score)
        else
          match g_score !! current with
          | None => Raise KeyError
          | Some g_current =>
              let tentative_g := g_current + 1 in
              let better :=
                match g_score !! neighbor with
                | None => true
                | Some g_neighbor => tentative_g <? g_neighbor
                end in
              if better then
                let f_score := tentative_g + heuristic neighbor end_ in
                Ok (heappush open_set (f_score, neighbor),
                    <[neighbor := tentative_g]> g_score)
              else Ok (open_set, g_score)
          end
    end
  else Ok (open_set, g_score).

Definition cell_eqb (a b : cell) : bool := (a.1 =? b.1) && (a.2 =? b.2).

(** [while open_set: ...] *)
Fixpoint a_star_loop (fuel : nat) (grid : grid) (rows cols : Z) (end_ : cell)
  (open_set : list entry) (g_score : gmap cell Z) : option (res Z) :=
  match fuel with
  | O => None
  | S fuel' =>
      match heappop open_set with
      | None => Some (Ok (-1))
      | Some ((_, current), open_set') =>
          if cell_eqb current end_ then
            match g_score !! current with
            | Some g => Some (Ok g)
            | None => Some (Raise KeyError)
            end
          else
            match for_each (relax grid rows cols end_ current) directions
                           (open_set', g_score) with
            | Raise e => Some (Raise e)
            | Ok (open_set'', g_score') =>
                a_star_loop fuel' grid rows cols end_ open_set'' g_score'
            end
      end
  end.

Definition a_star (fuel : nat) (grid : grid) (start end_ : cell)
  : option (res Z) :=
  match grid with
  | [] => Some (Raise IndexError)
  | row0 :: _ =>
      let rows := Z.of_nat (length grid) in
      let cols := Z.of_nat (length row0) in
      a_star_loop fuel grid rows cols end_ [(0, start)] {[start := 0]}
  end.

(** *** bfs_connected *)

(** [for neighbor in graph.get(node, [])] *)
Definition enqueue_neighbors (visited : gset Z) (neighbors : list Z)
  (queue : list Z) : list Z :=
  fold_left (fun q neighbor =>
               if decide (neighbor ∈ visited) then q else q ++ [neighbor])
            neighbors queue.

Fixpoint bfs_loop (fuel : nat) (graph : gmap Z (list Z)) (end_ : Z)
  (visited : gset Z) (queue : list Z) : option bool :=
  match fuel with
  | O => None
  | S fuel' =>
      match queue with
      | [] => Some false
      | node :: queue' =>
          if node =? end_ then Some true
          else if decide (node ∈ visited)
          then bfs_loop fuel' graph end_ visited queue'
          else
            let visited' := {[node]} ∪ visited in
            bfs_loop fuel' graph end_ visited'
              (enqueue_neighbors visited' (default [] (graph !! node)) queue')
      end
  end.

Definition bfs_connected (fuel : nat) (graph : gmap Z (list Z))
  (start end_ : Z) : option bool :=
  if start =? end_ then Some true
  else bfs_loop fuel graph end_ ∅ [start].

(** *** generate_navigation_pathfinding *)

(** The shared random stream: [stream i] is the i-th raw draw. *)
Definition stream : Type := nat -> Z.

(** [random.randint(a, b)] at position [i] of the stream: a value in
    [a..b] and the next position. *)
Definition randint (r : stream) (a b : Z) (i : nat) : Z * nat :=
  (a + r i mod (b - a + 1), S i).

(** [obstacles.add(c)] on a set kept as a duplicate-free list. *)
Definition set_add (c : cell) (obstacles : list cell) : list cell :=
  if decide (c ∈ obstacles) then obstacles else obstacles ++ [c].

(** [while len(obstacles) < num_obstacles: ...] *)
Fixpoint draw_obstacles (fuel : nat) (r : stream) (grid_size num_obstacles : Z)
  (obstacles : list cell) (i : nat) : option (list cell * nat) :=
  if Z.of_nat (length obstacles) <? num_obstacles then
    match fuel with
    | O => None
    | S fuel' =>
        let (ox, i1) := randint r 1 (grid_size - 2) i in
        let (oy, i2) := randint r 1 (grid_size - 2) i1 in
        draw_obstacles fuel' r grid_size num_obstacles
                       (set_add (ox, oy) obstacles) i2
    end
  else Some (obstacles, i).

(** [[[0] * n for _ in range(n)]] *)
Definition empty_grid (n : nat) : grid := replicate n (replicate n 0).

(** [grid[ox][oy] = 1], for indices inside the grid. *)
Definition set_obstacle (g : grid) (c : cell) : grid :=
  match g !! Z.to_nat c.1 with
  | Some row => <[Z.to_nat c.1 := <[Z.to_nat c.2 := 1]> row]> g
  | None => g
  end.

Definition place_obstacles (g : grid) (obstacles : list cell) : grid :=
  fold_left set_obstacle obstacles g.

(** The generated task; the prompt is represented by the data it embeds
    (the order in which a Python set lists its members is not modelled). *)
Record nav_task : Type := mk_nav_task {
  nt_task_id : Z;
  nt_difficulty : string;
  nt_grid_size : Z;
  nt_end : cell;
  nt_obstacles : list cell;
  nt_ground_truth : Z
}.

Fixpoint generate_navigation_pathfinding (fuel : nat) (r : stream)
  (difficulty : string) (task_id : Z) (i : nat)
  : option (res nav_task * nat) :=
  match fuel with
  | O => None
  | S fuel' =>
      if String.eqb difficulty "easy" then
        let grid_size := 5 in
        let start := (0, 0) in
        let (ex, i1) := randint r 2 (grid_size - 1) i in
        let (ey, i2) := randint r 2 (grid_size - 1) i1 in
        let path_length := manhattan_distance start (ex, ey) in
        Some (Ok (mk_nav_task task_id difficulty grid_size (ex, ey) []
                              path_length), i2)
      else if String.eqb difficulty "medium" then
        let grid_size := 6 in
        let grid := empty_grid 6 in
        let (num_obstacles, i1) := randint r 3 6 i in
        match draw_obstacles fuel' r grid_size num_obstacles [] i1 with
        | None => None
        | Some (obstacles, i2) =>
            let grid := place_obstacles grid obstacles in
            let start := (0, 0) in
            let end_ := (grid_size - 1, grid_size - 1) in
            match a_star fuel' grid start end_ with
            | None => None
            | Some (Raise e) => Some (Raise e, i2)
            | Some (Ok path_length) =>
                if path_length =? -1
                then generate_navigation_pathfinding fuel' r difficulty
                                                     task_id i2
                else Some (Ok (mk_nav_task task_id difficulty grid_size end_
                                           obstacles path_length), i2)
            end
        end
      else
        let grid_size := 8 in
        let grid := empty_grid 8 in
        let (num_obstacles, i1) := randint r 8 12 i in
        match draw_obstacles fuel' r grid_size num_obstacles [] i1 with
        | None => None
        | Some (obstacles, i2) =>
            let grid := place_obstacles grid obstacles in
            let start := (0, 0) in
            let end_ := (grid_size - 1, grid_size - 1) in
            match a_star fuel' grid start end_ with
            | None => None
            | Some (Raise e) => Some (Raise e, i2)
            | Some (Ok path_length) =>
                Some (Ok (mk_nav_task task_id difficulty grid_size end_
                                      obstacles path_length), i2)
            end
        end
  end.

(** *** Geometry helpers

    The generators call them on integer coordinates. *)

(** A rectangle [(x_min, y_min, x_max, y_max)]. *)
Abbreviation rect := (Z * Z * Z * Z)%type.

Definition point_in_rectangle (point : cell) (rect : rect) : bool :=
  let '(x, y) := point in
  let '(x_min, y_min, x_max, y_max) := rect in
  (x_min <=? x) && (x <=? x_max) && (y_min <=? y) && (y <=? y_max).

Definition rectangles_overlap (r1 r2 : rect) : bool :=
  let '(r1_0, r1_1, r1_2, r1_3) := r1 in
  let '(r2_0, r2_1, r2_2, r2_3) := r2 in
  negb ((r1_2 <? r2_0) || (r2_2 <? r1_0) || (r1_3 <? r2_1) || (r2_3 <? r1_1)).

(** The local helpers of [line_intersects_rectangle]. *)
Definition ccw (A B C : cell) : bool :=
  (C.2 - A.2) * (B.1 - A.1) >? (B.2 - A.2) * (C.1 - A.1).

Definition intersect (A B C D : cell) : bool :=
  negb (Bool.eqb (ccw A C D) (ccw B C D))
  && negb (Bool.eqb (ccw A B C) (ccw A B D)).

Definition line_intersects_rectangle (p1 p2 : cell) (rect : rect) : bool :=
  let '(x_min, y_min, x_max, y_max) := rect in
  let corners :=
    [(x_min, y_min); (x_max, y_min); (x_max, y_max); (x_min, y_max)] in
  let edges :=
    map (fun i => (nth i corners (0, 0),
                   nth ((i + 1) mod 4) corners (0, 0))) (seq 0 4) in
  if existsb (fun edge => intersect p1 p2 edge.1 edge.2) edges then true
  else if point_in_rectangle p1 rect && point_in_rectangle p2 rect then true
  else false.

(** *** generate_geometric_reasoning *)

(** [random.random()] at position [i] of the stream: a multiple of
    2^-53 in [0, 1), and the next position. *)
Definition random (r : stream) (i : nat) : Q * nat :=
  ((inject_Z (r i mod 2 ^ 53) / inject_Z (2 ^ 53))%Q, S i).

(** A ground truth as a generator produces it. *)
Inductive answer : Type :=
  | AInt (z : Z)
  | AFloat (x : Q)
  | AStr (s : string).

(** [["Yes" if b else "No"]] *)
Definition yes_no (b : bool) : string := if b then "Yes" else "No".

(** The generated task; the prompt is represented by the numbers it
    embeds, in the order in which it prints them. *)
Record geo_task : Type := mk_geo_task {
  ge_task_id : Z;
  ge_difficulty : string;
  ge_numbers : list Z;
  ge_ground_truth : answer
}.

Definition generate_geometric_reasoning (r : stream) (difficulty : string)
  (task_id : Z) (i : nat) : geo_task * nat :=
  if String.eqb difficulty "easy" then
    let (width, i1) := randint r 2 20 i in
    let (height, i2) := randint r 2 20 i1 in
    let area := width * height in
    (mk_geo_task task_id difficulty [width; height] (AInt area), i2)
  else if String.eqb difficulty "medium" then
    let (a0, i1) := randint r 0 5 i in
    let (a1, i2) := randint r 0 5 i1 in
    let (a2, i3) := randint r 6 10 i2 in
    let (a3, i4) := randint r 6 10 i3 in
    let r1 := (a0, a1, a2, a3) in
    let (u, i5) := random r i4 in
    let '(r2, i9) :=
      if Metrics.Qltb u 0.5 then
        let (b0, i6) := randint r a0 (a2 - 1) i5 in
        let (b1, i7) := randint r a1 (a3 - 1) i6 in
        let (b2, i8) := randint r a2 15 i7 in
        let (b3, i9) := randint r a3 15 i8 in
        ((b0, b1, b2, b3), i9)
      else
        let (k0, i6) := randint r 1 5 i5 in
        let (k1, i7) := randint r 1 5 i6 in
        let (k2, i8) := randint r 6 10 i7 in
        let (k3, i9) := randint r 6 10 i8 in
        ((a2 + k0, a3 + k1, a2 + k2, a3 + k3), i9) in
    let overlap := rectangles_overlap r1 r2 in
    let '(b0, b1, b2, b3) := r2 in
    (mk_geo_task task_id difficulty [a0; a1; a2; a3; b0; b1; b2; b3]
                 (AStr (yes_no overlap)), i9)
  else
    let (x1, i1) := randint r 0 10 i in
    let (y1, i2) := randint r 0 10 i1 in
    let (x2, i3) := randint r 0 10 i2 in
    let (y2, i4) := randint r 0 10 i3 in
    let (x3, i5) := randint r 0 10 i4 in
    let (y3, i6) := randint r 0 10 i5 in
    let area :=
      Qabs (inject_Z (x1 * (y2 - y3) + x2 * (y3 - y1) + x3 * (y1 - y2)) / 2)
    in
    (mk_geo_task task_id difficulty [x1; y1; x2; y2; x3; y3] (AFloat area),
     i6).

(** *** generate_viewpoint_visibility *)

Record vis_task : Type := mk_vis_task {
  vt_task_id : Z;
  vt_difficulty : string;
  vt_observer : cell;
  vt_target : cell;
  vt_obstacles : list rect;
  vt_ground_truth : string
}.

(** [for _ in range(num_obs): ... obstacles.append((x1, y1, x2, y2))] *)
Fixpoint draw_rectangles (r : stream) (num_obs : nat) (obstacles : list rect)
  (i : nat) : list rect * nat :=
  match num_obs with
  | O => (obstacles, i)
  | S n =>
      let (x1, i1) := randint r 2 12 i in
      let (y1, i2) := randint r 2 12 i1 in
      let (w, i3) := randint r 2 4 i2 in
      let x2 := x1 + w in
      let (h, i4) := randint r 2 4 i3 in
      let y2 := y1 + h in
      draw_rectangles r n (obstacles ++ [(x1, y1, x2, y2)]) i4
  end.

Definition generate_viewpoint_visibility (r : stream) (difficulty : string)
  (task_id : Z) (i : nat) : vis_task * nat :=
  if String.eqb difficulty "easy" then
    let observer := (0, 0) in
    let (tx, i1) := randint r 5 10 i in
    let (ty, i2) := randint r 5 10 i1 in
    (mk_vis_task task_id difficulty observer (tx, ty) [] "Yes", i2)
  else if String.eqb difficulty "medium" then
    let observer := (0, 0) in
    let target := (10, 10) in
    let (u, i1) := random r i in
    let '(obstacle, blocked) :=
      if Metrics.Qltb u 0.5 then ((4, 4, 6, 6), true)
      else ((8, 0, 10, 2), false) in
    (mk_vis_task task_id difficulty observer target [obstacle]
                 (if blocked then "No" else "Yes"), i1)
  else
    let observer := (0, 0) in
    let target := (15, 15) in
    let (num_obs, i1) := randint r 2 3 i in
    let (obstacles, i2) := draw_rectangles r (Z.to_nat num_obs) [] i1 in
    let blocked :=
      existsb (fun obs => line_intersects_rectangle observer target obs)
              obstacles in
    (mk_vis_task task_id difficulty observer target obstacles
                 (if blocked then "No" else "Yes"), i2).

(** *** generate_network_infrastructure *)

(** [random.choice(seq)] at position [i] of the stream; it raises
    [IndexError] on an empty sequence. *)
Definition choice {A : Type} (r : stream) (xs : list A) (i : nat)
  : res (A * nat) :=
  match xs !! Z.to_nat (r i mod Z.of_nat (length xs)) with
  | Some x => Ok (x, S i)
  | None => Raise IndexError
  end.

(** [{i: [] for i in range(num_nodes)}] *)
Definition isolated_nodes (num_nodes : nat) : gmap Z (list Z) :=
  list_to_map ((fun i => (Z.of_nat i, [])) <$> seq 0 num_nodes).

(** [graph[a].append(b)] *)
Definition append_neighbor (graph : gmap Z (list Z)) (a b : Z)
  : res (gmap Z (list Z)) :=
  match graph !! a with
  | Some neighbors => Ok (<[a := neighbors ++ [b]]> graph)
  | None => Raise KeyError
  end.

(** The body of [for a, b in edges]. *)
Definition add_edge (graph : gmap Z (list Z)) (e : Z * Z)
  : res (gmap Z (list Z)) :=
  let! graph := append_neighbor graph e.1 e.2 in
  append_neighbor graph e.2 e.1.

Definition build_graph (num_nodes : nat) (edges : list (Z * Z))
  : res (gmap Z (list Z)) :=
  for_each add_edge edges (isolated_nodes num_nodes).

(** The body of [for neighbor in graph[node]] of the hop count. *)
Definition visit_neighbor (node : Z) (st : gmap Z Z * list Z) (neighbor : Z)
  : res (gmap Z Z * list Z) :=
  let '(visited, queue) := st in
  match visited !! neighbor with
  | Some _ => Ok (visited, queue)
  | None =>
      match visited !! node with
      | Some d => Ok (<[neighbor := d + 1]> visited, queue ++ [neighbor])
      | None => Raise KeyError
      end
  end.

(** [while queue: ...] of the hop count; the result is [visited] when
    the loop ends. *)
Fixpoint hops_loop (fuel : nat) (graph : gmap Z (list Z)) (end_ : Z)
  (visited : gmap Z Z) (queue : list Z) : option (res (gmap Z Z)) :=
  match fuel with
  | O => None
  | S fuel' =>
      match queue with
      | [] => Some (Ok visited)
      | node :: queue' =>
          if node =? end_ then Some (Ok visited)
          else
            match graph !! node with
            | None => Some (Raise KeyError)
            | Some neighbors =>
                match for_each (visit_neighbor node) neighbors
                               (visited, queue') with
                | Raise e => Some (Raise e)
                | Ok (visited', queue'') =>
                    hops_loop fuel' graph end_ visited' queue''
                end
            end
      end
  end.

Record net_task : Type := mk_net_task {
  nw_task_id : Z;
  nw_difficulty : string;
  nw_edges : list (Z * Z);
  nw_removed_edge : option (Z * Z);
  nw_ground_truth : answer
}.

Definition edge_eqb (a b : Z * Z) : bool := (a.1 =? b.1) && (a.2 =? b.2).

Definition generate_network_infrastructure (fuel : nat) (r : stream)
  (difficulty : string) (task_id : Z) (i : nat)
  : option (res net_task * nat) :=
  if String.eqb difficulty "easy" then
    let num_nodes := 5%nat in
    let edges := [(0, 1); (1, 2); (2, 3); (3, 4)] in
    match build_graph num_nodes edges with
    | Raise e => Some (Raise e, i)
    | Ok graph =>
        match bfs_connected fuel graph 0 4 with
        | None => None
        | Some connected =>
            Some (Ok (mk_net_task task_id difficulty edges None
                                  (AStr (yes_no connected))), i)
        end
    end
  else if String.eqb difficulty "medium" then
    let num_nodes := 6%nat in
    let edges := [(0, 1); (1, 2); (2, 3); (3, 4); (4, 5); (0, 2); (2, 4)] in
    match choice r edges i with
    | Raise e => Some (Raise e, i)
    | Ok (removed_edge, i1) =>
        let remaining_edges :=
          filter (fun e => negb (edge_eqb e removed_edge) = true) edges in
        match build_graph num_nodes remaining_edges with
        | Raise e => Some (Raise e, i1)
        | Ok graph =>
            match bfs_connected fuel graph 0 5 with
            | None => None
            | Some connected =>
                Some (Ok (mk_net_task task_id difficulty edges
                                      (Some removed_edge)
                                      (AStr (yes_no connected))), i1)
            end
        end
    end
  else
    let num_nodes := 7%nat in
    let edges := [(0, 1); (1, 2); (2, 3); (3, 6); (0, 4); (4, 5); (5, 6);
                  (1, 4); (2, 5)] in
    match build_graph num_nodes edges with
    | Raise e => Some (Raise e, i)
    | Ok graph =>
        match hops_loop fuel graph 6 {[0 := 0]} [0] with
        | None => None
        | Some (Raise e) => Some (Raise e, i)
        | Some (Ok visited) =>
            let shortest_path := default (-1) (visited !! 6) in
            Some (Ok (mk_net_task task_id difficulty edges None
                                  (AInt shortest_path)), i)
        end
    end.

End Generator.

(** * Specification-level definitions *)

Module Spec.
Import PyStr PyNum Metrics.

(** The efficiency score as a function of the word count alone, with the
    two [max] resolved. *)
Definition efficiency_closed_form (w : Z) : Q :=
  (if (w <=? 25)%Z then 1 # 2
   else if (w <? 50)%Z then w # 50
   else if (w <=? 200)%Z then 1
   else if (w <=? 550)%Z then (700 - w) # 500
   else 3 # 10)%Q.

(** The weighted sum as binary64 arithmetic gives it, before it is
    rounded to two decimals. *)
Definition weighted_sum (accuracy reasoning efficiency : float64)
  (weights : float64 * float64 * float64) : float64 :=
  fmul (fadd (fadd (fmul accuracy weights.1.1) (fmul reasoning weights.1.2))
             (fmul efficiency weights.2))
       (Fin 100).

(** The weighted sum of the specification, in exact arithmetic. *)
Definition exact_weighted_sum (accuracy reasoning efficiency : Q)
  (weights : Q * Q * Q) : Q :=
  ((accuracy * weights.1.1 + reasoning * weights.1.2
    + efficiency * weights.2) * 100)%Q.

(** The text of a number as the pattern [-?\d+\.?\d*] reads it: a
    sign, the digits before the point, and the point with the digits
    after it when there is one. *)
Definition number_text (neg : bool) (ip : list ascii)
  (frac : option (list ascii)) : list ascii :=
  (if neg then ["-"%char] else [])
  ++ ip ++ match frac with
           | Some fp => "."%char :: fp
           | None => []
           end.

(** One step of reading a decimal number, digit by digit. *)
Definition step (acc : Z) (c : ascii) : Z :=
  (10 * acc + PyFloat.digit_val c)%Z.

Definition all_digits (ds : list ascii) : Prop :=
  forallb is_digit ds = true.

(** The digits of a number, with the point when there is one. *)
Definition unsigned_text (ip : list ascii) (frac : option (list ascii))
  : list ascii :=
  ip ++ match frac with Some fp => "."%char :: fp | None => [] end.

Definition frac_digits (frac : option (list ascii)) : Prop :=
  match frac with Some fp => all_digits fp | None => True end.

(** The magnitude [float] computes from the digits. *)
Definition text_magnitude (ip : list ascii) (frac : option (list ascii)) : Q :=
  let fp := default [] frac in
  (inject_Z (PyFloat.digits_val (ip ++ fp)) * PyFloat.pow10 (- Z.of_nat (length fp)))%Q.

(** A float whose text is in positional notation. *)
Definition positional (f : PyFloat.pyfloat) : Prop :=
  (-4 < PyFloat.fdecpt f <= 16)%Z.

(** The digit string of a float: not empty, digits only. *)
Definition float_digits_ok (f : PyFloat.pyfloat) : Prop :=
  PyFloat.fdigits f <> [] /\ all_digits (PyFloat.fdigits f).

(** The response of the no-match test. *)
Definition unrelated : list ascii := chars "completely unrelated text".

(** Whether the text of a ground truth, lower-cased and stripped, occurs
    in the (lower-cased, stripped) response; for a list, whether the text
    of one of its members does.  Numbers and other values have no text. *)
Fixpoint text_occurs (response_lower : list ascii) (g : gtvalue) : bool :=
  match g with
  | GStr s => contains response_lower (strip (lower s))
  | GList l => existsb (text_occurs response_lower) l
  | _ => false
  end.

(** [d.get(k)] on an insertion-ordered dictionary. *)
Fixpoint dict_get {V : Type} (k : string) (d : list (string * V)) : option V :=
  match d with
  | [] => None
  | (k', v) :: d' => if String.eqb k k' then Some v else dict_get k d'
  end.

(** [dataset[category][difficulty]] *)
Definition tasks_of (ds : Data.dataset) (category difficulty : string)
  : option (list Data.task) :=
  match dict_get category ds with
  | Some entry => dict_get difficulty entry
  | None => None
  end.

(** What the loader stores for one (category, difficulty) pair. *)
Definition stored (data_dir : Data.files) (category difficulty : string)
  : list Data.task :=
  default [] (data_dir category difficulty).

(** When the loader rejects a request: some category is unknown, or
    there is a category to load and some difficulty is unknown. *)
Definition load_rejects (CATEGORIES categories difficulties : list string)
  : bool :=
  negb (forallb (fun c => Data.mem c CATEGORIES) categories)
  || (match categories with [] => false | _ => true end
      && negb (forallb (fun d => Data.mem d Data.DIFFICULTIES) difficulties)).

End Spec.

(** * Specification of graph reachability *)

Module GraphSpec.
Import Generator.

(** [b] is listed as a neighbour of [a]. *)
Definition edge (graph : gmap Z (list Z)) (a b : Z) : Prop :=
  b ∈ default [] (graph !! a).

(** There is a chain of listed neighbours from [a] to [b]. *)
Definition reachable (graph : gmap Z (list Z)) : relation Z :=
  rtc (edge graph).

(** An undirected adjacency map. *)
Definition undirected (graph : gmap Z (list Z)) : Prop :=
  forall a b, edge graph a b <-> edge graph b a.

(** A check of undirectedness that computes: every listed neighbour
    lists the node back. *)
Definition undirected_check (graph : gmap Z (list Z)) : bool :=
  forallb (fun kv : Z * list Z =>
             forallb (fun b => bool_decide (kv.1 ∈ default [] (graph !! b)))
                     kv.2)
          (map_to_list graph).

(** The invariant of the search loop. *)
Definition bfs_inv (graph : gmap Z (list Z)) (start end_ : Z)
  (visited : gset Z) (queue : list Z) : Prop :=
  (forall n, n ∈ visited \/ n ∈ queue -> reachable graph start n)
  /\ (forall v w, v ∈ visited -> edge graph v w -> w ∈ visited \/ w ∈ queue)
  /\ (end_ ∉ visited)
  /\ (start ∈ visited \/ start ∈ queue).

(** What the nodes not visited yet can still add to the queue, plus one
    for each of them. *)
Definition pending (visited : gset Z) (adjacency : list (Z * list Z)) : nat :=
  sum_list (map (fun kv => if decide (kv.1 ∈ visited) then 0%nat
                           else S (length kv.2)) adjacency).

(** The measure of the search loop. *)
Definition bfs_measure (graph : gmap Z (list Z)) (visited : gset Z)
  (queue : list Z) : nat :=
  (length queue + pending visited (map_to_list graph))%nat.

(** Enough fuel for any search in [graph]. *)
Definition bfs_fuel (graph : gmap Z (list Z)) : nat :=
  S (bfs_measure graph ∅ [0]).

End GraphSpec.

(** * Specification of the grid search *)

Module GridSpec.
Import Generator.

(** Every row of the grid has [cols] cells and there are [rows] rows. *)
Definition rectangular (grid : grid) (rows cols : Z) : Prop :=
  Z.of_nat (length grid) = rows
  /\ Forall (fun row => Z.of_nat (length row) = cols) grid.

(** One step from [c] in direction [d]. *)
Definition move (c : cell) (d : Z * Z) : cell := (c.1 + d.1, c.2 + d.2).

Section Grid.
Variable grid : grid.
Variables rows cols : Z.
Variables start end_ : cell.

(** A cell the search may step on: inside the grid and not an obstacle. *)
Definition free (c : cell) : Prop :=
  in_bounds rows cols c = true /\ grid_at grid c <> Some 1.

(** [p] lists the cells of a walk from [from] (excluded) to [to]: each
    cell is one step from the one before and is free. *)
Fixpoint is_path (from : cell) (p : list cell) (to : cell) : Prop :=
  match p with
  | [] => from = to
  | c :: p' =>
      (exists d, d ∈ directions /\ c = move from d)
      /\ free c /\ is_path c p' to
  end.

(** The cells a key of [g_score] can be. *)
Definition universe : list cell :=
  start :: (r ← seqZ 0 rows; (fun c => (r, c)) <$> seqZ 0 cols).

Definition bound : Z := Z.of_nat (length universe).

(** The score of a cell, or [bound] while it has none. *)
Definition pot (g_score : gmap cell Z) (c : cell) : Z :=
  default bound (g_score !! c).

Definition sumZ (l : list Z) : Z := foldr Z.add 0 l.

(** The measure of the search loop. *)
Definition a_star_measure (open_set : list entry) (g_score : gmap cell Z)
  : Z :=
  Z.of_nat (length open_set) + 2 * sumZ (pot g_score <$> universe).

(** [n], of score [v], has an entry in the open set that is not above
    [v] plus the heuristic. *)
Definition queued (open_set : list entry) (n : cell) (v : Z) : Prop :=
  exists f, (f, n) ∈ open_set /\ f <= v + heuristic n end_.

(** Every free neighbour of [n] in the directions [ds] has a score, at
    most one above [v]. *)
Definition relaxed (ds : list (Z * Z)) (g_score : gmap cell Z) (n : cell)
  (v : Z) : Prop :=
  forall d, d ∈ ds -> free (move n d) ->
            exists vm, g_score !! move n d = Some vm /\ vm <= v + 1.

Definition frontier_at (open_set : list entry) (g_score : gmap cell Z)
  (n : cell) : Prop :=
  forall v, g_score !! n = Some v ->
            queued open_set n v \/ (n <> end_ /\ relaxed directions g_score n v).

Record a_star_base (open_set : list entry) (g_score : gmap cell Z) : Prop := {
  base_lower : forall n v, g_score !! n = Some v ->
                           manhattan_distance start n <= v;
  base_size : forall n v, g_score !! n = Some v ->
                          v + 1 <= Z.of_nat (size g_score);
  base_dom : forall n v, g_score !! n = Some v ->
                         n = start \/ in_bounds rows cols n = true;
  base_open : forall f n, (f, n) ∈ open_set -> is_Some (g_score !! n);
  base_start : exists v, g_score !! start = Some v /\ v <= 0;
  base_end : forall f, (f, end_) ∈ open_set ->
                       exists v, g_score !! end_ = Some v /\ v <= f
}.

(** The invariant of the search loop. *)
Definition a_star_inv (open_set : list entry) (g_score : gmap cell Z) : Prop :=
  a_star_base open_set g_score
  /\ forall n, frontier_at open_set g_score n.

(** The invariant while [current] is being expanded, the directions
    [done] already tried. *)
Definition expanding (current : cell) (done : list (Z * Z))
  (open_set : list entry) (g_score : gmap cell Z) : Prop :=
  a_star_base open_set g_score
  /\ (forall n, n <> current -> frontier_at open_set g_score n)
  /\ exists g_current, g_score !! current = Some g_current
                       /\ relaxed done g_score current g_current.

(** Every score is the length of a walk from [start]. *)
Definition walked (g_score : gmap cell Z) : Prop :=
  forall n v, g_score !! n = Some v ->
              exists p, is_path start p n /\ Z.of_nat (length p) = v.

(** [v] is the length of a shortest walk from [start] to [end_]. *)
Definition shortest_walk (v : Z) : Prop :=
  (exists p, is_path start p end_ /\ Z.of_nat (length p) = v)
  /\ forall q, is_path start q end_ -> v <= Z.of_nat (length q).

(** No walk leads from [start] to [end_]. *)
Definition unreachable : Prop := forall q, ~ is_path start q end_.


End Grid.

(** The cells strictly inside a grid of side [grid_size]. *)
Definition interior (grid_size : Z) (c : cell) : Prop :=
  1 <= c.1 <= grid_size - 2 /\ 1 <= c.2 <= grid_size - 2.

(** [k] steps from [c] in direction [d]. *)
Fixpoint walk (c : cell) (d : Z * Z) (k : nat) : list cell :=
  match k with
  | O => []
  | S k' => move c d :: walk (move c d) d k'
  end.

(** Along the first row, then down the last column of an [n] by [n]
    grid. *)
Definition border_path (n : nat) : list cell :=
  walk (0, 0) (0, 1) (n - 1) ++ walk (0, Z.of_nat n - 1) (1, 0) (n - 1).

(** Enough fuel for any search on a grid of [rows] by [cols] cells. *)
Definition a_star_fuel (rows cols : Z) : nat :=
  Z.to_nat (2 * (rows * cols + 1) * (rows * cols + 1) + 2).

End GridSpec.

(** * Specification of the line-of-sight test *)

Module GeometrySpec.
Import Generator.

(** The diagonal from the origin passes strictly below the corner
    [(x_min, y_max)] of the rectangle and not below its corner
    [(x_max, y_min)]. *)
Definition crosses_diagonal (o : rect) : bool :=
  let '(x_min, y_min, x_max, y_max) := o in
  (x_min <? y_max) && (y_min <=? x_max).

(** The rectangles the hard visibility task draws. *)
Definition drawn_obstacle (o : rect) : Prop :=
  let '(x1, y1, x2, y2) := o in
  2 <= x1 <= 12 /\ 2 <= y1 <= 12
  /\ x1 + 2 <= x2 <= x1 + 4 /\ y1 + 2 <= y2 <= y1 + 4.

End GeometrySpec.

(** * Concrete inputs used by the examples *)

Module Inputs.
Import PyStr Metrics Data.

(** A data directory with one task file. *)
Definition one_file : files :=
  fun c d =>
    if (String.eqb c "real_estate" && String.eqb d "easy")%bool
    then Some [mk_task "RE_easy_0001" (chars "Is it inside?")
                       (GStr (chars "Yes"))]
    else None.

(** A dataset of two tasks. *)
Definition two_tasks : dataset :=
  [("navigation_pathfinding"%string,
    [("easy"%string,
      [mk_task "NP_easy_0001" (chars "first prompt") (GInt 4);
       mk_task "NP_easy_0002" (chars "second prompt") (GInt 6)])])].

(** A model that fails on the first prompt and answers the second. *)
Definition failing_model (prompt : list ascii) : res (list ascii) :=
  if startswith prompt (chars "first")
  then Raise (ModelError "connection reset")
  else Ok (chars "The answer is 6").

(** The float 1e-07: one digit, decimal point six places to its left. *)
Definition tenth_of_a_millionth : PyFloat.pyfloat :=
  PyFloat.mk_float false (chars "1") (-6).

(** The float 15.5. *)
Definition fifteen_and_a_half : PyFloat.pyfloat :=
  PyFloat.mk_float false (chars "155") 2.

(** A random stream whose every draw is the lowest value of its range. *)
Definition stuck_stream : Generator.stream := fun _ => 0%Z.

(** A random stream that draws the cells (1,2), (2,3), (3,4), ... *)
Definition climbing_stream : Generator.stream := fun i => Z.of_nat (i / 2).

(** The undirected graph 1 - 2 - 3, and 4 on its own. *)
Definition line_graph : gmap Z (list Z) :=
  {[ 1%Z := [2%Z]; 2%Z := [1%Z; 3%Z]; 3%Z := [2%Z]; 4%Z := [] ]}.

(** A model that answers every prompt. *)
Definition steady_model (prompt : list ascii) : res (list ascii) :=
  Ok (chars "The answer is 6").

(** The spatialeval composite score, standing for the score of the
    spatialops package; the harness keeps finite scores only. *)
Definition spatialops_score (a r e : Q) : res Q :=
  let! v := compute_spatialeval_score (PyNum.Fin a) (PyNum.Fin r)
                                      (PyNum.Fin e) default_weights in
  match v with
  | PyNum.Fin x => Ok x
  | _ => Raise OverflowError
  end.

(** A score function that never raises: the weighted sum in exact
    arithmetic. *)
Definition plain_score (a r e : Q) : res Q :=
  Ok (Spec.exact_weighted_sum a r e (0.5, 0.3, 0.2)%Q).

(** A 3 by 3 grid with a wall between the first and the last column,
    open in the last row. *)
Definition walled_grid : Generator.grid :=
  [[0; 1; 0]; [0; 1; 0]; [0; 0; 0]]%Z.

(** A random stream that draws the cells (1,1), (2,1), ..., (6,1),
    (1,2), (2,2), ... *)
Definition sweeping_stream : Generator.stream :=
  fun i => Z.of_nat (if Nat.odd i then i / 2 else (i / 2 - 1) / 6).

(** A data directory with one task file of two tasks. *)
Definition nav_files : files :=
  fun c d =>
    if (String.eqb c "navigation_pathfinding" && String.eqb d "easy")%bool
    then Some [mk_task "NP_easy_0001" (chars "first prompt") (GInt 4);
               mk_task "NP_easy_0002" (chars "second prompt") (GInt 6)]
    else None.

(** A data directory without any task file. *)
Definition no_files : files := fun _ _ => None.

(** What [load_dataset] returns for the navigation category of
    [nav_files]. *)
Definition two_tasks_loaded : dataset :=
  [("navigation_pathfinding"%string,
    [("easy"%string,
      [mk_task "NP_easy_0001" (chars "first prompt") (GInt 4);
       mk_task "NP_easy_0002" (chars "second prompt") (GInt 6)]);
     ("medium"%string, []); ("hard"%string, [])])].

End Inputs.
(** * Properties of the metrics *)

Module MetricsFacts.
Import PyStr PyNum Metrics Spec.

Open Scope Q_scope.

Ltac zcases :=
  repeat first
    [ case Z.leb_spec; intros; try lia
    | case Z.ltb_spec; intros; try lia ].

(** Rational goals over integer numerators, sent to [lia]. *)
Ltac qarith :=
  unfold Qeq, Qlt, Qle, Qminus, Qplus, Qopp, Qdiv, Qmult, Qinv, inject_Z in *;
  simpl in *; try lia.

Lemma py_min_le_r (a b : Q) : py_min a b <= b.
Proof.
  unfold py_min. destruct (Qlt_le_dec b a) as [H|H]; [apply Qle_refl | exact H].
Qed.

Lemma py_min_glb (c a b : Q) : c <= a -> c <= b -> c <= py_min a b.
Proof. intros Ha Hb. unfold py_min. destruct (Qlt_le_dec b a); assumption. Qed.

Lemma py_min_nonneg_count (n : nat) :
  0 <= py_min (inject_Z (Z.of_nat n) * 0.05) 0.3.
Proof.
  apply py_min_glb; [|discriminate].
  apply Qmult_le_0_compat; [|discriminate].
  change 0 with (inject_Z 0). rewrite <- Zle_Qle. lia.
Qed.

Lemma efficiency_of_word_count (w : Z) (response : list ascii) :
  word_count response = w ->
  compute_efficiency_score response == efficiency_closed_form w.
Proof.
  intros Hw. unfold compute_efficiency_score, efficiency_closed_form.
  rewrite Hw.
  destruct (Z.leb_spec 50 w) as [Ha|Ha], (Z.leb_spec w 200) as [Hb|Hb];
    simpl andb; cbv iota.
  - zcases. reflexivity.
  - case Z.ltb_spec; intros; try lia.
    unfold py_max. destruct Qlt_le_dec as [Hc|Hc]; zcases; qarith.
  - case Z.ltb_spec; intros; try lia.
    unfold py_max. destruct Qlt_le_dec as [Hc|Hc]; zcases; qarith.
  - lia.
Qed.

(** C1 (as the code has it).  For every response, the efficiency score is
    decided by the word count [w]: 1.0 for 50 <= w <= 200; below 50 it
    is max(0.5, w/50), that is 0.5 up to 25 words and w/50 from there;
    above 200 it is max(0.3, 1.0 - (w-200)/500), that is (700-w)/500 up
    to 550 words and 0.3 from there.  A 100-word response scores 1.0, a
    10-word response scores 0.5 and a 700-word response scores 0.3. *)
Theorem efficiency_score_by_word_count :
  (forall response : list ascii,
      compute_efficiency_score response
      == efficiency_closed_form (word_count response))
  /\ (word_count (words 100) = 100%Z
      /\ compute_efficiency_score (words 100) == 1.0)
  /\ (word_count (words 10) = 10%Z
      /\ compute_efficiency_score (words 10) == 0.5)
  /\ (word_count (words 700) = 700%Z
      /\ compute_efficiency_score (words 700) == 0.3).
Proof.
  split; [intros; now apply efficiency_of_word_count|].
  repeat split; vm_compute; congruence.
Qed.

(** C1, as stated, fails: a 10-word response scores 0.5, not
    0.5 + 10/50*0.5 = 0.6. *)
Lemma efficiency_ten_words_not_scaled :
  word_count (words 10) = 10%Z
  /\ compute_efficiency_score (words 10) == 0.5
  /\ ~ compute_efficiency_score (words 10) == 0.5 + 10 / 50 * 0.5.
Proof. repeat split; vm_compute; congruence. Qed.

Lemma round_half_even_close (x : Q) :
  Qabs (inject_Z (round_half_even x) - x) <= 1 # 2.
Proof.
  unfold round_half_even.
  pose proof (Qfloor_le x) as Hlo. pose proof (Qlt_floor x) as Hhi.
  set (f := Qfloor x) in *.
  rewrite inject_Z_plus in Hhi. change (inject_Z 1) with 1 in Hhi.
  apply Qabs_Qle_condition.
  destruct (Qcompare_spec (x - inject_Z f) (1 # 2)) as [He|Hl|Hg].
  - destruct (Z.even f); [lra|].
    rewrite inject_Z_plus. change (inject_Z 1) with 1. lra.
  - lra.
  - rewrite inject_Z_plus. change (inject_Z 1) with 1. lra.
Qed.

Lemma round_half_even_le (x : Q) (b : Z) :
  x <= inject_Z b -> (round_half_even x <= b)%Z.
Proof.
  intros Hb. unfold round_half_even.
  pose proof (Qfloor_le x) as Hfl.
  assert (Hfb : (Qfloor x <= b)%Z).
  { rewrite <- (Qfloor_Z b). now apply Qfloor_resp_le. }
  assert (Hup : 1 # 2 <= x - inject_Z (Qfloor x) -> (Qfloor x + 1 <= b)%Z).
  { intros Hd. destruct (Z.eq_dec (Qfloor x) b) as [E|E]; [|lia].
    rewrite E in Hd. lra. }
  destruct (Qcompare_spec (x - inject_Z (Qfloor x)) (1 # 2)) as [E|E|E].
  - destruct (Z.even (Qfloor x)); [lia|].
    apply Hup. rewrite E. lra.
  - lia.
  - apply Hup. lra.
Qed.

Lemma round_half_even_ge (x : Q) (a : Z) :
  inject_Z a <= x -> (a <= round_half_even x)%Z.
Proof.
  intros Ha. unfold round_half_even.
  assert (Haf : (a <= Qfloor x)%Z).
  { rewrite <- (Qfloor_Z a). now apply Qfloor_resp_le. }
  destruct (Qcompare (x - inject_Z (Qfloor x)) (1 # 2));
    [destruct (Z.even (Qfloor x))|..]; lia.
Qed.

(** *** binary64 *)

Lemma pow2_pos (e : Z) : 0 < 2 ^ e.
Proof. apply Qpower_0_lt. reflexivity. Qed.

Lemma pow2_add (a b : Z) : 2 ^ (a + b) == 2 ^ a * 2 ^ b.
Proof. apply Qpower_plus. discriminate. Qed.

Lemma pow2_inject (e : Z) : (0 <= e)%Z -> 2 ^ e == inject_Z (2 ^ e).
Proof. intros He. symmetry. apply (Zpower_Qpower 2 e He). Qed.

Lemma pow2_le (a b : Z) : (a <= b)%Z -> 2 ^ a <= 2 ^ b.
Proof.
  intros Hab. replace b with (a + (b - a))%Z by lia.
  rewrite pow2_add, (pow2_inject (b - a)) by lia.
  pose proof (pow2_pos a) as Ha.
  assert (H1 : 1 <= inject_Z (2 ^ (b - a))).
  { change 1 with (inject_Z 1). rewrite <- Zle_Qle.
    pose proof (Z.pow_pos_nonneg 2 (b - a)). lia. }
  rewrite <- (Qmult_1_r (2 ^ a)) at 1.
  apply Qmult_le_l; assumption.
Qed.

Lemma pow2_lt (a b : Z) : (a < b)%Z -> 2 ^ a < 2 ^ b.
Proof.
  intros Hab. apply Qlt_le_trans with (2 ^ (a + 1)); [|apply pow2_le; lia].
  rewrite pow2_add. change (2 ^ 1) with 2.
  pose proof (pow2_pos a). lra.
Qed.

(** The exponent found is not above the binade of [x]. *)
Lemma ilog2_lower (x : Q) : 0 < x -> 2 ^ ilog2 x <= x.
Proof.
  intros Hx. unfold ilog2.
  set (k := (Z.log2 (Qnum x) - Z.log2 (Z.pos (Qden x)))%Z).
  destruct (Qle_bool (2 ^ k) x) eqn:E; [now apply Qle_bool_iff|].
  clear E. destruct x as [n d]. cbn [Qnum Qden] in k.
  assert (Hn : (0 < n)%Z) by (revert Hx; qarith).
  destruct (Z.log2_spec n Hn) as [Hlo _].
  destruct (Z.log2_spec (Z.pos d) ltac:(lia)) as [_ Hhi].
  set (L := Z.log2 n) in *. set (M := Z.log2 (Z.pos d)) in *.
  assert (HL : (0 <= L)%Z) by apply Z.log2_nonneg.
  assert (HM : (0 <= M)%Z) by apply Z.log2_nonneg.
  rewrite <- Z.add_1_r in Hhi.
  assert (Hsplit : 2 ^ (k - 1) * 2 ^ (M + 1) == 2 ^ L).
  { rewrite <- pow2_add. now replace (k - 1 + (M + 1))%Z with L by lia. }
  pose proof (pow2_pos (M + 1)) as HP. pose proof (pow2_pos (k - 1)) as HK.
  assert (Hgoal : 2 ^ (k - 1) * 2 ^ (M + 1) <= (n # d) * 2 ^ (M + 1)).
  { rewrite Hsplit, (pow2_inject L HL), (pow2_inject (M + 1)) by lia.
    unfold Qle, Qmult, inject_Z. cbn [Qnum Qden].
    rewrite Pos.mul_1_r, !Z.mul_1_r.
    assert (0 < 2 ^ L)%Z by (apply Z.pow_pos_nonneg; lia). nia. }
  apply Qmult_le_r in Hgoal; assumption.
Qed.

Lemma Qabs_pos_eq (x : Q) : 0 < x -> Qabs x = x.
Proof.
  destruct x as [n d]. intros Hx. unfold Qabs.
  assert (Hn : (0 < n)%Z) by (revert Hx; qarith).
  now rewrite Z.abs_eq by lia.
Qed.

Lemma quantum_pos (x : Q) : 0 < quantum x.
Proof. apply pow2_pos. Qed.

(** The quantum of a number of magnitude at most 2^m. *)
Lemma quantum_le (x : Q) (m : Z) :
  ~ x == 0 -> Qabs x <= 2 ^ m -> (-1022 <= m)%Z ->
  quantum x <= 2 ^ (m - 52).
Proof.
  intros Hx Hm Hmin. unfold quantum. apply pow2_le.
  assert (Hpos : 0 < Qabs x).
  { destruct (Qlt_le_dec x 0) as [Hn|Hp].
    - rewrite Qabs_neg by lra. lra.
    - rewrite Qabs_pos by lra. apply Qle_lt_or_eq in Hp as [Hp|Hp];
        [exact Hp|]. exfalso. apply Hx. now symmetry. }
  pose proof (ilog2_lower (Qabs x) Hpos) as Hlo.
  destruct (Z_le_gt_dec (ilog2 (Qabs x)) m) as [Hle|Hgt]; [lia|].
  exfalso. pose proof (pow2_lt m (ilog2 (Qabs x)) ltac:(lia)). lra.
Qed.

(** Rounding moves a number by at most half a quantum. *)
Lemma nearest_error (x : Q) : Qabs (nearest x - x) <= quantum x * (1 # 2).
Proof.
  pose proof (quantum_pos x) as Hq. unfold nearest.
  destruct (Qeq_bool x 0) eqn:E.
  - apply Qeq_bool_iff in E. apply Qabs_Qle_condition. lra.
  - pose proof (round_half_even_close (x / quantum x)) as H.
    apply Qabs_Qle_condition in H. apply Qabs_Qle_condition.
    set (r := inject_Z (round_half_even (x / quantum x))) in *.
    set (q := quantum x) in *.
    assert (Hy : x / q * q == x) by (field; lra).
    set (y := x / q) in *. destruct H as [H1 H2].
    assert (Ha : (r - y + (1 # 2)) * q >= 0)
      by (apply Qmult_le_0_compat; lra).
    assert (Hb : ((1 # 2) - (r - y)) * q >= 0)
      by (apply Qmult_le_0_compat; lra).
    split; lra.
Qed.

(** Up to magnitude 512 rounding moves a number by at most 2^-44 and
    does not overflow. *)
Lemma nearest_close (x : Q) :
  Qabs x <= 512 -> Qabs (nearest x - x) <= 2 ^ (-44).
Proof.
  intros Hx. destruct (Qeq_dec x 0) as [E|E].
  - unfold nearest. apply Qeq_bool_iff in E. rewrite E.
    apply Qeq_bool_iff in E. apply Qabs_Qle_condition.
    change (2 ^ (-44)) with (1 # 17592186044416). lra.
  - pose proof (nearest_error x) as Herr.
    pose proof (quantum_le x 9 E Hx ltac:(lia)) as Hq.
    change (2 ^ (9 - 52)) with (1 # 8796093022208) in Hq.
    change (2 ^ (-44)) with (1 # 17592186044416).
    apply Qabs_Qle_condition in Herr. apply Qabs_Qle_condition. lra.
Qed.

Lemma b64_fin (x : Q) : Qabs x <= 512 -> b64 x = Fin (nearest x).
Proof.
  intros Hx. unfold b64.
  destruct (Qle_bool (2 ^ 1024) (Qabs (nearest x))) eqn:E; [|reflexivity].
  exfalso. apply Qle_bool_iff in E.
  pose proof (nearest_close x Hx) as Hc.
  change (2 ^ (-44)) with (1 # 17592186044416) in Hc.
  pose proof (pow2_le 10 1024 ltac:(lia)) as Hp.
  change (2 ^ 10) with 1024 in Hp.
  set (big := 2 ^ 1024) in *. clearbody big.
  apply Qabs_Qle_condition in Hc, Hx.
  revert E. set (y := nearest x) in *. clearbody y.
  intros E. destruct (Qlt_le_dec y 0) as [Hy|Hy].
  - rewrite Qabs_neg in E by lra. lra.
  - rewrite Qabs_pos in E by lra. lra.
Qed.

Lemma nearest_nonneg (x : Q) : 0 <= x -> 0 <= nearest x.
Proof.
  intros Hx. unfold nearest. destruct (Qeq_bool x 0); [lra|].
  pose proof (quantum_pos x) as Hq.
  apply Qmult_le_0_compat; [|lra].
  change 0 with (inject_Z 0). rewrite <- Zle_Qle.
  apply round_half_even_ge. change (inject_Z 0) with 0.
  apply Qle_shift_div_l; lra.
Qed.

(** Rounding does not cross an integer up to 2^52. *)
Lemma nearest_le_Z (x : Q) (N : Z) :
  0 <= x -> x <= inject_Z N -> (N <= 2 ^ 52)%Z -> nearest x <= inject_Z N.
Proof.
  intros H0 HN Hbig. unfold nearest.
  destruct (Qeq_bool x 0) eqn:E; [lra|].
  assert (Hx : 0 < x).
  { apply Qle_lt_or_eq in H0 as [H0|H0]; [exact H0|].
    symmetry in H0. apply Qeq_bool_iff in H0. congruence. }
  pose proof (quantum_pos x) as Hq. unfold quantum in *.
  rewrite (Qabs_pos_eq x Hx) in *.
  pose proof (ilog2_lower x Hx) as Hlo.
  assert (He : (ilog2 x <= 52)%Z).
  { destruct (Z_le_gt_dec (ilog2 x) 52) as [Hle|Hgt]; [exact Hle|].
    exfalso. pose proof (pow2_lt 52 (ilog2 x) ltac:(lia)) as Hlt.
    rewrite (pow2_inject 52) in Hlt by lia.
    assert (inject_Z N <= inject_Z (2 ^ 52)) by now rewrite <- Zle_Qle.
    lra. }
  set (j := (Z.max (ilog2 x) (-1022) - 52)%Z) in *.
  assert (Hj : (j <= 0)%Z) by lia.
  assert (Hinv : 2 ^ j * inject_Z (2 ^ (- j)) == 1).
  { rewrite <- (pow2_inject (- j)) by lia. rewrite <- pow2_add.
    now replace (j + - j)%Z with 0%Z by lia. }
  assert (Hr : (round_half_even (x / 2 ^ j) <= N * 2 ^ (- j))%Z).
  { apply round_half_even_le. rewrite inject_Z_mult.
    apply Qle_shift_div_r; [exact Hq|].
    assert (Hm : inject_Z N * inject_Z (2 ^ (- j)) * 2 ^ j == inject_Z N).
    { rewrite <- Qmult_assoc, (Qmult_comm (inject_Z (2 ^ (- j)))), Hinv.
      ring. }
    rewrite Hm. exact HN. }
  rewrite Zle_Qle, inject_Z_mult in Hr.
  set (r := inject_Z (round_half_even (x / 2 ^ j))) in *.
  assert (Hm : r * 2 ^ j <= inject_Z N * inject_Z (2 ^ (- j)) * 2 ^ j).
  { apply Qmult_le_compat_r; [exact Hr | lra]. }
  rewrite <- Qmult_assoc, (Qmult_comm (inject_Z (2 ^ (- j)))), Hinv in Hm.
  lra.
Qed.

(** A product or a sum of magnitude at most 512 is finite, not negative
    when the exact result is not, and within 2^-44 of it. *)
Lemma b64_close (x : Q) :
  Qabs x <= 512 ->
  exists y, b64 x = Fin y /\ Qabs (y - x) <= 1 # 17592186044416
            /\ (0 <= x -> 0 <= y).
Proof.
  intros Hx. exists (nearest x). split; [now apply b64_fin|].
  split; [|apply nearest_nonneg].
  pose proof (nearest_close x Hx) as H.
  now change (2 ^ (-44)) with (1 # 17592186044416) in H.
Qed.

(** [round(x, 2)] of a finite float: the two-decimal number nearest to
    it, as a float. *)
Lemma round2_two_decimals (s : Q) :
  exists n : Z,
    round2 (Fin s) = b64 (inject_Z n / 100)
    /\ Qabs (inject_Z n / 100 - s) <= 1 # 200.
Proof.
  exists (round_half_even (s * 100)). split; [reflexivity|].
  pose proof (round_half_even_close (s * 100)) as H.
  apply Qabs_Qle_condition in H. apply Qabs_Qle_condition.
  set (n := inject_Z (round_half_even (s * 100))) in *.
  unfold Qdiv. change (/ 100) with (1 # 100). lra.
Qed.

(** The weighted sum of components and weights in [0, 1]: every
    operation is finite, and the float is within 501 * 2^-44 of the
    exact value. *)
Lemma weighted_sum_close (a r e w1 w2 w3 : Q) :
  0 <= a <= 1 -> 0 <= r <= 1 -> 0 <= e <= 1 ->
  0 <= w1 <= 1 -> 0 <= w2 <= 1 -> 0 <= w3 <= 1 ->
  exists t,
    weighted_sum (Fin a) (Fin r) (Fin e) (Fin w1, Fin w2, Fin w3) = Fin t
    /\ 0 <= t
    /\ Qabs (t - exact_weighted_sum a r e (w1, w2, w3))
       <= 501 # 17592186044416.
Proof.
  intros [Ha0 Ha1] [Hr0 Hr1] [He0 He1] [Hu0 Hu1] [Hv0 Hv1] [Hw0 Hw1].
  unfold weighted_sum, exact_weighted_sum. cbn [fst snd fmul].
  pose proof (Qmult_le_0_compat _ _ Ha0 Hu0) as Hp1.
  pose proof (Qmult_le_0_compat _ _ Hr0 Hv0) as Hp2.
  pose proof (Qmult_le_0_compat _ _ He0 Hw0) as Hp3.
  assert (Hq1 : a * w1 <= 1 * w1) by now apply Qmult_le_compat_r.
  assert (Hq2 : r * w2 <= 1 * w2) by now apply Qmult_le_compat_r.
  assert (Hq3 : e * w3 <= 1 * w3) by now apply Qmult_le_compat_r.
  destruct (b64_close (a * w1)) as (p1 & -> & E1 & N1);
    [apply Qabs_Qle_condition; lra|].
  destruct (b64_close (r * w2)) as (p2 & -> & E2 & N2);
    [apply Qabs_Qle_condition; lra|].
  destruct (b64_close (e * w3)) as (p3 & -> & E3 & N3);
    [apply Qabs_Qle_condition; lra|].
  specialize (N1 Hp1). specialize (N2 Hp2). specialize (N3 Hp3).
  apply Qabs_Qle_condition in E1, E2, E3.
  cbn [fadd].
  destruct (b64_close (p1 + p2)) as (s1 & -> & E4 & N4);
    [apply Qabs_Qle_condition; lra|].
  specialize (N4 ltac:(lra)). apply Qabs_Qle_condition in E4.
  cbn [fadd].
  destruct (b64_close (s1 + p3)) as (s2 & -> & E5 & N5);
    [apply Qabs_Qle_condition; lra|].
  specialize (N5 ltac:(lra)). apply Qabs_Qle_condition in E5.
  cbn [fmul].
  destruct (b64_close (s2 * 100)) as (t & -> & E6 & N6);
    [apply Qabs_Qle_condition; lra|].
  specialize (N6 ltac:(lra)). apply Qabs_Qle_condition in E6.
  exists t. split; [reflexivity|]. split; [exact N6|].
  apply Qabs_Qle_condition. lra.
Qed.

(** [round(t, 2)] of a float in [0, 400]: finite, not negative, within
    0.005 + 2^-44 of [t], and at most 100 when [t] exceeds 100 by less
    than a thousandth. *)
Lemma round2_close (t : Q) :
  0 <= t <= 400 ->
  exists v,
    round2 (Fin t) = Fin v
    /\ 0 <= v
    /\ Qabs (v - t) <= (1 # 200) + (1 # 17592186044416)
    /\ (t <= 100 + (1 # 1000) -> v <= 100).
Proof.
  intros [Ht0 Ht1]. unfold round2.
  pose proof (round_half_even_close (t * 100)) as Hc.
  apply Qabs_Qle_condition in Hc.
  assert (Hn0 : (0 <= round_half_even (t * 100))%Z).
  { apply round_half_even_ge. change (inject_Z 0) with 0. lra. }
  rewrite Zle_Qle in Hn0. change (inject_Z 0) with 0 in Hn0.
  assert (Hup : t <= 100 + (1 # 1000) ->
                inject_Z (round_half_even (t * 100)) <= 10000).
  { intros Ht. change 10000 with (inject_Z 10000). rewrite <- Zle_Qle.
    apply Z.lt_succ_r. rewrite Zlt_Qlt. change (inject_Z (Z.succ 10000))
      with 10001. lra. }
  set (n := inject_Z (round_half_even (t * 100))) in *. clearbody n.
  assert (Hdiv : n / 100 == n * (1 # 100)) by reflexivity.
  assert (Hsmall : Qabs (n / 100) <= 512)
    by (apply Qabs_Qle_condition; lra).
  exists (nearest (n / 100)). split; [now apply b64_fin|].
  split; [apply nearest_nonneg; lra|].
  pose proof (nearest_close _ Hsmall) as He.
  change (2 ^ (-44)) with (1 # 17592186044416) in He.
  apply Qabs_Qle_condition in He.
  split; [apply Qabs_Qle_condition; lra|].
  intros Ht. specialize (Hup Ht).
  change 100 with (inject_Z 100) at 2.
  apply nearest_le_Z; [lra| |lia]. change (inject_Z 100) with 100. lra.
Qed.

(** C2 (as the code has it).  The composite score validates nothing: for
    float components and every triple of float weights, whatever its
    sum, it returns without raising.
    The value is the binary64 result of (accuracy*w_acc +
    reasoning*w_reas + efficiency*w_eff) * 100 passed through
    [round(., 2)]: when that float is finite, the float nearest to a
    two-decimal number n/100 within 0.005 of it, and an infinite or
    undefined float is returned as it is.
    For components and weights in [0, 1] the value is finite and within
    0.005 + 1e-10 of the exact weighted sum.  Under the default weights
    (0.5, 0.3, 0.2) it gives 100.0 on (1,1,1) and 0.0 on (0,0,0); on
    (0, 0.5625, 0.625) it gives 29.37, the exact sum being 29.375, and
    on (0.5035, 0.965, 0.583) it gives 65.79, the exact sum being
    65.785. *)
Theorem composite_score_total :
  (forall (accuracy reasoning efficiency : float64)
          (weights : float64 * float64 * float64),
      exists v : float64,
        compute_spatialeval_score accuracy reasoning efficiency weights = Ok v
        /\ match weighted_sum accuracy reasoning efficiency weights with
           | Fin s =>
               exists n : Z,
                 v = b64 (inject_Z n / 100)
                 /\ Qabs (inject_Z n / 100 - s) <= 1 # 200
           | s => v = s
           end)
  /\ (forall a r e w_acc w_reas w_eff : Q,
         0 <= a <= 1 -> 0 <= r <= 1 -> 0 <= e <= 1 ->
         0 <= w_acc <= 1 -> 0 <= w_reas <= 1 -> 0 <= w_eff <= 1 ->
         exists v : Q,
           compute_spatialeval_score (Fin a) (Fin r) (Fin e)
             (Fin w_acc, Fin w_reas, Fin w_eff) = Ok (Fin v)
           /\ Qabs (v - exact_weighted_sum a r e (w_acc, w_reas, w_eff))
              <= (1 # 200) + (1 # 10000000000))
  /\ (exists v, compute_spatialeval_score (Fin 1) (Fin 1) (Fin 1)
                  default_weights = Ok (Fin v)
                /\ v == 100)
  /\ (exists v, compute_spatialeval_score (Fin 0) (Fin 0) (Fin 0)
                  default_weights = Ok (Fin v)
                /\ v == 0)
  /\ compute_spatialeval_score (Fin 0) (Fin 0.5625) (Fin 0.625)
       default_weights = Ok (b64 29.37)
  /\ exact_weighted_sum 0 0.5625 0.625 (0.5, 0.3, 0.2) == 29.375
  /\ compute_spatialeval_score (b64 0.5035) (b64 0.965) (b64 0.583)
       default_weights = Ok (b64 65.79)
  /\ exact_weighted_sum 0.5035 0.965 0.583 (0.5, 0.3, 0.2) == 65.785.
Proof.
  split; [|split].
  - intros a r e [[w1 w2] w3]. eexists. split; [reflexivity|].
    change (fmul (fadd (fadd (fmul a w1) (fmul r w2)) (fmul e w3)) (Fin 100))
      with (weighted_sum a r e (w1, w2, w3)).
    destruct (weighted_sum a r e (w1, w2, w3)) as [s| | | ]; try reflexivity.
    apply round2_two_decimals.
  - intros a r e w1 w2 w3 Ha Hr He H1 H2 H3.
    destruct (weighted_sum_close a r e w1 w2 w3 Ha Hr He H1 H2 H3)
      as (t & Ht & Ht0 & Hte).
    apply Qabs_Qle_condition in Hte.
    assert (Hex : 0 <= exact_weighted_sum a r e (w1, w2, w3) <= 300).
    { unfold exact_weighted_sum. cbn [fst snd].
      destruct Ha as [Ha0 Ha1], Hr as [Hr0 Hr1], He as [He0 He1],
        H1 as [Hu0 Hu1], H2 as [Hv0 Hv1], H3 as [Hw0 Hw1].
      pose proof (Qmult_le_0_compat _ _ Ha0 Hu0).
      pose proof (Qmult_le_0_compat _ _ Hr0 Hv0).
      pose proof (Qmult_le_0_compat _ _ He0 Hw0).
      assert (a * w1 <= 1 * w1) by now apply Qmult_le_compat_r.
      assert (r * w2 <= 1 * w2) by now apply Qmult_le_compat_r.
      assert (e * w3 <= 1 * w3) by now apply Qmult_le_compat_r.
      split; lra. }
    destruct (round2_close t ltac:(split; lra)) as (v & Hv & _ & Hvt & _).
    apply Qabs_Qle_condition in Hvt.
    exists v. split.
    + unfold compute_spatialeval_score. unfold weighted_sum in Ht.
      cbn [fst snd] in Ht. now rewrite Ht, Hv.
    + apply Qabs_Qle_condition. lra.
  - split; [|split; [|split; [|split; [|split]]]].
    + eexists. split; [vm_compute; reflexivity | vm_compute; congruence].
    + eexists. split; [vm_compute; reflexivity | vm_compute; congruence].
    + vm_compute. reflexivity.
    + vm_compute. reflexivity.
    + vm_compute. reflexivity.
    + vm_compute. reflexivity.
Qed.

(** C2, as stated, fails: the weights (1, 1, 1) do not sum to 1.0 and
    the call returns 300.0 instead of raising. *)
Lemma composite_score_accepts_bad_weights :
  ~ (1 + 1 + 1 == 1)
  /\ ~ raises (compute_spatialeval_score (Fin 1) (Fin 1) (Fin 1)
                 (Fin 1, Fin 1, Fin 1))
  /\ exists v,
       compute_spatialeval_score (Fin 1) (Fin 1) (Fin 1)
         (Fin 1, Fin 1, Fin 1) = Ok (Fin v)
       /\ v == 300.
Proof.
  split; [vm_compute; congruence|]. split; [simpl; tauto|].
  eexists. split; [vm_compute; reflexivity | vm_compute; congruence].
Qed.

(** C10.  For every response, the empty one included, the reasoning
    score lies in [0.5, 1.0]. *)
Theorem reasoning_score_bounds (response : list ascii) :
  0.5 <= compute_reasoning_score response
  /\ compute_reasoning_score response <= 1.0.
Proof.
  unfold compute_reasoning_score. split; [|apply py_min_le_r].
  apply py_min_glb; [|discriminate].
  pose proof (py_min_nonneg_count (indicator_count (lower response))) as Hc.
  set (b := py_min _ 0.3) in *.
  destruct (PyRe.search_arithmetic response),
    (PyRe.search_marker (lower response)); lra.
Qed.

End MetricsFacts.

(** * Properties of the dataset loader *)

Module DataFacts.
Import Data Spec Inputs.

#[local] Arguments mem : simpl never.

Lemma dict_get_set_eq {V : Type} (k : string) (v : V) (d : list (string * V)) :
  dict_get k (dict_set k v d) = Some v.
Proof.
  induction d as [|[k' v'] d IH]; simpl.
  - now rewrite String.eqb_refl.
  - destruct (String.eqb k k') eqn:E; simpl.
    + now rewrite String.eqb_refl.
    + now rewrite E.
Qed.

Lemma dict_get_set_ne {V : Type} (k k0 : string) (v : V)
  (d : list (string * V)) :
  k0 <> k -> dict_get k0 (dict_set k v d) = dict_get k0 d.
Proof.
  intros Hne. induction d as [|[k' v'] d IH]; simpl.
  - destruct (String.eqb_spec k0 k); [contradiction | reflexivity].
  - destruct (String.eqb_spec k k') as [->|Hk]; simpl.
    + destruct (String.eqb_spec k0 k'); [contradiction | reflexivity].
    + now rewrite IH.
Qed.

Lemma mem_In (x : string) (l : list string) : mem x l = true <-> In x l.
Proof.
  unfold mem. rewrite existsb_exists. split.
  - intros (y & Hy & E). apply String.eqb_eq in E. now subst.
  - intros H. exists x. split; [exact H | apply String.eqb_refl].
Qed.

Section LoadFacts.
Variable CATEGORIES : list string.
Variable data_dir : files.

Lemma load_difficulties_ok (category : string) (difficulties : list string) :
  forallb (fun d => mem d DIFFICULTIES) difficulties = true ->
  forall entry, exists entry',
    load_difficulties data_dir category difficulties entry = Ok entry'
    /\ forall d, dict_get d entry' =
                 if mem d difficulties then Some (stored data_dir category d)
                 else dict_get d entry.
Proof.
  induction difficulties as [|d0 ds IH]; intros Hall entry; simpl.
  - exists entry. split; [reflexivity | intros d; reflexivity].
  - simpl in Hall. apply andb_true_iff in Hall as [H0 Hds].
    rewrite H0. simpl.
    destruct (IH Hds (dict_set d0
                (match data_dir category d0 with Some ts => ts | None => [] end)
                entry)) as (entry' & Hload & Hget).
    exists entry'. split; [exact Hload|].
    intros d. rewrite Hget. unfold mem at 2. simpl.
    fold (mem d ds). destruct (mem d ds); [now rewrite orb_true_r|].
    rewrite orb_false_r. destruct (String.eqb_spec d d0) as [->|Hne].
    + rewrite dict_get_set_eq. unfold stored.
      now destruct (data_dir category d0).
    + now apply dict_get_set_ne.
Qed.

Lemma load_difficulties_raise (category : string)
  (difficulties : list string) :
  forallb (fun d => mem d DIFFICULTIES) difficulties = false ->
  forall entry, exists msg,
    load_difficulties data_dir category difficulties entry
    = Raise (ValueError msg).
Proof.
  induction difficulties as [|d0 ds IH]; intros Hall entry; simpl.
  - discriminate.
  - simpl in Hall. destruct (mem d0 DIFFICULTIES) eqn:E0; simpl.
    + apply IH. exact Hall.
    + eexists. reflexivity.
Qed.

Lemma load_categories_spec (categories difficulties : list string) :
  forall dataset0,
    match load_categories CATEGORIES data_dir categories difficulties dataset0
    with
    | Raise e =>
        (exists msg, e = ValueError msg)
        /\ load_rejects CATEGORIES categories difficulties = true
    | Ok ds =>
        load_rejects CATEGORIES categories difficulties = false
        /\ forall c d, In c categories -> In d difficulties ->
                       tasks_of ds c d = Some (stored data_dir c d)
    end
    /\ forall ds c,
         load_categories CATEGORIES data_dir categories difficulties dataset0
         = Ok ds ->
         ~ In c categories -> dict_get c ds = dict_get c dataset0.
Proof.
  induction categories as [|c0 cs IH]; intros dataset0.
  - simpl. repeat split; try tauto. intros ds c [= <-] _. reflexivity.
  - simpl load_categories. unfold load_rejects. simpl forallb.
    destruct (mem c0 CATEGORIES) eqn:Ec; simpl negb; cbv iota.
    2:{ simpl. split; [split; [eexists; reflexivity | reflexivity]|].
        intros ds c [=]. }
    destruct (forallb (fun d => mem d DIFFICULTIES) difficulties) eqn:Ed.
    2:{ destruct (load_difficulties_raise c0 difficulties Ed []) as [msg ->].
        simpl. split; [split; [eexists; reflexivity|]|intros ds c [=]].
        now rewrite orb_true_r. }
    destruct (load_difficulties_ok c0 difficulties Ed [])
      as (entry & -> & Hentry).
    simpl res_bind.
    specialize (IH (dict_set c0 entry dataset0)) as [IH1 IH2].
    unfold load_rejects in IH1. rewrite Ed in IH1.
    rewrite andb_true_l, andb_false_r, orb_false_r in *.
    destruct (load_categories CATEGORIES data_dir cs difficulties
                (dict_set c0 entry dataset0)) as [ds|e] eqn:El.
    + destruct IH1 as [Hrej Hcont]. split.
      * split; [exact Hrej|].
        intros c d [<-|Hc] Hd.
        -- destruct (in_dec String.string_dec c0 cs) as [Hin|Hnin];
             [now apply Hcont|].
           unfold tasks_of. rewrite (IH2 ds c0 eq_refl Hnin).
           rewrite dict_get_set_eq, Hentry.
           apply mem_In in Hd. now rewrite Hd.
        -- now apply Hcont.
      * intros ds' c [= <-] Hnin.
        rewrite (IH2 ds c eq_refl); [|intros H; apply Hnin; now right].
        apply dict_get_set_ne. intros ->. apply Hnin. now left.
    + destruct IH1 as [Hmsg Hrej]. split; [|intros ds c [=]].
      split; [exact Hmsg | exact Hrej].
Qed.

End LoadFacts.

(** C9 (as the code has it).  The loader checks a category when it
    reaches it and a difficulty when it loads it for a category.  It
    raises a ValueError exactly when some requested category is unknown,
    or at least one category is requested and some requested difficulty
    is outside easy, medium, hard.  Otherwise it raises nothing and
    stores, for every requested category and difficulty, the tasks of the
    file, or the empty list when the file is missing.  The same holds for
    the loader the evaluator calls when it is constructed. *)
Theorem load_dataset_validation (data_dir : files)
  (categories difficulties : option (list string)) :
  let ds := default DIFFICULTIES difficulties in
  (let cs := default SpatialEval.CATEGORIES categories in
   match SpatialEval.load_dataset data_dir categories difficulties with
   | Raise e =>
       (exists msg, e = ValueError msg)
       /\ load_rejects SpatialEval.CATEGORIES cs ds = true
   | Ok dataset =>
       load_rejects SpatialEval.CATEGORIES cs ds = false
       /\ forall c d, In c cs -> In d ds ->
                      tasks_of dataset c d = Some (stored data_dir c d)
   end)
  /\ (let cs := default SpatialOps.CATEGORIES categories in
      match Harness.Evaluator_init data_dir categories difficulties with
      | Raise e =>
          (exists msg, e = ValueError msg)
          /\ load_rejects SpatialOps.CATEGORIES cs ds = true
      | Ok dataset =>
          load_rejects SpatialOps.CATEGORIES cs ds = false
          /\ forall c d, In c cs -> In d ds ->
                         tasks_of dataset c d = Some (stored data_dir c d)
      end).
Proof.
  split.
  - apply (proj1 (load_categories_spec SpatialEval.CATEGORIES data_dir _ _ [])).
  - unfold Harness.Evaluator_init, SpatialOps.load_dataset, res_bind.
    destruct categories;
      apply (proj1 (load_categories_spec SpatialOps.CATEGORIES data_dir
                                         _ _ [])).
Qed.

Lemma load_dataset_validation_witness :
  tasks_of
    (match SpatialEval.load_dataset one_file (Some ["real_estate"%string])
             None with
     | Ok dataset => dataset
     | Raise _ => []
     end) "real_estate" "hard" = Some [].
Proof.
  pose proof (load_dataset_validation one_file (Some ["real_estate"%string])
                None) as [H _].
  simpl in H. destruct H as [_ H].
  apply (H "real_estate"%string "hard"%string); simpl; tauto.
Defined.

(** C9, as stated, fails: with no category to load, an unknown
    difficulty is never looked at and the loader returns the empty
    dataset. *)
Lemma load_dataset_unknown_difficulty_accepted :
  mem "impossible" DIFFICULTIES = false
  /\ SpatialEval.load_dataset one_file (Some []) (Some ["impossible"%string])
     = Ok []
  /\ Harness.Evaluator_init one_file (Some []) (Some ["impossible"%string])
     = Ok [].
Proof. repeat split. Qed.

End DataFacts.

(** * Properties of the evaluation harness *)

Module HarnessFacts.
Import Data Harness Inputs.

Section RunFacts.
Variable model_fn : list ascii -> res (list ascii).
Variable compute_accuracy : list ascii -> Metrics.gtvalue -> res Q.
Variable compute_reasoning_score : list ascii -> Q.
Variable compute_efficiency_score : list ascii -> Q.
Variable compute_spatialops_score : Q -> Q -> Q -> res Q.

#[local] Abbreviation evaluate_task :=
  (evaluate_task model_fn compute_accuracy compute_reasoning_score
                 compute_efficiency_score).
#[local] Abbreviation run_loop :=
  (run_loop model_fn compute_accuracy compute_reasoning_score
            compute_efficiency_score).
#[local] Abbreviation run :=
  (run model_fn compute_accuracy compute_reasoning_score
       compute_efficiency_score compute_spatialops_score).

Lemma run_loop_app (before after : list (string * string * task)) :
  forall results,
    run_loop (before ++ after) results =
    match run_loop before results with
    | (results', Ok _) => run_loop after results'
    | (results', Raise e) => (results', Raise e)
    end.
Proof.
  induction before as [|item before IH]; intros results; simpl.
  - reflexivity.
  - destruct (evaluate_task item); [apply IH | reflexivity].
Qed.

Lemma run_loop_length (tasks : list (string * string * task)) :
  forall results results' u,
    run_loop tasks results = (results', Ok u) ->
    length results' = (length results + length tasks)%nat.
Proof.
  induction tasks as [|item tasks IH]; intros results results' u; simpl.
  - intros [= <- _]. lia.
  - destruct (evaluate_task item) as [r|e]; [|discriminate].
    intros H. apply IH in H. rewrite length_app in H. simpl in H. lia.
Qed.

Lemma evaluate_task_model_raises (item : string * string * task) (e : pyexn) :
  model_fn (prompt item.2) = Raise e -> evaluate_task item = Raise e.
Proof.
  destruct item as [[category difficulty] t]. simpl. intros ->. reflexivity.
Qed.

(** C3 (as the code has it).  The evaluation loop has no handler around
    the model call.  If the model callable raises on the prompt of a
    task, the exception leaves [run]: the run stops at that task, no
    result is recorded for it, the tasks after it are not evaluated, no
    scores are returned, and [self.results] holds exactly the results of
    the tasks before it. *)
Theorem run_aborts_when_model_raises
  (dataset : dataset) (max_tasks : option Z)
  (before after : list (string * string * task))
  (item : string * string * task) (results : list result) (e : pyexn) :
  selected_tasks dataset max_tasks = before ++ item :: after ->
  run_loop before [] = (results, Ok tt) ->
  model_fn (prompt item.2) = Raise e ->
  run dataset max_tasks = (results, Raise e)
  /\ length results = length before.
Proof.
  intros Hsel Hbefore Hraise. split.
  - unfold Harness.run. rewrite Hsel, run_loop_app, Hbefore. simpl.
    now rewrite (evaluate_task_model_raises item e Hraise).
  - apply run_loop_length in Hbefore. exact Hbefore.
Qed.

End RunFacts.

Lemma run_aborts_when_model_raises_witness :
  run failing_model Metrics.compute_accuracy Metrics.compute_reasoning_score
      Metrics.compute_efficiency_score spatialops_score two_tasks None
  = ([], Raise (ModelError "connection reset"))
  /\ length ([] : list result) = 0%nat.
Proof.
  apply (run_aborts_when_model_raises failing_model Metrics.compute_accuracy
           Metrics.compute_reasoning_score Metrics.compute_efficiency_score
           spatialops_score two_tasks None []
           [("navigation_pathfinding"%string, "easy"%string,
             mk_task "NP_easy_0002" (PyStr.chars "second prompt")
                     (Metrics.GInt 6))]
           ("navigation_pathfinding"%string, "easy"%string,
            mk_task "NP_easy_0001" (PyStr.chars "first prompt")
                    (Metrics.GInt 4))
           [] (ModelError "connection reset")); reflexivity.
Defined.

(** C3, as stated, fails: when the model raises on the first of two
    tasks, the run ends with that exception; no zero-accuracy result is
    recorded and the second task, on which the model answers, is never
    evaluated. *)
Lemma run_does_not_catch_model_failure :
  length (selected_tasks two_tasks None) = 2%nat
  /\ run failing_model Metrics.compute_accuracy
         Metrics.compute_reasoning_score Metrics.compute_efficiency_score
         spatialops_score two_tasks None
     = ([], Raise (ModelError "connection reset")).
Proof. split; reflexivity. Qed.

End HarnessFacts.

Module NumberText.
Import PyStr PyRe PyFloat PyNum Metrics Spec.

Open Scope Z_scope.

Lemma digits_val_fold (ds : list ascii) : digits_val ds = fold_left step ds 0.
Proof. reflexivity. Qed.

Lemma is_digit_range (c : ascii) :
  is_digit c = true -> 0 <= digit_val c <= 9.
Proof.
  unfold is_digit, digit_val. intros H.
  apply andb_true_iff in H as [H1 H2].
  apply Nat.leb_le in H1, H2. lia.
Qed.

Lemma digit_char_spec (d : nat) :
  (d < 10)%nat ->
  is_digit (digit_char d) = true /\ digit_val (digit_char d) = Z.of_nat d.
Proof.
  intros Hd. unfold is_digit, digit_val, digit_char, code.
  rewrite nat_ascii_embedding by lia. split; [|lia].
  apply andb_true_iff. split; apply Nat.leb_le; lia.
Qed.

Lemma fold_step_shift (b : list ascii) :
  forall x, fold_left step b x
            = x * 10 ^ Z.of_nat (length b) + digits_val b.
Proof.
  induction b as [|c b IH]; intros x.
  - unfold digits_val. simpl. lia.
  - rewrite digits_val_fold. simpl fold_left. rewrite (IH (step x c)).
    rewrite (IH (step 0 c)). unfold step.
    replace (Z.of_nat (length (c :: b))) with (Z.of_nat (length b) + 1)
      by (simpl; lia).
    rewrite Z.pow_add_r by lia. lia.
Qed.

Lemma digits_val_app (a b : list ascii) :
  digits_val (a ++ b)
  = digits_val a * 10 ^ Z.of_nat (length b) + digits_val b.
Proof.
  rewrite digits_val_fold, fold_left_app, <- digits_val_fold.
  apply fold_step_shift.
Qed.

Lemma digits_val_cons (c : ascii) (b : list ascii) :
  digits_val (c :: b) = digit_val c * 10 ^ Z.of_nat (length b) + digits_val b.
Proof. apply (digits_val_app [c] b). Qed.

Lemma all_digits_cons (c : ascii) (ds : list ascii) :
  all_digits (c :: ds) <-> is_digit c = true /\ all_digits ds.
Proof. unfold all_digits. simpl. apply andb_true_iff. Qed.

Lemma all_digits_app (a b : list ascii) :
  all_digits (a ++ b) <-> all_digits a /\ all_digits b.
Proof. unfold all_digits. rewrite forallb_app. apply andb_true_iff. Qed.

Lemma digits_val_bounds (ds : list ascii) :
  all_digits ds -> 0 <= digits_val ds < 10 ^ Z.of_nat (length ds).
Proof.
  induction ds as [|c ds IH]; intros H.
  - unfold digits_val. simpl. lia.
  - apply all_digits_cons in H as [Hc Hds].
    rewrite digits_val_cons.
    replace (Z.of_nat (length (c :: ds))) with (Z.of_nat (length ds) + 1)
      by (simpl; lia).
    rewrite Z.pow_add_r by lia.
    pose proof (is_digit_range c Hc). specialize (IH Hds). nia.
Qed.

Lemma zeros_all_digits (k : nat) : all_digits (zeros k).
Proof. induction k; [reflexivity | now apply all_digits_cons]. Qed.

Lemma digits_val_zeros (k : nat) : digits_val (zeros k) = 0.
Proof.
  induction k as [|k IH]; [reflexivity|].
  change (zeros (S k)) with ("0"%char :: zeros k).
  rewrite digits_val_cons, IH. reflexivity.
Qed.

Lemma length_zeros (k : nat) : length (zeros k) = k.
Proof. apply repeat_length. Qed.

Lemma nat_digits_all_digits (fuel : nat) :
  forall n acc, all_digits acc -> all_digits (nat_digits fuel n acc).
Proof.
  induction fuel as [|fuel IH]; intros n acc Hacc; simpl; [exact Hacc|].
  assert (Hd : all_digits (digit_char (N.to_nat (n mod 10)) :: acc)).
  { apply all_digits_cons. split; [|exact Hacc].
    apply digit_char_spec. pose proof (N.mod_lt n 10). lia. }
  destruct (n / 10 =? 0)%N; [exact Hd | now apply IH].
Qed.

Lemma nat_digits_nonempty (fuel : nat) :
  forall n acc, (fuel <> 0%nat \/ acc <> []) -> nat_digits fuel n acc <> [].
Proof.
  induction fuel as [|fuel IH]; intros n acc H; simpl.
  - destruct H; [contradiction | assumption].
  - destruct (n / 10 =? 0)%N; [discriminate|]. apply IH. right. discriminate.
Qed.

Lemma nat_digits_val (fuel : nat) :
  forall n acc,
    (n < 2 ^ N.of_nat fuel)%N ->
    digits_val (nat_digits fuel n acc) = fold_left step acc (Z.of_N n).
Proof.
  induction fuel as [|fuel IH]; intros n acc Hn.
  - simpl in *. assert (n = 0%N) by lia. subst. reflexivity.
  - simpl nat_digits.
    assert (Hmod : (n mod 10 < 10)%N) by (apply N.mod_lt; lia).
    destruct (digit_char_spec (N.to_nat (n mod 10))) as [_ Hv]; [lia|].
    assert (Hsplit : Z.of_N n = 10 * Z.of_N (n / 10) + Z.of_N (n mod 10)).
    { pose proof (N.div_mod n 10). lia. }
    destruct (N.eqb_spec (n / 10) 0) as [Hz|Hnz].
    + rewrite digits_val_fold. simpl fold_left. unfold step at 2.
      rewrite Hv, Hsplit, Hz. f_equal. lia.
    + rewrite IH.
      * simpl fold_left. unfold step at 2. rewrite Hv, Hsplit. f_equal. lia.
      * apply N.Div0.div_lt_upper_bound.
        replace (N.of_nat (S fuel)) with (N.succ (N.of_nat fuel)) in Hn by lia.
        rewrite N.pow_succ_r' in Hn. lia.
Qed.

Lemma str_int_text (z : Z) :
  exists ds,
    str_int z = number_text (z <? 0) ds None
    /\ ds <> [] /\ all_digits ds /\ digits_val ds = Z.abs z.
Proof.
  unfold str_int.
  set (n := Z.to_N (Z.abs z)).
  set (ds := nat_digits (S (N.to_nat (N.log2 n))) n []).
  exists ds. repeat split.
  - unfold number_text. rewrite app_nil_r. now destruct (z <? 0).
  - apply nat_digits_nonempty. now left.
  - apply nat_digits_all_digits. reflexivity.
  - unfold ds. rewrite nat_digits_val.
    + simpl. unfold n. lia.
    + replace (N.of_nat (S (N.to_nat (N.log2 n)))) with (N.succ (N.log2 n))
        by lia.
      destruct (N.eq_dec n 0%N) as [->|Hn]; [reflexivity|].
      apply N.log2_spec. lia.
Qed.

(** *** The scanner on the text of one number *)

Lemma digit_not_minus (c : ascii) : is_digit c = true -> is_minus c = false.
Proof.
  intros H. unfold is_minus. destruct (ascii_eqb c "-") eqn:E; [|reflexivity].
  apply Ascii.eqb_eq in E. subst. discriminate.
Qed.

Lemma scan_int_digits (ds : list ascii) :
  all_digits ds ->
  forall rest acc,
    findall_number_from (ds ++ rest) (IntPart acc)
    = findall_number_from rest (IntPart (rev ds ++ acc)).
Proof.
  induction ds as [|c ds IH]; intros H rest acc; [reflexivity|].
  apply all_digits_cons in H as [Hc Hds].
  simpl. rewrite Hc, (IH Hds). now rewrite <- app_assoc.
Qed.

Lemma scan_frac_digits (ds : list ascii) :
  all_digits ds ->
  forall rest acc,
    findall_number_from (ds ++ rest) (FracPart acc)
    = findall_number_from rest (FracPart (rev ds ++ acc)).
Proof.
  induction ds as [|c ds IH]; intros H rest acc; [reflexivity|].
  apply all_digits_cons in H as [Hc Hds].
  simpl. rewrite Hc, (IH Hds). now rewrite <- app_assoc.
Qed.

Lemma scan_unsigned (ip : list ascii) (frac : option (list ascii))
  (acc : list ascii) :
  all_digits ip -> frac_digits frac ->
  findall_number_from (unsigned_text ip frac) (IntPart acc)
  = [rev acc ++ unsigned_text ip frac].
Proof.
  intros Hip Hfrac. unfold unsigned_text.
  rewrite (scan_int_digits ip Hip). destruct frac as [fp|]; simpl.
  - rewrite <- (app_nil_r fp) at 1.
    rewrite (scan_frac_digits fp Hfrac). simpl.
    rewrite rev_app_distr. simpl. rewrite rev_app_distr, !rev_involutive.
    now rewrite <- !app_assoc.
  - now rewrite rev_app_distr, rev_involutive, app_nil_r.
Qed.

Lemma findall_number_text (neg : bool) (ip : list ascii)
  (frac : option (list ascii)) :
  ip <> [] -> all_digits ip -> frac_digits frac ->
  findall_number (number_text neg ip frac) = [number_text neg ip frac].
Proof.
  intros Hne Hip Hfrac.
  change (number_text neg ip frac)
    with ((if neg then ["-"%char] else []) ++ unsigned_text ip frac).
  destruct ip as [|d ip]; [contradiction|].
  pose proof Hip as Hip'. apply all_digits_cons in Hip' as [Hd _].
  unfold findall_number. destruct neg.
  - change (["-"%char] ++ unsigned_text (d :: ip) frac)
      with ("-"%char :: unsigned_text (d :: ip) frac).
    cbn [findall_number_from].
    assert (Hs : starts_number "-" (unsigned_text (d :: ip) frac) = true).
    { unfold starts_number, unsigned_text. simpl. rewrite Hd. reflexivity. }
    rewrite Hs. now rewrite scan_unsigned.
  - change ([] ++ unsigned_text (d :: ip) frac)
      with (d :: unsigned_text ip frac).
    cbn [findall_number_from].
    assert (Hs : starts_number d (unsigned_text ip frac) = true)
      by (unfold starts_number; now rewrite Hd).
    rewrite Hs.
    change (findall_number_from (unsigned_text ip frac) (IntPart [d]))
      with (findall_number_from (unsigned_text ip frac) (IntPart ([d] ++ []))).
    apply all_digits_cons in Hip as [_ Hip].
    unfold unsigned_text at 1. rewrite (scan_int_digits ip Hip).
    destruct frac as [fp|]; simpl.
    + rewrite <- (app_nil_r fp) at 1.
      rewrite (scan_frac_digits fp Hfrac). simpl.
      rewrite rev_app_distr. simpl. rewrite rev_app_distr. simpl.
      rewrite !rev_involutive. unfold unsigned_text.
      now rewrite <- !app_assoc.
    + rewrite rev_app_distr. simpl. rewrite rev_involutive.
      unfold unsigned_text. now rewrite app_nil_r.
Qed.

(** *** [float] on the text of one number *)

Lemma span_digits_app (ds rest : list ascii) :
  all_digits ds ->
  match rest with c :: _ => is_digit c = false | [] => True end ->
  span_digits (ds ++ rest) = (ds, rest).
Proof.
  intros Hds Hrest. induction ds as [|c ds IH]; simpl.
  - destruct rest as [|c rest]; [reflexivity|]. simpl. now rewrite Hrest.
  - apply all_digits_cons in Hds as [Hc Hds]. rewrite Hc, (IH Hds).
    reflexivity.
Qed.

Lemma float_of_unsigned_text (neg : bool) (ip : list ascii)
  (frac : option (list ascii)) :
  ip <> [] -> all_digits ip -> frac_digits frac ->
  float_of_unsigned neg (unsigned_text ip frac)
  = Some (if Qle_bool (inject_Z float_limit) (text_magnitude ip frac)
          then Infinite
          else Finite (if neg then Qopp (text_magnitude ip frac)
                       else text_magnitude ip frac)).
Proof.
  intros Hne Hip Hfrac. unfold float_of_unsigned.
  assert (Hspan : span_digits (unsigned_text ip frac)
                  = (ip, match frac with
                         | Some fp => "."%char :: fp
                         | None => []
                         end)).
  { apply span_digits_app; [exact Hip|]. now destruct frac. }
  rewrite Hspan. destruct ip as [|d ip]; [contradiction|].
  destruct frac as [fp|]; lazy beta iota zeta.
  - change (is_dot ".") with true. lazy beta iota zeta.
    rewrite <- (app_nil_r fp) at 1.
    rewrite (span_digits_app fp []); [|exact Hfrac|exact I].
    unfold text_magnitude. simpl default.
    now destruct (Qle_bool _ _).
  - simpl span_digits. unfold text_magnitude. simpl default.
    now destruct (Qle_bool _ _).
Qed.

Lemma float_of_string_text (neg : bool) (ip : list ascii)
  (frac : option (list ascii)) :
  ip <> [] -> all_digits ip -> frac_digits frac ->
  float_of_string (number_text neg ip frac)
  = Some (if Qle_bool (inject_Z float_limit) (text_magnitude ip frac)
          then Infinite
          else Finite (if neg then Qopp (text_magnitude ip frac)
                       else text_magnitude ip frac)).
Proof.
  intros Hne Hip Hfrac.
  change (number_text neg ip frac)
    with ((if neg then ["-"%char] else []) ++ unsigned_text ip frac).
  destruct neg.
  - change (["-"%char] ++ unsigned_text ip frac)
      with ("-"%char :: unsigned_text ip frac).
    unfold float_of_string. change (is_minus "-") with true. cbv iota.
    now apply float_of_unsigned_text.
  - change ([] ++ unsigned_text ip frac) with (unsigned_text ip frac).
    rewrite <- (float_of_unsigned_text false ip frac Hne Hip Hfrac).
    destruct ip as [|d ip]; [contradiction|].
    apply all_digits_cons in Hip as [Hd _].
    change (unsigned_text (d :: ip) frac) with (d :: unsigned_text ip frac).
    unfold float_of_string. now rewrite (digit_not_minus d Hd).
Qed.

(** *** Scoring the text of the ground truth itself *)

Open Scope Q_scope.

Lemma check_number_exact (x t : Q) :
  x == t -> check_number (Finite x) t = Some 1.0.
Proof.
  intros Hx. unfold check_number, Qltb.
  destruct (Qle_bool 1e-6 (Qabs (x - t))) eqn:E; [|reflexivity].
  apply Qle_bool_iff in E.
  assert (H0 : Qabs (x - t) == 0).
  { rewrite (Qabs_wd (x - t) 0); [reflexivity | lra]. }
  rewrite H0 in E. apply Qle_not_lt in E. exfalso. apply E. reflexivity.
Qed.

Lemma accuracy_number_text (neg : bool) (ip : list ascii)
  (frac : option (list ascii)) (t : Q) :
  ip <> [] -> all_digits ip -> frac_digits frac ->
  text_magnitude ip frac < inject_Z float_limit ->
  (if neg then - text_magnitude ip frac else text_magnitude ip frac) == t ->
  accuracy_number (number_text neg ip frac) (Ok t) = Ok 1.0.
Proof.
  intros Hne Hip Hfrac Hlim Hval. unfold accuracy_number.
  rewrite (findall_number_text neg ip frac Hne Hip Hfrac).
  cbn [res_bind rev app check_numbers].
  rewrite (float_of_string_text neg ip frac Hne Hip Hfrac).
  assert (Hb : Qle_bool (inject_Z float_limit) (text_magnitude ip frac)
               = false).
  { destruct (Qle_bool _ _) eqn:E; [|reflexivity].
    apply Qle_bool_iff in E. lra. }
  rewrite Hb. now rewrite (check_number_exact _ t Hval).
Qed.

Lemma pow10_pos (e : Z) : 0 < pow10 e.
Proof. apply Qpower_0_lt. reflexivity. Qed.

Lemma pow10_add (a b : Z) : pow10 (a + b) == pow10 a * pow10 b.
Proof. apply Qpower_plus. discriminate. Qed.

Lemma pow10_inject (e : Z) : (0 <= e)%Z -> pow10 e == inject_Z (10 ^ e).
Proof. intros He. symmetry. apply (Zpower_Qpower 10 e He). Qed.

Lemma pow10_le (a b : Z) : (a <= b)%Z -> pow10 a <= pow10 b.
Proof.
  intros Hab. replace b with (a + (b - a))%Z by lia.
  rewrite pow10_add, (pow10_inject (b - a)) by lia.
  pose proof (pow10_pos a) as Ha.
  assert (H1 : 1 <= inject_Z (10 ^ (b - a))).
  { change 1 with (inject_Z 1). rewrite <- Zle_Qle.
    pose proof (Z.pow_pos_nonneg 10 (b - a)). lia. }
  rewrite <- (Qmult_1_r (pow10 a)) at 1.
  apply Qmult_le_l; assumption.
Qed.

Lemma text_magnitude_integer (ds : list ascii) :
  text_magnitude ds None == inject_Z (digits_val ds).
Proof.
  unfold text_magnitude. simpl default. rewrite app_nil_r.
  change (pow10 (- Z.of_nat (length (@nil ascii)))) with 1. ring.
Qed.

(** An [int] ground truth that converts to [float] matches its own text. *)
Lemma int_self_match (z : Z) :
  (Z.abs z < float_limit)%Z ->
  compute_accuracy (str_number (GInt z)) (GInt z) = Ok 1.0.
Proof.
  intros Hz. cbn [str_number compute_accuracy].
  destruct (str_int_text z) as (ds & -> & Hne & Hds & Hv).
  unfold as_float. destruct (Z.leb_spec float_limit (Z.abs z)) as [H|_]; [lia|].
  apply accuracy_number_text; try assumption; try exact I.
  - rewrite (text_magnitude_integer ds), Hv, <- Zlt_Qlt. exact Hz.
  - destruct (Z.ltb_spec z 0) as [Hneg|Hpos];
      rewrite (text_magnitude_integer ds), Hv.
    + rewrite <- inject_Z_opp. now replace (- Z.abs z)%Z with z by lia.
    + now replace (Z.abs z) with z by lia.
Qed.

Lemma str_float_positional (f : pyfloat) :
  float_digits_ok f -> positional f ->
  exists ip fp,
    str_float f = number_text (fneg f) ip (Some fp)
    /\ ip <> [] /\ all_digits ip /\ all_digits fp
    /\ text_magnitude ip (Some fp)
       == inject_Z (digits_val (fdigits f))
          * pow10 (fdecpt f - Z.of_nat (length (fdigits f))).
Proof.
  intros [Hne Hds] [Hlo Hhi]. unfold str_float.
  destruct f as [neg ds p]. simpl in *.
  destruct (Z.ltb_spec (-4) p) as [_|H]; [|lia].
  destruct (Z.leb_spec p 16) as [_|H]; [|lia]. simpl andb. cbv iota.
  destruct (Z.leb_spec p 0) as [Hp|Hp].
  - exists (chars "0"), (zeros (Z.to_nat (- p)) ++ ds).
    split; [now destruct neg|]. split; [discriminate|].
    split; [reflexivity|]. split.
    { apply all_digits_app. split; [apply zeros_all_digits | exact Hds]. }
    unfold text_magnitude. simpl default.
    change (chars "0" ++ zeros (Z.to_nat (- p)) ++ ds)
      with (zeros (S (Z.to_nat (- p))) ++ ds).
    rewrite digits_val_app, digits_val_zeros, length_app, length_zeros.
    replace (- Z.of_nat (Z.to_nat (- p) + length ds))%Z
      with (p - Z.of_nat (length ds))%Z by lia.
    now rewrite Z.mul_0_l, Z.add_0_l.
  - destruct (Z.leb_spec (Z.of_nat (length ds)) p) as [Hn|Hn].
    + exists (ds ++ zeros (Z.to_nat (p - Z.of_nat (length ds)))), (chars "0").
      split.
      { unfold number_text. change (chars ".0") with ("."%char :: chars "0").
        rewrite <- !app_assoc. now destruct neg. }
      split; [destruct ds; [contradiction | discriminate]|].
      split.
      { apply all_digits_app. split; [exact Hds | apply zeros_all_digits]. }
      split; [reflexivity|].
      unfold text_magnitude. simpl default.
      set (j := (p - Z.of_nat (length ds))%Z).
      rewrite <- app_assoc.
      change (- Z.of_nat (length ["0"%char]))%Z with (-1)%Z.
      change ["0"%char] with (zeros 1).
      assert (Hz : zeros (Z.to_nat j) ++ zeros 1 = zeros (Z.to_nat j + 1))
        by (unfold zeros; now rewrite repeat_app).
      rewrite Hz.
      rewrite digits_val_app, digits_val_zeros, length_zeros, Z.add_0_r.
      replace (Z.of_nat (Z.to_nat j + 1)) with (j + 1)%Z by lia.
      rewrite inject_Z_mult, <- (pow10_inject (j + 1)) by lia.
      rewrite <- Qmult_assoc, <- pow10_add.
      now replace (j + 1 + -1)%Z with j by lia.
    + exists (take (Z.to_nat p) ds), (drop (Z.to_nat p) ds).
      pose proof (take_drop (Z.to_nat p) ds) as Htd.
      rewrite <- Htd in Hds. apply all_digits_app in Hds as [Ht Hd].
      split; [now destruct neg|]. split.
      { destruct ds as [|d ds]; [contradiction|].
        destruct (Z.to_nat p) eqn:E; [lia | discriminate]. }
      split; [exact Ht|]. split; [exact Hd|].
      unfold text_magnitude. simpl default. rewrite Htd, length_drop.
      now replace (- Z.of_nat (length ds - Z.to_nat p))%Z
        with (p - Z.of_nat (length ds))%Z by lia.
Qed.

(** A float ground truth printed in positional notation matches its own
    text. *)
Lemma float_self_match (f : pyfloat) :
  float_digits_ok f -> positional f ->
  compute_accuracy (str_number (GFloat f)) (GFloat f) = Ok 1.0.
Proof.
  intros Hok Hpos. cbn [str_number compute_accuracy].
  destruct (str_float_positional f Hok Hpos)
    as (ip & fp & -> & Hne & Hip & Hfp & Hmag).
  destruct Hok as [_ Hds]. destruct Hpos as [_ Hhi].
  apply accuracy_number_text; try assumption.
  - rewrite Hmag.
    pose proof (digits_val_bounds (fdigits f) Hds) as [_ Hb].
    set (n := Z.of_nat (length (fdigits f))) in *.
    apply (Qlt_le_trans _ (pow10 16)); [|vm_compute; discriminate].
    apply (Qlt_le_trans _ (pow10 (fdecpt f))); [|now apply pow10_le].
    replace (fdecpt f) with (n + (fdecpt f - n))%Z at 2 by lia.
    rewrite pow10_add, (pow10_inject n) by lia.
    apply Qmult_lt_r; [apply pow10_pos|]. now rewrite <- Zlt_Qlt.
  - unfold float_value. destruct (fneg f); now rewrite Hmag.
Qed.

End NumberText.

(** * Properties of the accuracy matcher *)

Module AccuracyFacts.
Import PyStr PyRe PyFloat PyNum Metrics Spec.

Open Scope Q_scope.

(** Induction on ground truths, through the lists they nest. *)
Lemma gtvalue_nested_ind (P : gtvalue -> Prop) :
  (forall z, P (GInt z)) ->
  (forall f, P (GFloat f)) ->
  (forall s, P (GStr s)) ->
  (forall l, Forall P l -> P (GList l)) ->
  P GOther ->
  forall g, P g.
Proof.
  intros HInt HFloat HStr HList HOther.
  fix IH 1. intros [z|f|s|l|].
  - apply HInt.
  - apply HFloat.
  - apply HStr.
  - apply HList. induction l as [|g l IHl]; constructor; [apply IH | exact IHl].
  - apply HOther.
Qed.

Lemma ascii_eqb_eq (a b : ascii) : ascii_eqb a b = true <-> a = b.
Proof. apply Ascii.eqb_eq. Qed.

Lemma startswith_prefix (p : list ascii) :
  forall s, startswith s p = true <-> exists t, s = p ++ t.
Proof.
  induction p as [|a p IH]; intros s; simpl.
  - split; [intros _; now exists s | reflexivity].
  - destruct s as [|b s].
    + split; [discriminate | intros [t Ht]; discriminate].
    + rewrite andb_true_iff, ascii_eqb_eq, IH. split.
      * intros [-> [t ->]]. now exists t.
      * intros [t [= -> ->]]. split; [reflexivity | now exists t].
Qed.

Lemma contains_infix (a p b : list ascii) : contains (a ++ p ++ b) p = true.
Proof.
  induction a as [|c a IH]; simpl.
  - assert (H : startswith (p ++ b) p = true)
      by (apply startswith_prefix; now exists b).
    destruct (p ++ b); simpl; rewrite H; reflexivity.
  - rewrite IH. apply orb_true_r.
Qed.

(** A suffix is found by the containment test already. *)
Lemma endswith_contains (s p : list ascii) :
  endswith s p = true -> contains s p = true.
Proof.
  unfold endswith. intros H. apply startswith_prefix in H as [t Ht].
  assert (Hs : s = rev t ++ p ++ []).
  { rewrite app_nil_r, <- (rev_involutive s), Ht, rev_app_distr.
    now rewrite rev_involutive. }
  rewrite Hs. apply contains_infix.
Qed.

Lemma accuracy_string_contains (response_lower s : list ascii) :
  accuracy_string response_lower s
  = if contains response_lower (strip (lower s)) then 1.0 else 0.0.
Proof.
  unfold accuracy_string.
  destruct (contains response_lower (strip (lower s))) eqn:Ec; [reflexivity|].
  destruct (endswith response_lower (strip (lower s))) eqn:Ee; [|reflexivity].
  apply endswith_contains in Ee. congruence.
Qed.

Lemma compute_accuracy_nil (response : list ascii) :
  compute_accuracy response (GList []) = Ok 0.0.
Proof. reflexivity. Qed.

Lemma compute_accuracy_cons (response : list ascii) (g : gtvalue)
  (l : list gtvalue) :
  compute_accuracy response (GList (g :: l))
  = let! a := compute_accuracy response g in
    if Qltb 0.5 a then Ok 1.0 else compute_accuracy response (GList l).
Proof. reflexivity. Qed.

(** A response without a number: only the text of the ground truth
    counts. *)
Lemma accuracy_without_number (response : list ascii) :
  findall_number response = [] ->
  forall g,
    compute_accuracy response g
    = Ok (if text_occurs (strip (lower response)) g then 1.0 else 0.0).
Proof.
  intros Hnone g.
  induction g as [z|f|s|l IHl|] using gtvalue_nested_ind.
  - cbn [compute_accuracy text_occurs]. unfold accuracy_number.
    now rewrite Hnone.
  - cbn [compute_accuracy text_occurs]. unfold accuracy_number.
    now rewrite Hnone.
  - cbn [compute_accuracy text_occurs]. now rewrite accuracy_string_contains.
  - induction IHl as [|g l Hg _ IH]; [reflexivity|].
    rewrite compute_accuracy_cons, Hg. cbn [res_bind text_occurs existsb].
    cbn [text_occurs] in IH.
    destruct (text_occurs (strip (lower response)) g);
      cbn [orb]; [reflexivity | exact IH].
  - reflexivity.
Qed.

Lemma unrelated_has_no_number : findall_number unrelated = [].
Proof. reflexivity. Qed.

(** C6 (as the code has it).  Scoring the response "completely unrelated
    text": a numeric ground truth scores 0.0; a string ground truth
    scores 0.0 unless its lower-cased, stripped text occurs in the
    response, and then 1.0; a list scores 1.0 when one of its members
    does and 0.0 otherwise; any other value scores 0.0. *)
Theorem unrelated_response_accuracy (g : gtvalue) :
  compute_accuracy unrelated g
  = Ok (if text_occurs (strip (lower unrelated)) g then 1.0 else 0.0).
Proof. apply accuracy_without_number, unrelated_has_no_number. Qed.

(** C6, as stated, fails: the string ground truth "text" occurs in the
    response and scores 1.0. *)
Lemma unrelated_response_matches_text :
  compute_accuracy unrelated (GStr (chars "text")) = Ok 1.0
  /\ ~ (1.0 == 0.0).
Proof. split; [reflexivity | discriminate]. Qed.

(** C5 (as the code has it).  Scoring the text of a numeric ground truth
    against itself gives exactly 1.0 for every integer that converts to
    a float (absolute value below 2^1024 - 2^970) and for every float
    whose text is in positional notation (decimal point position p with
    -4 < p <= 16). *)
Theorem numeric_self_match :
  (forall z : Z,
      (Z.abs z < PyFloat.float_limit)%Z ->
      compute_accuracy (str_number (GInt z)) (GInt z) = Ok 1.0)
  /\ (forall f : pyfloat,
        float_digits_ok f -> positional f ->
        compute_accuracy (str_number (GFloat f)) (GFloat f) = Ok 1.0).
Proof.
  split; [exact NumberText.int_self_match | exact NumberText.float_self_match].
Qed.

Lemma numeric_self_match_witness :
  compute_accuracy (str_number (GInt (-42))) (GInt (-42)) = Ok 1.0
  /\ compute_accuracy (str_number (GFloat Inputs.fifteen_and_a_half))
                      (GFloat Inputs.fifteen_and_a_half) = Ok 1.0.
Proof.
  destruct numeric_self_match as [Hint Hfloat]. split.
  - apply Hint. vm_compute. reflexivity.
  - apply Hfloat.
    + split; [discriminate | reflexivity].
    + split; vm_compute; [reflexivity | discriminate].
Defined.

(** C5, as stated, fails: the float 1e-07 prints in exponent notation;
    the pattern reads "1" and "-07" from its text, neither is within
    tolerance of it, and the score is 0.0. *)
Lemma exponent_text_does_not_match :
  str_number (GFloat Inputs.tenth_of_a_millionth) = chars "1e-07"
  /\ float_value Inputs.tenth_of_a_millionth == 1 # 10000000
  /\ findall_number (chars "1e-07") = [chars "1"; chars "-07"]
  /\ compute_accuracy (str_number (GFloat Inputs.tenth_of_a_millionth))
                      (GFloat Inputs.tenth_of_a_millionth) = Ok 0.0.
Proof. repeat split. Qed.

(** An integer too large for a float: the subtraction raises. *)
Lemma huge_int_raises :
  compute_accuracy (str_number (GInt (10 ^ 400))) (GInt (10 ^ 400))
  = Raise OverflowError.
Proof. vm_compute. reflexivity. Qed.

End AccuracyFacts.

(** * Properties of the graph search *)

Module BfsFacts.
Import Generator GraphSpec.

Lemma enqueue_neighbors_elem (visited : gset Z) (neighbors : list Z) :
  forall queue x,
    x ∈ enqueue_neighbors visited neighbors queue
    <-> x ∈ queue \/ (x ∈ neighbors /\ x ∉ visited).
Proof.
  unfold enqueue_neighbors.
  induction neighbors as [|n ns IH]; intros queue x; simpl.
  - rewrite elem_of_nil. tauto.
  - rewrite IH. destruct (decide (n ∈ visited)) as [Hn|Hn].
    + rewrite elem_of_cons. split; [tauto|].
      intros [H|[[->|H] Hx]]; tauto.
    + rewrite elem_of_app, list_elem_of_singleton, elem_of_cons. split.
      * intros [[H| ->]|H]; tauto.
      * intros [H|[[->|H] Hx]]; tauto.
Qed.

Lemma enqueue_neighbors_length (visited : gset Z) (neighbors : list Z) :
  forall queue,
    (length (enqueue_neighbors visited neighbors queue)
     <= length queue + length neighbors)%nat.
Proof.
  unfold enqueue_neighbors.
  induction neighbors as [|n ns IH]; intros queue; simpl; [lia|].
  destruct (decide (n ∈ visited)).
  - specialize (IH queue). lia.
  - specialize (IH (queue ++ [n])). rewrite length_app in IH. simpl in IH. lia.
Qed.

Lemma pending_skip (visited : gset Z) (node : Z)
  (adjacency : list (Z * list Z)) :
  node ∉ adjacency.*1 ->
  pending ({[node]} ∪ visited) adjacency = pending visited adjacency.
Proof.
  unfold pending. induction adjacency as [|[k l] adj IH]; intros Hn; simpl.
  - reflexivity.
  - simpl in Hn. apply not_elem_of_cons in Hn as [Hk Hadj].
    rewrite (IH Hadj).
    destruct (decide (k ∈ {[node]} ∪ visited)) as [H1|H1],
             (decide (k ∈ visited)) as [H2|H2];
      try reflexivity; set_solver.
Qed.

Lemma pending_visit (visited : gset Z) (node : Z) (l : list Z)
  (adjacency : list (Z * list Z)) :
  NoDup adjacency.*1 -> (node, l) ∈ adjacency -> node ∉ visited ->
  pending visited adjacency
  = (pending ({[node]} ∪ visited) adjacency + S (length l))%nat.
Proof.
  unfold pending.
  induction adjacency as [|[k l'] adj IH]; intros Hnd Hin Hv; simpl.
  - now apply elem_of_nil in Hin.
  - simpl in Hnd. apply NoDup_cons in Hnd as [Hk Hnd].
    apply elem_of_cons in Hin as [[= <- <-]|Hin].
    + fold (pending visited adj). fold (pending ({[node]} ∪ visited) adj).
      rewrite (pending_skip visited node adj Hk).
      destruct (decide (node ∈ {[node]} ∪ visited)) as [_|H]; [|set_solver].
      destruct (decide (node ∈ visited)); [contradiction | lia].
    + rewrite (IH Hnd Hin Hv).
      assert (Hne : k <> node).
      { intros ->. apply Hk. apply list_elem_of_fmap.
        exists (node, l). split; [reflexivity | exact Hin]. }
      destruct (decide (k ∈ {[node]} ∪ visited)) as [H1|H1],
               (decide (k ∈ visited)) as [H2|H2];
        try lia; set_solver.
Qed.

Lemma pending_step (graph : gmap Z (list Z)) (visited : gset Z) (node : Z) :
  node ∉ visited ->
  (pending ({[node]} ∪ visited) (map_to_list graph)
   + length (default [] (graph !! node))
   <= pending visited (map_to_list graph))%nat.
Proof.
  intros Hv. destruct (graph !! node) as [l|] eqn:E; simpl.
  - rewrite (pending_visit visited node l (map_to_list graph)); [lia| | |exact Hv].
    + apply NoDup_fst_map_to_list.
    + now apply elem_of_map_to_list.
  - rewrite pending_skip; [lia|].
    intros H. apply list_elem_of_fmap in H as ([k l] & Hk & Hin).
    simpl in Hk. subst k. apply elem_of_map_to_list in Hin. congruence.
Qed.

Section Search.
Variable graph : gmap Z (list Z).
Variables start end_ : Z.

Lemma bfs_inv_initial : start <> end_ -> bfs_inv graph start end_ ∅ [start].
Proof.
  intros Hne. repeat split.
  - intros n [H|H]; [set_solver|].
    apply list_elem_of_singleton in H as ->. apply rtc_refl.
  - intros v w H. set_solver.
  - set_solver.
  - right. now apply list_elem_of_singleton.
Qed.

Lemma bfs_inv_skip (visited : gset Z) (node : Z) (queue : list Z) :
  bfs_inv graph start end_ visited (node :: queue) ->
  node ∈ visited ->
  bfs_inv graph start end_ visited queue.
Proof.
  intros (Hreach & Hclosed & Hend & Hstart) Hnode. repeat split.
  - intros n [H|H]; apply Hreach; [now left | right; now apply elem_of_cons; right].
  - intros v w Hv He. destruct (Hclosed v w Hv He) as [H|H]; [now left|].
    apply elem_of_cons in H as [->|H]; [now left | now right].
  - exact Hend.
  - destruct Hstart as [H|H]; [now left|].
    apply elem_of_cons in H as [->|H]; [now left | now right].
Qed.

Lemma bfs_inv_visit (visited : gset Z) (node : Z) (queue : list Z) :
  bfs_inv graph start end_ visited (node :: queue) ->
  node <> end_ ->
  bfs_inv graph start end_ ({[node]} ∪ visited)
    (enqueue_neighbors ({[node]} ∪ visited) (default [] (graph !! node))
                       queue).
Proof.
  intros (Hreach & Hclosed & Hend & Hstart) Hne.
  assert (Hnode : reachable graph start node).
  { apply Hreach. right. apply elem_of_cons. now left. }
  repeat split.
  - intros n [H|H].
    + apply elem_of_union in H as [H|H].
      * apply elem_of_singleton in H as ->. exact Hnode.
      * apply Hreach. now left.
    + apply enqueue_neighbors_elem in H as [H|[H _]].
      * apply Hreach. right. apply elem_of_cons. now right.
      * eapply rtc_r; [exact Hnode | exact H].
  - intros v w Hv He. rewrite enqueue_neighbors_elem.
    destruct (decide (w ∈ {[node]} ∪ visited)) as [Hw|Hw]; [now left|].
    right. apply elem_of_union in Hv as [Hv|Hv].
    + apply elem_of_singleton in Hv as ->. right. split; assumption.
    + destruct (Hclosed v w Hv He) as [H|H]; [set_solver|].
      apply elem_of_cons in H as [->|H]; [set_solver | now left].
  - set_solver.
  - destruct Hstart as [H|H]; [left; set_solver|].
    apply elem_of_cons in H as [->|H]; [left; set_solver|].
    right. apply enqueue_neighbors_elem. now left.
Qed.

(** When the queue is empty, every reachable node has been visited. *)
Lemma bfs_inv_exhausted (visited : gset Z) :
  bfs_inv graph start end_ visited [] -> ~ reachable graph start end_.
Proof.
  intros (_ & Hclosed & Hend & Hstart) Hreach.
  assert (Hs : start ∈ visited)
    by (destruct Hstart as [H|H]; [exact H | now apply elem_of_nil in H]).
  apply Hend. clear Hend Hstart.
  induction Hreach as [x|x y z Hxy _ IH]; [exact Hs|].
  apply IH. destruct (Hclosed x y Hs Hxy) as [H|H];
    [exact H | now apply elem_of_nil in H].
Qed.

Lemma bfs_loop_correct (fuel : nat) :
  forall visited queue,
    bfs_inv graph start end_ visited queue ->
    (bfs_measure graph visited queue < fuel)%nat ->
    exists r, bfs_loop fuel graph end_ visited queue = Some r
              /\ (r = true <-> reachable graph start end_).
Proof.
  induction fuel as [|fuel IH]; intros visited queue Hinv Hfuel; [lia|].
  simpl. destruct queue as [|node queue].
  - exists false. split; [reflexivity|].
    split; [discriminate|]. intros H. now apply bfs_inv_exhausted in Hinv.
  - destruct (Z.eqb_spec node end_) as [->|Hne].
    + exists true. split; [reflexivity|]. split; [|reflexivity].
      intros _. destruct Hinv as (Hreach & _). apply Hreach. right.
      apply elem_of_cons. now left.
    + unfold bfs_measure in Hfuel. simpl in Hfuel.
      destruct (decide (node ∈ visited)) as [Hv|Hv].
      * apply IH; [now apply (bfs_inv_skip visited node)|].
        unfold bfs_measure. lia.
      * apply IH; [now apply bfs_inv_visit|].
        unfold bfs_measure.
        pose proof (enqueue_neighbors_length ({[node]} ∪ visited)
                      (default [] (graph !! node)) queue).
        pose proof (pending_step graph visited node Hv). lia.
Qed.

Lemma bfs_measure_initial (n : Z) :
  bfs_measure graph ∅ [n] = bfs_measure graph ∅ [0].
Proof. reflexivity. Qed.

Lemma bfs_connected_correct (fuel : nat) :
  (bfs_fuel graph <= fuel)%nat ->
  exists r, bfs_connected fuel graph start end_ = Some r
            /\ (r = true <-> reachable graph start end_).
Proof.
  intros Hfuel. unfold bfs_connected.
  destruct (Z.eqb_spec start end_) as [->|Hne].
  - exists true. split; [reflexivity|]. split; [|reflexivity].
    intros _. apply rtc_refl.
  - apply bfs_loop_correct; [now apply bfs_inv_initial|].
    rewrite (bfs_measure_initial start). unfold bfs_fuel in Hfuel. lia.
Qed.

End Search.

Lemma reachable_sym (graph : gmap Z (list Z)) :
  undirected graph ->
  forall a b, reachable graph a b -> reachable graph b a.
Proof.
  intros Hsym a b H. induction H as [x|x y z Hxy _ IH]; [apply rtc_refl|].
  eapply rtc_r; [exact IH|]. now apply Hsym.
Qed.

(** C8.  The search is reflexive: on every adjacency map,
    [bfs_connected(graph, a, a)] is True (whatever the fuel).  On an
    undirected adjacency map it is symmetric: with enough fuel both
    [bfs_connected(graph, a, b)] and [bfs_connected(graph, b, a)] return,
    and they return the same value. *)
Theorem bfs_connected_reflexive_symmetric :
  (forall (graph : gmap Z (list Z)) (a : Z) (fuel : nat),
      bfs_connected fuel graph a a = Some true)
  /\ (forall (graph : gmap Z (list Z)) (a b : Z) (fuel : nat),
        undirected graph ->
        (bfs_fuel graph <= fuel)%nat ->
        exists r, bfs_connected fuel graph a b = Some r
                  /\ bfs_connected fuel graph b a = Some r).
Proof.
  split.
  - intros graph a fuel. unfold bfs_connected. now rewrite Z.eqb_refl.
  - intros graph a b fuel Hsym Hfuel.
    destruct (bfs_connected_correct graph a b fuel Hfuel) as (r1 & H1 & Hr1).
    destruct (bfs_connected_correct graph b a fuel Hfuel) as (r2 & H2 & Hr2).
    exists r1. split; [exact H1|]. rewrite H2. f_equal.
    destruct r1, r2; try reflexivity.
    + assert (H : false = true); [|discriminate H].
      apply Hr2. apply (reachable_sym graph Hsym). now apply Hr1.
    + assert (H : false = true); [|discriminate H].
      apply Hr1. apply (reachable_sym graph Hsym). now apply Hr2.
Qed.

Lemma undirected_check_sound (graph : gmap Z (list Z)) :
  undirected_check graph = true -> undirected graph.
Proof.
  intros Hcheck.
  assert (Hdir : forall a b, edge graph a b -> edge graph b a).
  { intros a b Hab. unfold edge in Hab.
    destruct (graph !! a) as [l|] eqn:Ha; [|now apply elem_of_nil in Hab].
    simpl in Hab. unfold undirected_check in Hcheck.
    rewrite forallb_forall in Hcheck.
    specialize (Hcheck (a, l)). simpl in Hcheck.
    rewrite forallb_forall in Hcheck.
    eapply bool_decide_eq_true_1, Hcheck.
    - apply list_elem_of_In. now apply elem_of_map_to_list.
    - now apply list_elem_of_In. }
  intros a b. split; apply Hdir.
Qed.

Lemma bfs_connected_reflexive_symmetric_witness :
  exists r,
    bfs_connected (bfs_fuel Inputs.line_graph) Inputs.line_graph 1 3 = Some r
    /\ bfs_connected (bfs_fuel Inputs.line_graph) Inputs.line_graph 3 1
       = Some r.
Proof.
  apply (proj2 bfs_connected_reflexive_symmetric Inputs.line_graph 1 3).
  - apply undirected_check_sound. vm_compute. reflexivity.
  - apply Nat.le_refl.
Defined.

End BfsFacts.

(** * Properties of the grid search *)

Module AStarFacts.
Import Generator GridSpec.

Lemma for_each_cons {A S : Type} (body : S -> A -> res S) (a : A)
  (l : list A) (s : S) :
  for_each body (a :: l) s = let! s' := body s a in for_each body l s'.
Proof. reflexivity. Qed.

Lemma a_star_loop_S (fuel : nat) (grid : grid) (rows cols : Z) (end_ : cell)
  (open_set : list entry) (g_score : gmap cell Z) :
  a_star_loop (S fuel) grid rows cols end_ open_set g_score =
  match heappop open_set with
  | None => Some (Ok (-1))
  | Some ((_, current), open_set') =>
      if cell_eqb current end_ then
        match g_score !! current with
        | Some g => Some (Ok g)
        | None => Some (Raise KeyError)
        end
      else
        match for_each (relax grid rows cols end_ current) directions
                       (open_set', g_score) with
        | Raise e => Some (Raise e)
        | Ok (open_set'', g_score') =>
            a_star_loop fuel grid rows cols end_ open_set'' g_score'
        end
  end.
Proof. reflexivity. Qed.

(** *** The open set *)

Lemma entry_leb_fst (a b : entry) : entry_leb a b = true -> a.1 <= b.1.
Proof. unfold entry_leb. lia. Qed.

Lemma entry_leb_false_fst (a b : entry) : entry_leb a b = false -> b.1 <= a.1.
Proof. unfold entry_leb. lia. Qed.

Lemma heappop_None (heap : list entry) : heappop heap = None -> heap = [].
Proof.
  destruct heap as [|e heap]; [reflexivity|]. simpl.
  destruct (heappop heap) as [[m rest]|]; [|discriminate].
  destruct (entry_leb e m); discriminate.
Qed.

Lemma heappop_Some (heap : list entry) :
  forall m rest,
    heappop heap = Some (m, rest) ->
    heap ≡ₚ m :: rest /\ forall e, e ∈ heap -> m.1 <= e.1.
Proof.
  induction heap as [|e heap IH]; intros m rest; simpl; [discriminate|].
  destruct (heappop heap) as [[m' rest']|] eqn:Hpop.
  - destruct (IH m' rest' eq_refl) as [Hperm Hmin].
    destruct (entry_leb e m') eqn:Hle; intros [= <- <-].
    + split; [reflexivity|]. intros x [->|Hx]%elem_of_cons; [lia|].
      apply entry_leb_fst in Hle. specialize (Hmin x Hx). lia.
    + split.
      * rewrite Hperm. apply Permutation_swap.
      * intros x [->|Hx]%elem_of_cons; [|now apply Hmin].
        now apply entry_leb_false_fst.
  - apply heappop_None in Hpop as ->. intros [= <- <-].
    split; [reflexivity|]. intros x Hx%list_elem_of_singleton. subst. lia.
Qed.

Lemma cell_eqb_eq (a b : cell) : cell_eqb a b = true <-> a = b.
Proof.
  destruct a as [a1 a2], b as [b1 b2]. unfold cell_eqb. simpl.
  rewrite andb_true_iff, !Z.eqb_eq. split; [intros [-> ->]; reflexivity|].
  intros [= -> ->]. split; reflexivity.
Qed.

(** *** Steps on the grid *)

Lemma directions_unit (d : Z * Z) :
  d ∈ directions -> Z.abs d.1 + Z.abs d.2 = 1.
Proof.
  unfold directions. rewrite !elem_of_cons, elem_of_nil.
  intros [->|[->|[->|[->|[]]]]]; reflexivity.
Qed.

Lemma move_ne (c : cell) (d : Z * Z) : d ∈ directions -> move c d <> c.
Proof.
  intros Hd%directions_unit. destruct c as [x y], d as [dx dy].
  unfold move. simpl in *. intros [= H1 H2]. lia.
Qed.

Lemma manhattan_move (a c : cell) (d : Z * Z) :
  d ∈ directions ->
  manhattan_distance a (move c d) <= manhattan_distance a c + 1.
Proof.
  intros Hd%directions_unit. destruct a, c, d.
  unfold manhattan_distance, move. simpl in *. lia.
Qed.

Lemma heuristic_move (c b : cell) (d : Z * Z) :
  d ∈ directions -> heuristic c b <= heuristic (move c d) b + 1.
Proof.
  intros Hd%directions_unit. destruct b, c, d.
  unfold heuristic, move. simpl in *. lia.
Qed.

Lemma heuristic_nonneg (a b : cell) : 0 <= heuristic a b.
Proof. unfold heuristic. lia. Qed.

Lemma heuristic_self (a : cell) : heuristic a a = 0.
Proof. unfold heuristic. lia. Qed.

Lemma manhattan_self (a : cell) : manhattan_distance a a = 0.
Proof. unfold manhattan_distance. lia. Qed.

Lemma grid_at_in_bounds (grid : grid) (rows cols : Z) (c : cell) :
  rectangular grid rows cols ->
  in_bounds rows cols c = true ->
  is_Some (grid_at grid c).
Proof.
  intros [Hrows Hcols] Hin. unfold in_bounds in Hin. unfold grid_at.
  destruct (grid !! Z.to_nat c.1) as [row|] eqn:Hrow.
  - apply lookup_lt_is_Some.
    rewrite Forall_forall in Hcols.
    assert (Hr : Z.of_nat (length row) = cols).
    { apply Hcols. eapply list_elem_of_lookup_2. exact Hrow. }
    lia.
  - apply lookup_ge_None in Hrow. lia.
Qed.

(** The heuristic never exceeds the length of a walk to the goal. *)
Lemma path_length_heuristic (grid : grid) (rows cols : Z) (to : cell)
  (p : list cell) :
  forall from, is_path grid rows cols from p to ->
               heuristic from to <= Z.of_nat (length p).
Proof.
  induction p as [|c p IH]; intros from; simpl.
  - intros ->. rewrite heuristic_self. lia.
  - intros ((d & Hd & ->) & _ & Hp). specialize (IH _ Hp).
    pose proof (heuristic_move from to d Hd). lia.
Qed.

Lemma is_path_app (grid : grid) (rows cols : Z) (p q : list cell)
  (b c : cell) :
  forall a, is_path grid rows cols a p b ->
            is_path grid rows cols b q c ->
            is_path grid rows cols a (p ++ q) c.
Proof.
  induction p as [|x p IH]; intros a; simpl.
  - now intros ->.
  - intros (Hstep & Hfree & Hp) Hq.
    split; [exact Hstep | split; [exact Hfree | now apply IH]].
Qed.

(** *** The measure *)

Lemma sumZ_cons (f : cell -> Z) (c : cell) (l : list cell) :
  sumZ (f <$> c :: l) = f c + sumZ (f <$> l).
Proof. reflexivity. Qed.

Lemma sumZ_le (f h : cell -> Z) (l : list cell) :
  (forall c, c ∈ l -> f c <= h c) -> sumZ (f <$> l) <= sumZ (h <$> l).
Proof.
  induction l as [|c l IH]; intros H; [reflexivity|].
  rewrite !sumZ_cons.
  assert (f c <= h c) by (apply H; now left).
  assert (sumZ (f <$> l) <= sumZ (h <$> l))
    by (apply IH; intros x Hx; apply H; now right).
  lia.
Qed.

Lemma sumZ_lt (f h : cell -> Z) (l : list cell) (n : cell) :
  (forall c, c ∈ l -> f c <= h c) -> n ∈ l -> f n < h n ->
  sumZ (f <$> l) < sumZ (h <$> l).
Proof.
  induction l as [|c l IH]; intros H Hn Hlt.
  - now apply elem_of_nil in Hn.
  - rewrite !sumZ_cons.
    assert (Hc : f c <= h c) by (apply H; now left).
    assert (Hl : forall x, x ∈ l -> f x <= h x)
      by (intros x Hx; apply H; now right).
    apply elem_of_cons in Hn as [->|Hn].
    + pose proof (sumZ_le f h l Hl). lia.
    + specialize (IH Hl Hn Hlt). lia.
Qed.

Lemma sumZ_bound (f : cell -> Z) (b : Z) (l : list cell) :
  (forall c, c ∈ l -> f c <= b) -> sumZ (f <$> l) <= Z.of_nat (length l) * b.
Proof.
  induction l as [|c l IH]; intros H; [reflexivity|].
  rewrite sumZ_cons.
  assert (f c <= b) by (apply H; now left).
  assert (sumZ (f <$> l) <= Z.of_nat (length l) * b)
    by (apply IH; intros x Hx; apply H; now right).
  simpl length. lia.
Qed.

Lemma in_universe (rows cols : Z) (start c : cell) :
  in_bounds rows cols c = true -> c ∈ universe rows cols start.
Proof.
  intros Hin. unfold in_bounds in Hin. unfold universe.
  apply elem_of_cons. right. apply list_elem_of_bind.
  exists c.1. split.
  - apply list_elem_of_fmap. exists c.2. split; [now destruct c|].
    apply elem_of_seqZ. lia.
  - apply elem_of_seqZ. lia.
Qed.

Lemma length_universe (rows cols : Z) (start : cell) :
  0 <= rows -> 0 <= cols ->
  Z.of_nat (length (universe rows cols start)) = rows * cols + 1.
Proof.
  intros Hr Hc. unfold universe. simpl length.
  assert (H : forall m n, 0 <= n ->
    Z.of_nat (length (r ← seqZ m n; (fun c => (r, c)) <$> seqZ 0 cols))
    = n * cols).
  { intros m n Hn. rewrite <- (Z2Nat.id n Hn). clear Hn.
    generalize (Z.to_nat n) as k. intros k. revert m.
    induction k as [|k IH]; intros m; [reflexivity|].
    rewrite Nat2Z.inj_succ, (seqZ_cons m (Z.succ (Z.of_nat k))) by lia.
    rewrite bind_cons, length_app, length_fmap, length_seqZ.
    replace (Z.pred (Z.succ (Z.of_nat k))) with (Z.of_nat k) by lia.
    rewrite Nat2Z.inj_add, IH. lia. }
  rewrite Nat2Z.inj_succ, H by lia. lia.
Qed.

Lemma size_le_universe (rows cols : Z) (start : cell) (g : gmap cell Z) :
  (forall n v, g !! n = Some v -> n = start \/ in_bounds rows cols n = true) ->
  (size g <= length (universe rows cols start))%nat.
Proof.
  intros Hdom. rewrite <- length_map_to_list.
  rewrite <- (length_fmap fst (map_to_list g)).
  apply submseteq_length, NoDup_submseteq; [apply NoDup_fst_map_to_list|].
  intros n Hn. apply list_elem_of_fmap in Hn as ([k v] & -> & Hkv).
  apply elem_of_map_to_list in Hkv. simpl.
  destruct (Hdom k v Hkv) as [->|Hin]; [now left | now apply in_universe].
Qed.

(** *** One relaxation *)

Section Search.
Variable grid : grid.
Variables rows cols : Z.
Variables start end_ : cell.
Hypothesis Hrect : rectangular grid rows cols.

#[local] Abbreviation free := (free grid rows cols).
#[local] Abbreviation base := (a_star_base rows cols start end_).
#[local] Abbreviation frontier_at := (frontier_at grid rows cols end_).
#[local] Abbreviation expanding := (expanding grid rows cols start end_).
#[local] Abbreviation measure := (a_star_measure rows cols start).
#[local] Abbreviation pot := (pot rows cols start).
#[local] Abbreviation bound := (bound rows cols start).
#[local] Abbreviation universe := (universe rows cols start).

Lemma queued_mono (open_set open_set' : list entry) (n : cell) (v : Z) :
  (forall e, e ∈ open_set -> e ∈ open_set') ->
  queued end_ open_set n v -> queued end_ open_set' n v.
Proof. intros Hsub (f & Hf & Hle). exists f. split; [now apply Hsub | exact Hle]. Qed.

(** Direction [d] needs nothing: what it leads to is not free, or its
    score is low enough already. *)
Lemma relax_keep (current : cell) (done : list (Z * Z))
  (open_set : list entry) (g : gmap cell Z) (d : Z * Z) :
  expanding current done open_set g ->
  (forall gc, g !! current = Some gc -> free (move current d) ->
              exists vm, g !! move current d = Some vm /\ vm <= gc + 1) ->
  expanding current (d :: done) open_set g.
Proof.
  intros (Hbase & Hfront & gc & Hgc & Hrel) Hd.
  split; [exact Hbase|]. split; [exact Hfront|].
  exists gc. split; [exact Hgc|].
  intros d' [->|Hd']%elem_of_cons Hfree; [now apply Hd | now apply Hrel].
Qed.

(** Direction [d] leads to a free cell whose score improves. *)
Lemma relax_push (current : cell) (done : list (Z * Z))
  (open_set : list entry) (g : gmap cell Z) (d : Z * Z) (gc : Z) :
  d ∈ directions ->
  expanding current done open_set g ->
  g !! current = Some gc ->
  in_bounds rows cols (move current d) = true ->
  (forall gn, g !! move current d = Some gn -> gc + 1 < gn) ->
  expanding current (d :: done)
    (heappush open_set (gc + 1 + heuristic (move current d) end_,
                        move current d))
    (<[move current d := gc + 1]> g)
  /\ measure (heappush open_set (gc + 1 + heuristic (move current d) end_,
                                 move current d))
             (<[move current d := gc + 1]> g)
     <= measure open_set g.
Proof.
  intros Hd (Hbase & Hfront & gc' & Hgc' & Hrel) Hgc Hin Hbetter.
  assert (gc' = gc) as -> by congruence. clear Hgc'.
  set (nb := move current d) in *. set (t := gc + 1) in *.
  assert (Hnb : nb <> current) by now apply move_ne.
  destruct Hbase as [Hlower Hsize Hdom Hopen Hstart Hend].
  assert (Hgc0 : manhattan_distance start current <= gc) by now apply Hlower.
  assert (Hsz : (size g <= size (<[nb := t]> g))%nat
                /\ t + 1 <= Z.of_nat (size (<[nb := t]> g))).
  { destruct (g !! nb) as [gn|] eqn:Hgn.
    - rewrite map_size_insert_Some by (rewrite Hgn; eauto).
      split; [lia|]. pose proof (Hbetter gn eq_refl).
      pose proof (Hsize nb gn Hgn). lia.
    - rewrite map_size_insert_None by exact Hgn.
      split; [lia|]. pose proof (Hsize current gc Hgc). lia. }
  destruct Hsz as [Hsz1 Hsz2].
  assert (Hbase' : base (heappush open_set (t + heuristic nb end_, nb))
                        (<[nb := t]> g)).
  { split.
    - intros n v. rewrite lookup_insert. case_decide as Hn.
      + intros [= <-]. subst n.
        pose proof (manhattan_move start current d Hd). fold nb in H.
        unfold t. lia.
      + apply Hlower.
    - intros n v. rewrite lookup_insert. case_decide as Hn.
      + intros [= <-]. exact Hsz2.
      + intros Hv. pose proof (Hsize n v Hv). lia.
    - intros n v. rewrite lookup_insert. case_decide as Hn.
      + intros _. subst n. now right.
      + apply Hdom.
    - intros f n [[= -> ->]|Hn]%elem_of_cons.
      + rewrite lookup_insert_eq. eauto.
      + rewrite lookup_insert_is_Some. destruct (decide (nb = n)); [now left|].
        right. split; [assumption | now apply (Hopen f)].
    - destruct Hstart as (v0 & Hv0 & Hle0). exists v0. split; [|exact Hle0].
      rewrite lookup_insert_ne; [exact Hv0|].
      intros Heq. rewrite Heq in Hbetter. specialize (Hbetter v0 Hv0).
      pose proof (manhattan_self start).
      unfold manhattan_distance in Hgc0. unfold t in *. lia.
    - intros f [[= -> Heq]|Hf]%elem_of_cons.
      + exists t. rewrite <- Heq, lookup_insert_eq. split; [reflexivity|].
        match goal with
        | |- _ <= _ + ?h => assert (0 <= h) by apply heuristic_nonneg
        end. lia.
      + destruct (Hend f Hf) as (v & Hv & Hle).
        rewrite lookup_insert. case_decide as Hn.
        * exists t. split; [reflexivity|]. rewrite Hn in Hbetter.
          specialize (Hbetter v Hv). lia.
        * exists v. split; assumption. }
  assert (Hrelaxed : forall ds n v,
             n <> nb -> relaxed grid rows cols ds g n v ->
             relaxed grid rows cols ds (<[nb := t]> g) n v).
  { intros ds n v _ Hr d' Hd' Hfree.
    destruct (Hr d' Hd' Hfree) as (vm & Hvm & Hle).
    rewrite lookup_insert. case_decide as Hm.
    - exists t. split; [reflexivity|]. rewrite <- Hm in Hvm.
      specialize (Hbetter vm Hvm). lia.
    - exists vm. split; assumption. }
  split; [split; [exact Hbase'|]; split|].
  - intros n Hn v. rewrite lookup_insert. case_decide as Hnn.
    + intros [= <-]. left. exists (t + heuristic nb end_). subst n.
      split; [now left | lia].
    + intros Hv. destruct (Hfront n Hn v Hv) as [Hq|[Hne Hr]].
      * left. eapply queued_mono; [|exact Hq]. intros e He. now right.
      * right. split; [exact Hne|]. apply Hrelaxed; [congruence | exact Hr].
  - exists gc. split; [now rewrite lookup_insert_ne|].
    intros d' [->|Hd']%elem_of_cons Hfree.
    + exists t. fold nb. rewrite lookup_insert_eq. split; [reflexivity | lia].
    + apply (Hrelaxed done current gc); [congruence | exact Hrel | exact Hd' | exact Hfree].
  - unfold a_star_measure, heappush. simpl length.
    assert (Hlt : sumZ (pot (<[nb := t]> g) <$> universe)
                  < sumZ (pot g <$> universe)).
    { apply (sumZ_lt _ _ _ nb).
      - intros c _. unfold GridSpec.pot. rewrite lookup_insert.
        case_decide as Hc; [|reflexivity]. subst c. simpl.
        destruct (g !! nb) as [gn|] eqn:Hgn; simpl.
        + specialize (Hbetter gn eq_refl). lia.
        + pose proof (size_le_universe rows cols start (<[nb := t]> g)
                        (base_dom _ _ _ _ _ _ Hbase')).
          unfold GridSpec.bound. lia.
      - now apply in_universe.
      - unfold GridSpec.pot. rewrite lookup_insert_eq. simpl.
        destruct (g !! nb) as [gn|] eqn:Hgn; simpl.
        + specialize (Hbetter gn eq_refl). lia.
        + pose proof (size_le_universe rows cols start (<[nb := t]> g)
                        (base_dom _ _ _ _ _ _ Hbase')).
          unfold GridSpec.bound. lia. }
    lia.
Qed.

Lemma relax_step (current : cell) (done : list (Z * Z))
  (open_set : list entry) (g : gmap cell Z) (d : Z * Z) :
  d ∈ directions ->
  expanding current done open_set g ->
  exists open_set' g',
    relax grid rows cols end_ current (open_set, g) d = Ok (open_set', g')
    /\ expanding current (d :: done) open_set' g'
    /\ measure open_set' g' <= measure open_set g.
Proof.
  intros Hd Hexp. unfold relax.
  change (current.1 + d.1, current.2 + d.2) with (move current d).
  destruct (in_bounds rows cols (move current d)) eqn:Hin.
  - destruct (grid_at_in_bounds grid rows cols _ Hrect Hin) as [v Hv].
    rewrite Hv. destruct (Z.eqb_spec v 1) as [->|Hv1].
    + exists open_set, g. split; [reflexivity|]. split; [|lia].
      apply relax_keep; [exact Hexp|]. intros gc _ [_ Hfree]. contradiction.
    + pose proof Hexp as (_ & _ & gc & Hgc & _). rewrite Hgc.
      cbv zeta.
      destruct (g !! move current d) as [gn|] eqn:Hgn; rewrite ?Hgn.
      * destruct (Z.ltb_spec (gc + 1) gn) as [Hlt|Hge].
        -- eexists _, _. split; [reflexivity|].
           apply relax_push; try assumption.
           intros gn' Hgn'. assert (gn' = gn) as -> by congruence. exact Hlt.
        -- exists open_set, g. split; [reflexivity|]. split; [|lia].
           apply relax_keep; [exact Hexp|]. intros gc' Hgc' _.
           assert (gc' = gc) as -> by congruence. exists gn. split; [exact Hgn | lia].
      * eexists _, _. split; [reflexivity|].
        apply relax_push; try assumption. intros gn' Hgn'. congruence.
  - exists open_set, g. split; [reflexivity|]. split; [|lia].
    apply relax_keep; [exact Hexp|]. intros gc _ [Hfree _]. congruence.
Qed.

(** *** One iteration of the loop *)

Lemma expand_all (current : cell) (ds : list (Z * Z)) :
  (forall d, d ∈ ds -> d ∈ directions) ->
  forall done open_set g,
    expanding current done open_set g ->
    exists done' open_set' g',
      for_each (relax grid rows cols end_ current) ds (open_set, g)
      = Ok (open_set', g')
      /\ (forall d, d ∈ ds \/ d ∈ done -> d ∈ done')
      /\ expanding current done' open_set' g'
      /\ measure open_set' g' <= measure open_set g.
Proof.
  induction ds as [|d ds IH]; intros Hds done open_set g Hexp.
  - exists done, open_set, g. split; [reflexivity|].
    split; [|split; [exact Hexp | lia]].
    intros d [H|H]; [now apply elem_of_nil in H | exact H].
  - destruct (relax_step current done open_set g d) as
      (open1 & g1 & Hrelax & Hexp1 & Hm1);
      [apply Hds; now left | exact Hexp|].
    assert (Hds' : forall x, x ∈ ds -> x ∈ directions)
      by (intros x Hx; apply Hds; now right).
    destruct (IH Hds' (d :: done) open1 g1 Hexp1)
      as (done' & open2 & g2 & Hfor & Hsub & Hexp2 & Hm2).
    exists done', open2, g2. rewrite for_each_cons, Hrelax. cbn [res_bind].
    split; [exact Hfor|]. split; [|split; [exact Hexp2 | lia]].
    intros x [[->|Hx]%elem_of_cons|Hx]; apply Hsub.
    + right. now left.
    + now left.
    + right. now right.
Qed.

Lemma inv_pop (open_set open_set' : list entry) (g : gmap cell Z)
  (f : Z) (current : cell) :
  a_star_inv grid rows cols start end_ open_set g ->
  open_set ≡ₚ (f, current) :: open_set' ->
  expanding current [] open_set' g
  /\ measure open_set' g = measure open_set g - 1.
Proof.
  intros [[Hlower Hsize Hdom Hopen Hstart Hend] Hfront] Hperm.
  assert (Hsub : forall e, e ∈ open_set' -> e ∈ open_set).
  { intros e He. rewrite Hperm. now right. }
  split; [split; [|split]|].
  - split; try assumption.
    + intros f' n Hn. apply (Hopen f'). now apply Hsub.
    + intros f' Hf'. apply Hend. now apply Hsub.
  - intros n Hn v Hv. destruct (Hfront n v Hv) as [(f' & Hf' & Hle)|Hr].
    + left. exists f'. split; [|exact Hle].
      rewrite Hperm in Hf'. apply elem_of_cons in Hf' as [[= _ Heq]|Hf'];
        [congruence | exact Hf'].
    + now right.
  - destruct (Hopen f current) as [gc Hgc].
    { rewrite Hperm. now left. }
    exists gc. split; [exact Hgc|]. intros d Hd. now apply elem_of_nil in Hd.
  - unfold a_star_measure. rewrite (Permutation_length Hperm). simpl length.
    lia.
Qed.

Lemma inv_close (current : cell) (done : list (Z * Z))
  (open_set : list entry) (g : gmap cell Z) :
  expanding current done open_set g ->
  (forall d, d ∈ directions -> d ∈ done) ->
  current <> end_ ->
  a_star_inv grid rows cols start end_ open_set g.
Proof.
  intros (Hbase & Hfront & gc & Hgc & Hrel) Hall Hne.
  split; [exact Hbase|]. intros n.
  destruct (decide (n = current)) as [->|Hn]; [|now apply Hfront].
  intros v Hv. assert (v = gc) as -> by congruence.
  right. split; [exact Hne|]. intros d Hd. apply Hrel. now apply Hall.
Qed.

(** While a walk to the goal exists, the open set holds an entry that
    is not above the length of the walk. *)
Lemma inv_witness (open_set : list entry) (g : gmap cell Z) (p : list cell) :
  a_star_inv grid rows cols start end_ open_set g ->
  forall from v,
    g !! from = Some v ->
    is_path grid rows cols from p end_ ->
    exists f c, (f, c) ∈ open_set /\ f <= v + Z.of_nat (length p).
Proof.
  intros [Hbase Hfront].
  induction p as [|c p IH]; intros from v Hv Hpath.
  - simpl in Hpath. subst from.
    destruct (Hfront end_ v Hv) as [(f & Hf & Hle)|[Hne _]]; [|congruence].
    exists f, end_. split; [exact Hf|]. rewrite heuristic_self in Hle.
    simpl. lia.
  - pose proof (path_length_heuristic grid rows cols end_ (c :: p) from Hpath)
      as Hh.
    destruct Hpath as ((d & Hd & ->) & Hfree & Hpath).
    destruct (Hfront from v Hv) as [(f & Hf & Hle)|[_ Hr]].
    + exists f, from. split; [exact Hf | lia].
    + destruct (Hr d Hd Hfree) as (vm & Hvm & Hle).
      destruct (IH _ vm Hvm Hpath) as (f & c' & Hf & Hle').
      exists f, c'. split; [exact Hf|]. simpl length. lia.
Qed.

Lemma pot_nonneg (open_set : list entry) (g : gmap cell Z) (c : cell) :
  base open_set g -> 0 <= pot g c.
Proof.
  intros Hbase. unfold GridSpec.pot.
  destruct (g !! c) as [v|] eqn:Hv; simpl.
  - pose proof (base_lower _ _ _ _ _ _ Hbase c v Hv).
    unfold manhattan_distance in *. lia.
  - unfold GridSpec.bound. lia.
Qed.

Lemma sumZ_nonneg (f : cell -> Z) (l : list cell) :
  (forall c, 0 <= f c) -> 0 <= sumZ (f <$> l).
Proof.
  intros Hf. induction l as [|c l IH]; [reflexivity|].
  rewrite sumZ_cons. specialize (Hf c). lia.
Qed.

Lemma measure_nonneg (open_set : list entry) (g : gmap cell Z) :
  base open_set g -> 0 <= measure open_set g.
Proof.
  intros Hbase. unfold a_star_measure.
  pose proof (sumZ_nonneg (pot g) universe
                (fun c => pot_nonneg open_set g c Hbase)). lia.
Qed.

(** *** The loop *)

Section Path.
Variable p : list cell.
Hypothesis Hpath : is_path grid rows cols start p end_.

Lemma a_star_loop_correct (fuel : nat) :
  forall open_set g,
    a_star_inv grid rows cols start end_ open_set g ->
    measure open_set g < Z.of_nat fuel ->
    exists v,
      a_star_loop fuel grid rows cols end_ open_set g = Some (Ok v)
      /\ manhattan_distance start end_ <= v <= Z.of_nat (length p).
Proof.
  induction fuel as [|fuel IH]; intros open_set g Hinv Hfuel.
  - pose proof (measure_nonneg open_set g (proj1 Hinv)). lia.
  - rewrite a_star_loop_S.
    destruct (base_start _ _ _ _ _ _ (proj1 Hinv)) as (v0 & Hv0 & Hle0).
    destruct (inv_witness open_set g p Hinv start v0 Hv0 Hpath)
      as (fw & cw & Hw & Hfw).
    destruct (heappop open_set) as [[[f current] open_set']|] eqn:Hpop.
    2:{ apply heappop_None in Hpop. subst. now apply elem_of_nil in Hw. }
    apply heappop_Some in Hpop as [Hperm Hmin].
    specialize (Hmin _ Hw). simpl in Hmin.
    destruct (cell_eqb current end_) eqn:Heq.
    + apply cell_eqb_eq in Heq. subst current.
      destruct (base_end _ _ _ _ _ _ (proj1 Hinv) f) as (v & Hv & Hle).
      { rewrite Hperm. now left. }
      rewrite Hv. exists v. split; [reflexivity|].
      pose proof (base_lower _ _ _ _ _ _ (proj1 Hinv) end_ v Hv). lia.
    + assert (Hne : current <> end_).
      { intros H. apply cell_eqb_eq in H. congruence. }
      destruct (inv_pop open_set open_set' g f current Hinv Hperm)
        as [Hexp Hm].
      destruct (expand_all current directions (fun d Hd => Hd)
                           [] open_set' g Hexp)
        as (done' & open2 & g2 & Hfor & Hsub & Hexp2 & Hm2).
      rewrite Hfor. apply IH; [|lia].
      apply (inv_close current done'); [exact Hexp2 | | exact Hne].
      intros d Hd. apply Hsub. now left.
Qed.

End Path.

Lemma a_star_inv_initial :
  a_star_inv grid rows cols start end_ [(0, start)] {[start := 0]}.
Proof.
  split; [split|].
  - intros n v [<- <-]%lookup_singleton_Some. rewrite manhattan_self. lia.
  - intros n v [<- <-]%lookup_singleton_Some. rewrite map_size_singleton. lia.
  - intros n v [<- <-]%lookup_singleton_Some. now left.
  - intros f n [= -> ->]%list_elem_of_singleton.
    rewrite lookup_singleton_eq. eauto.
  - exists 0. split; [apply lookup_singleton_eq | lia].
  - intros f [= -> <-]%list_elem_of_singleton. exists 0.
    split; [apply lookup_singleton_eq | lia].
  - intros n v [<- <-]%lookup_singleton_Some. left. exists 0.
    split; [now apply list_elem_of_singleton|].
    pose proof (heuristic_nonneg start end_). lia.
Qed.

Lemma measure_initial :
  0 <= rows -> 0 <= cols ->
  measure [(0, start)] {[start := 0]}
  < 2 * (rows * cols + 1) * (rows * cols + 1) + 2.
Proof.
  intros Hr Hc. unfold a_star_measure. simpl length.
  pose proof (length_universe rows cols start Hr Hc) as Hlen.
  assert (Hb : sumZ (pot {[start := 0]} <$> universe)
               <= Z.of_nat (length universe) * bound).
  { apply sumZ_bound. intros c _. unfold GridSpec.pot.
    destruct (({[start := 0]} : gmap cell Z) !! c) as [v|] eqn:Hv; simpl.
    - apply lookup_singleton_Some in Hv as [_ <-]. unfold GridSpec.bound. lia.
    - lia. }
  unfold GridSpec.bound in Hb. rewrite Hlen in Hb. lia.
Qed.

End Search.

(** The search returns the length of a shortest walk: with enough fuel,
    on a rectangular grid on which a walk of free cells leads from
    [start] to [end_], the result lies between the Manhattan distance and
    the length of that walk. *)
Lemma a_star_correct (grid : grid) (rows cols : Z) (start end_ : cell)
  (p : list cell) (fuel : nat) :
  rectangular grid rows cols -> 0 < rows ->
  is_path grid rows cols start p end_ ->
  (a_star_fuel rows cols <= fuel)%nat ->
  exists v,
    a_star fuel grid start end_ = Some (Ok v)
    /\ manhattan_distance start end_ <= v <= Z.of_nat (length p).
Proof.
  intros Hrect Hrows Hpath Hfuel. unfold a_star.
  destruct Hrect as [Hlen Hcols].
  destruct grid as [|row0 grid']; [simpl in Hlen; lia|].
  assert (Hc0 : Z.of_nat (length row0) = cols).
  { rewrite Forall_forall in Hcols. apply Hcols. now left. }
  rewrite Hlen, Hc0.
  apply (a_star_loop_correct (row0 :: grid') rows cols start end_
           (conj Hlen Hcols) p Hpath).
  - apply a_star_inv_initial.
  - pose proof (measure_initial rows cols start) as Hm.
    unfold a_star_fuel in Hfuel. lia.
Qed.

(** *** Grids without obstacles on the border path *)

Lemma rectangular_empty (n : nat) :
  rectangular (empty_grid n) (Z.of_nat n) (Z.of_nat n).
Proof.
  unfold rectangular, empty_grid. rewrite length_replicate. split; [reflexivity|].
  apply Forall_forall. intros row [-> _]%elem_of_replicate.
  now rewrite length_replicate.
Qed.

Lemma grid_at_empty (n : nat) (c : cell) : grid_at (empty_grid n) c <> Some 1.
Proof.
  unfold grid_at, empty_grid.
  destruct (replicate n (replicate n 0) !! Z.to_nat c.1) as [row|] eqn:Hrow;
    [|intros [=]].
  apply lookup_replicate in Hrow as [-> _].
  intros [H _]%lookup_replicate. discriminate H.
Qed.

Lemma is_path_walk (grid : grid) (rows cols : Z) (d : Z * Z) (k : nat) :
  d ∈ directions ->
  forall c,
    (forall i, 1 <= i <= Z.of_nat k ->
               free grid rows cols (c.1 + i * d.1, c.2 + i * d.2)) ->
    is_path grid rows cols c (walk c d k)
            (c.1 + Z.of_nat k * d.1, c.2 + Z.of_nat k * d.2).
Proof.
  intros Hd. induction k as [|k IH]; intros c Hfree.
  - simpl. destruct c. simpl. f_equal; lia.
  - cbn [walk is_path]. split; [exists d; split; [exact Hd | reflexivity]|].
    split.
    + specialize (Hfree 1). unfold move.
      replace (c.1 + d.1) with (c.1 + 1 * d.1) by lia.
      replace (c.2 + d.2) with (c.2 + 1 * d.2) by lia.
      apply Hfree. lia.
    + replace (c.1 + Z.of_nat (S k) * d.1)
        with ((move c d).1 + Z.of_nat k * d.1) by (unfold move; simpl; lia).
      replace (c.2 + Z.of_nat (S k) * d.2)
        with ((move c d).2 + Z.of_nat k * d.2) by (unfold move; simpl; lia).
      apply IH. intros i Hi. unfold move. simpl.
      replace (c.1 + d.1 + i * d.1) with (c.1 + (i + 1) * d.1) by lia.
      replace (c.2 + d.2 + i * d.2) with (c.2 + (i + 1) * d.2) by lia.
      apply Hfree. lia.
Qed.

Lemma length_walk (c : cell) (d : Z * Z) (k : nat) : length (walk c d k) = k.
Proof. revert c. induction k as [|k IH]; intros c; simpl; [|rewrite IH]; reflexivity. Qed.

Lemma length_border_path (n : nat) :
  Z.of_nat (length (border_path n)) = 2 * (Z.of_nat (n - 1)).
Proof. unfold border_path. rewrite length_app, !length_walk. lia. Qed.

(** The border path is a walk when the first row and the last column
    are free. *)
Lemma is_path_border (grid : grid) (n : nat) :
  (1 <= n)%nat ->
  (forall c, 0 <= c.1 < Z.of_nat n -> 0 <= c.2 < Z.of_nat n ->
             c.1 = 0 \/ c.2 = Z.of_nat n - 1 ->
             grid_at grid c <> Some 1) ->
  is_path grid (Z.of_nat n) (Z.of_nat n) (0, 0) (border_path n)
          (Z.of_nat n - 1, Z.of_nat n - 1).
Proof.
  intros Hn Hfree. unfold border_path.
  assert (Hfree' : forall c, 0 <= c.1 < Z.of_nat n -> 0 <= c.2 < Z.of_nat n ->
                             c.1 = 0 \/ c.2 = Z.of_nat n - 1 ->
                             free grid (Z.of_nat n) (Z.of_nat n) c).
  { intros c H1 H2 H3. split; [unfold in_bounds; lia | now apply Hfree]. }
  apply (is_path_app _ _ _ _ _ (0, Z.of_nat n - 1)).
  - replace (0, Z.of_nat n - 1)
      with (((0, 0) : cell).1 + Z.of_nat (n - 1) * ((0, 1) : Z * Z).1,
            ((0, 0) : cell).2 + Z.of_nat (n - 1) * ((0, 1) : Z * Z).2)
      by (simpl; f_equal; lia).
    apply is_path_walk; [unfold directions; set_solver|].
    intros i Hi. apply Hfree'; simpl; lia.
  - replace (Z.of_nat n - 1, Z.of_nat n - 1)
      with (((0, Z.of_nat n - 1) : cell).1
            + Z.of_nat (n - 1) * ((1, 0) : Z * Z).1,
            ((0, Z.of_nat n - 1) : cell).2
            + Z.of_nat (n - 1) * ((1, 0) : Z * Z).2)
      by (simpl; f_equal; lia).
    apply is_path_walk; [unfold directions; set_solver|].
    intros i Hi. apply Hfree'; simpl; lia.
Qed.

(** On a square grid whose first row and last column are free, the
    search from the top left to the bottom right corner returns
    [2 (n - 1)]. *)
Lemma a_star_border (grid : grid) (n fuel : nat) :
  (1 <= n)%nat ->
  rectangular grid (Z.of_nat n) (Z.of_nat n) ->
  (forall c, 0 <= c.1 < Z.of_nat n -> 0 <= c.2 < Z.of_nat n ->
             c.1 = 0 \/ c.2 = Z.of_nat n - 1 ->
             grid_at grid c <> Some 1) ->
  (a_star_fuel (Z.of_nat n) (Z.of_nat n) <= fuel)%nat ->
  a_star fuel grid (0, 0) (Z.of_nat n - 1, Z.of_nat n - 1)
  = Some (Ok (2 * (Z.of_nat n - 1))).
Proof.
  intros Hn Hrect Hfree Hfuel.
  destruct (a_star_correct grid (Z.of_nat n) (Z.of_nat n) (0, 0)
              (Z.of_nat n - 1, Z.of_nat n - 1) (border_path n) fuel
              Hrect ltac:(lia) (is_path_border grid n Hn Hfree) Hfuel)
    as (v & -> & Hlo & Hhi).
  rewrite length_border_path in Hhi.
  unfold manhattan_distance in Hlo. simpl in Hlo.
  do 2 f_equal. lia.
Qed.

(** C7.  For every N >= 1, on the obstacle-free N by N grid the search
    from (0,0) to (N-1,N-1) returns, once the fuel is enough, exactly
    2(N-1). *)
Theorem a_star_obstacle_free (n fuel : nat) :
  (1 <= n)%nat ->
  (a_star_fuel (Z.of_nat n) (Z.of_nat n) <= fuel)%nat ->
  a_star fuel (empty_grid n) (0, 0) (Z.of_nat n - 1, Z.of_nat n - 1)
  = Some (Ok (2 * (Z.of_nat n - 1))).
Proof.
  intros Hn Hfuel. apply a_star_border; try assumption.
  - apply rectangular_empty.
  - intros c _ _ _. apply grid_at_empty.
Qed.

Lemma a_star_obstacle_free_witness :
  a_star (a_star_fuel 3 3) (empty_grid 3) (0, 0) (2, 2) = Some (Ok 4).
Proof.
  apply (a_star_obstacle_free 3 (a_star_fuel 3 3)); [lia | apply Nat.le_refl].
Defined.

End AStarFacts.

(** * Properties of the pathfinding generator *)

Module GeneratorFacts.
Import Generator GridSpec Inputs.

Lemma a_star_loop_mono (grid : grid) (rows cols : Z) (end_ : cell)
  (fuel : nat) :
  forall fuel' open_set g r,
    a_star_loop fuel grid rows cols end_ open_set g = Some r ->
    (fuel <= fuel')%nat ->
    a_star_loop fuel' grid rows cols end_ open_set g = Some r.
Proof.
  induction fuel as [|fuel IH]; intros fuel' open_set g r; [discriminate|].
  intros Hrun Hle. destruct fuel' as [|fuel']; [lia|].
  rewrite AStarFacts.a_star_loop_S in *.
  destruct (heappop open_set) as [[[f current] open_set']|]; [|exact Hrun].
  destruct (cell_eqb current end_); [exact Hrun|].
  destruct (for_each (relax grid rows cols end_ current) directions
                     (open_set', g)) as [[open2 g2]|e]; [|exact Hrun].
  apply IH; [exact Hrun | lia].
Qed.

Lemma a_star_mono (grid : grid) (start end_ : cell) (fuel fuel' : nat)
  (r : res Z) :
  a_star fuel grid start end_ = Some r -> (fuel <= fuel')%nat ->
  a_star fuel' grid start end_ = Some r.
Proof.
  unfold a_star. destruct grid as [|row0 grid']; [now intros|].
  apply a_star_loop_mono.
Qed.

(** *** Drawing the obstacles *)

Lemma randint_range (r : stream) (a b : Z) (i : nat) :
  a <= b -> a <= (randint r a b i).1 <= b.
Proof.
  intros Hab. unfold randint. simpl.
  pose proof (Z.mod_pos_bound (r i) (b - a + 1)). lia.
Qed.

Lemma randint_next (r : stream) (a b : Z) (i : nat) :
  (randint r a b i).2 = S i.
Proof. reflexivity. Qed.

Lemma draw_obstacles_S (fuel : nat) (r : stream) (grid_size num : Z)
  (obstacles : list cell) (i : nat) :
  draw_obstacles (S fuel) r grid_size num obstacles i =
  if Z.of_nat (length obstacles) <? num then
    draw_obstacles fuel r grid_size num
      (set_add ((randint r 1 (grid_size - 2) i).1,
                (randint r 1 (grid_size - 2) (S i)).1) obstacles)
      (S (S i))
  else Some (obstacles, i).
Proof. reflexivity. Qed.

Lemma draw_obstacles_O (r : stream) (grid_size num : Z)
  (obstacles : list cell) (i : nat) :
  draw_obstacles O r grid_size num obstacles i =
  if Z.of_nat (length obstacles) <? num then None else Some (obstacles, i).
Proof. reflexivity. Qed.

Lemma draw_obstacles_mono (r : stream) (grid_size num : Z) (fuel : nat) :
  forall fuel' obstacles i x,
    draw_obstacles fuel r grid_size num obstacles i = Some x ->
    (fuel <= fuel')%nat ->
    draw_obstacles fuel' r grid_size num obstacles i = Some x.
Proof.
  induction fuel as [|fuel IH]; intros fuel' obstacles i x.
  - rewrite draw_obstacles_O.
    destruct (Z.of_nat (length obstacles) <? num) eqn:E; [discriminate|].
    intros Hx _. destruct fuel';
      [rewrite draw_obstacles_O | rewrite draw_obstacles_S]; now rewrite E.
  - rewrite draw_obstacles_S. intros Hx Hle.
    destruct fuel' as [|fuel']; [lia|]. rewrite draw_obstacles_S.
    destruct (Z.of_nat (length obstacles) <? num); [|exact Hx].
    apply IH; [exact Hx | lia].
Qed.

Lemma draw_obstacles_interior (r : stream) (grid_size num : Z) (fuel : nat) :
  3 <= grid_size ->
  forall obstacles i obstacles' j,
    Forall (interior grid_size) obstacles ->
    draw_obstacles fuel r grid_size num obstacles i = Some (obstacles', j) ->
    Forall (interior grid_size) obstacles'.
Proof.
  intros Hsize.
  induction fuel as [|fuel IH]; intros obstacles i obstacles' j Hall.
  - rewrite draw_obstacles_O.
    destruct (Z.of_nat (length obstacles) <? num); [discriminate|].
    now intros [= <- _].
  - rewrite draw_obstacles_S.
    destruct (Z.of_nat (length obstacles) <? num); [|now intros [= <- _]].
    apply IH. unfold set_add.
    destruct (decide (_ ∈ obstacles)); [exact Hall|].
    apply Forall_app. split; [exact Hall|]. apply Forall_singleton.
    split; cbn [fst snd]; apply randint_range; lia.
Qed.

(** *** Placing the obstacles *)

Lemma rectangular_set_obstacle (g : grid) (rows cols : Z) (c : cell) :
  rectangular g rows cols -> rectangular (set_obstacle g c) rows cols.
Proof.
  intros [Hrows Hcols]. unfold set_obstacle.
  destruct (g !! Z.to_nat c.1) as [row|] eqn:Hrow; [|now split].
  split; [now rewrite length_insert|].
  apply Forall_insert; [exact Hcols|]. rewrite length_insert.
  rewrite Forall_forall in Hcols. apply Hcols.
  eapply list_elem_of_lookup_2. exact Hrow.
Qed.

Lemma grid_at_set_obstacle (g : grid) (c c' : cell) :
  grid_at (set_obstacle g c) c' = Some 1 ->
  (Z.to_nat c'.1 = Z.to_nat c.1 /\ Z.to_nat c'.2 = Z.to_nat c.2)
  \/ grid_at g c' = Some 1.
Proof.
  unfold set_obstacle.
  destruct (g !! Z.to_nat c.1) as [row|] eqn:Hrow; [|now right].
  unfold grid_at.
  destruct (decide (Z.to_nat c'.1 = Z.to_nat c.1)) as [Heq|Hne].
  - rewrite Heq, list_lookup_insert_eq by (eapply lookup_lt_Some; exact Hrow).
    rewrite Hrow.
    destruct (decide (Z.to_nat c'.2 = Z.to_nat c.2)) as [Heq2|Hne2];
      [now left|].
    rewrite list_lookup_insert_ne by congruence. now right.
  - rewrite list_lookup_insert_ne by congruence. now right.
Qed.

Lemma rectangular_place (obstacles : list cell) :
  forall (g : grid) rows cols,
    rectangular g rows cols ->
    rectangular (place_obstacles g obstacles) rows cols.
Proof.
  unfold place_obstacles.
  induction obstacles as [|c obstacles IH]; intros g rows cols Hg;
    [exact Hg|].
  simpl. apply IH. now apply rectangular_set_obstacle.
Qed.

Lemma grid_at_place (obstacles : list cell) (c' : cell) :
  forall g : grid,
    grid_at (place_obstacles g obstacles) c' = Some 1 ->
    (exists c, c ∈ obstacles /\ Z.to_nat c'.1 = Z.to_nat c.1
               /\ Z.to_nat c'.2 = Z.to_nat c.2)
    \/ grid_at g c' = Some 1.
Proof.
  unfold place_obstacles.
  induction obstacles as [|c obstacles IH]; intros g; [now right|].
  simpl. intros H. destruct (IH _ H) as [(c0 & Hc0 & Heq)|Hg].
  - left. exists c0. split; [now right | exact Heq].
  - apply grid_at_set_obstacle in Hg as [Heq|Hg]; [|now right].
    left. exists c. split; [now left | exact Heq].
Qed.

(** With the obstacles strictly inside, the first row and the last
    column stay free. *)
Lemma border_free (n : nat) (obstacles : list cell) (c : cell) :
  Forall (interior (Z.of_nat n)) obstacles ->
  0 <= c.1 < Z.of_nat n -> 0 <= c.2 < Z.of_nat n ->
  c.1 = 0 \/ c.2 = Z.of_nat n - 1 ->
  grid_at (place_obstacles (empty_grid n) obstacles) c <> Some 1.
Proof.
  intros Hall H1 H2 Hborder Hat.
  apply grid_at_place in Hat as [(o & Ho & Heq1 & Heq2)|Hat].
  - rewrite Forall_forall in Hall. destruct (Hall o Ho) as [Ho1 Ho2]. lia.
  - now apply AStarFacts.grid_at_empty in Hat.
Qed.

Lemma a_star_interior_obstacles (n fuel : nat) (obstacles : list cell) :
  (1 <= n)%nat ->
  Forall (interior (Z.of_nat n)) obstacles ->
  (a_star_fuel (Z.of_nat n) (Z.of_nat n) <= fuel)%nat ->
  a_star fuel (place_obstacles (empty_grid n) obstacles) (0, 0)
         (Z.of_nat n - 1, Z.of_nat n - 1)
  = Some (Ok (2 * (Z.of_nat n - 1))).
Proof.
  intros Hn Hall Hfuel. apply AStarFacts.a_star_border; try assumption.
  - apply rectangular_place, AStarFacts.rectangular_empty.
  - intros c H1 H2 H3. now apply border_free.
Qed.

(** *** The medium difficulty *)

Lemma generate_medium_S (fuel : nat) (r : stream) (task_id : Z) (i : nat) :
  generate_navigation_pathfinding (S fuel) r "medium" task_id i =
  match draw_obstacles fuel r 6 (randint r 3 6 i).1 [] (S i) with
  | None => None
  | Some (obstacles, i2) =>
      match a_star fuel (place_obstacles (empty_grid 6) obstacles)
                   (0, 0) (5, 5) with
      | None => None
      | Some (Raise e) => Some (Raise e, i2)
      | Some (Ok path_length) =>
          if path_length =? -1
          then generate_navigation_pathfinding fuel r "medium" task_id i2
          else Some (Ok (mk_nav_task task_id "medium" 6 (5, 5) obstacles
                                     path_length), i2)
      end
  end.
Proof. reflexivity. Qed.

Lemma a_star_medium (fuel : nat) (obstacles : list cell) :
  Forall (interior 6) obstacles ->
  (a_star_fuel 6 6 <= fuel)%nat ->
  a_star fuel (place_obstacles (empty_grid 6) obstacles) (0, 0) (5, 5)
  = Some (Ok 10).
Proof.
  intros Hall Hfuel.
  apply (a_star_interior_obstacles 6 fuel obstacles); [lia | exact Hall |].
  exact Hfuel.
Qed.

(** C4 (as the code has it).  The medium-difficulty generator has no
    retry cap and no generation error.  Its obstacle loop draws cells
    until the requested number of distinct cells is reached; the cells
    are strictly inside the grid, so a path of length 10 always exists
    and the redraw on "no path" never happens.  Hence: when the obstacle
    loop ends, generation returns a task with ground truth 10; whenever
    generation returns, it returns such a task and never an error; and
    when the obstacle loop never ends, neither does generation. *)
Theorem medium_generation (r : stream) (task_id : Z) (i : nat) :
  (forall (fuel0 fuel j : nat) (obstacles : list cell),
      draw_obstacles fuel0 r 6 (randint r 3 6 i).1 [] (S i)
      = Some (obstacles, j) ->
      (fuel0 <= fuel)%nat -> (a_star_fuel 6 6 <= fuel)%nat ->
      generate_navigation_pathfinding (S fuel) r "medium" task_id i
      = Some (Ok (mk_nav_task task_id "medium" 6 (5, 5) obstacles 10), j))
  /\ (forall (fuel : nat) (x : res nav_task * nat),
        generate_navigation_pathfinding fuel r "medium" task_id i = Some x ->
        exists task, x.1 = Ok task /\ nt_ground_truth task = 10)
  /\ ((forall fuel0, draw_obstacles fuel0 r 6 (randint r 3 6 i).1 [] (S i)
                     = None) ->
      forall fuel,
        generate_navigation_pathfinding fuel r "medium" task_id i = None).
Proof.
  split; [|split].
  - intros fuel0 fuel j obstacles Hdraw Hle Hfuel.
    rewrite generate_medium_S.
    rewrite (draw_obstacles_mono r 6 _ fuel0 fuel [] (S i) _ Hdraw Hle).
    rewrite a_star_medium; [reflexivity | | exact Hfuel].
    eapply (draw_obstacles_interior r 6); [lia | apply Forall_nil_2|].
    exact Hdraw.
  - intros [|fuel] x; [discriminate|]. rewrite generate_medium_S.
    destruct (draw_obstacles fuel r 6 (randint r 3 6 i).1 [] (S i))
      as [[obstacles j]|] eqn:Hdraw; [|discriminate].
    assert (Hall : Forall (interior 6) obstacles).
    { eapply (draw_obstacles_interior r 6); [lia | apply Forall_nil_2|].
      exact Hdraw. }
    destruct (a_star fuel (place_obstacles (empty_grid 6) obstacles)
                     (0, 0) (5, 5)) as [res|] eqn:Hstar; [|discriminate].
    apply (a_star_mono _ _ _ _ (Nat.max fuel (a_star_fuel 6 6))) in Hstar;
      [|lia].
    rewrite a_star_medium in Hstar; [|exact Hall | lia].
    injection Hstar as <-. simpl. intros [= <-]. eexists. split; reflexivity.
  - intros Hnever [|fuel]; [reflexivity|].
    rewrite generate_medium_S. now rewrite Hnever.
Qed.

Lemma medium_generation_witness :
  generate_navigation_pathfinding (S (a_star_fuel 6 6)) climbing_stream
                                  "medium" 1 0
  = Some (Ok (mk_nav_task 1 "medium" 6 (5, 5) [(1, 2); (2, 3); (3, 4)] 10),
          7%nat).
Proof.
  apply (proj1 (medium_generation climbing_stream 1 0) 3%nat).
  - reflexivity.
  - vm_compute. lia.
  - apply Nat.le_refl.
Defined.

Lemma stuck_draw (fuel : nat) :
  forall i, draw_obstacles fuel stuck_stream 6 3 [(1, 1)] i = None.
Proof.
  induction fuel as [|fuel IH]; intros i; [reflexivity|].
  rewrite draw_obstacles_S. apply IH.
Qed.

(** C4, as stated, fails: on the stream whose every draw is the lowest
    value, three obstacles are asked for, every drawn cell is (1,1), and
    the generation never returns, whatever the fuel. *)
Lemma medium_generation_runs_forever :
  (randint stuck_stream 3 6 0).1 = 3
  /\ forall fuel,
       generate_navigation_pathfinding fuel stuck_stream "medium" 1 0 = None.
Proof.
  split; [reflexivity|]. intros [|fuel]; [reflexivity|].
  rewrite generate_medium_S.
  change (randint stuck_stream 3 6 0).1 with 3.
  destruct fuel as [|fuel]; [reflexivity|].
  rewrite draw_obstacles_S. simpl Z.ltb. cbv iota.
  change (set_add _ []) with [((1, 1) : cell)].
  now rewrite stuck_draw.
Qed.

End GeneratorFacts.

(** * Further properties of the metrics *)

Module MetricsProps.
Import PyStr PyRe PyFloat PyNum Metrics Spec.
Import MetricsFacts NumberText AccuracyFacts.

Open Scope Q_scope.

(** ** compute_efficiency_score *)

(** X11: the efficiency score of every response lies in [0.3, 1.0]; it
    is 1.0 exactly for 50 to 200 words, and a response of at most 200
    words never scores below 0.5. *)
Theorem efficiency_score_range (response : list ascii) :
  0.3 <= compute_efficiency_score response
  /\ compute_efficiency_score response <= 1
  /\ (compute_efficiency_score response == 1
      <-> (50 <= word_count response <= 200)%Z)
  /\ ((word_count response <= 200)%Z
      -> 0.5 <= compute_efficiency_score response).
Proof.
  rewrite (efficiency_of_word_count (word_count response) response eq_refl).
  set (w := word_count response). clearbody w.
  unfold efficiency_closed_form.
  destruct (Z.leb_spec w 25); [repeat split; intros; qarith|].
  destruct (Z.ltb_spec w 50); [repeat split; intros; qarith|].
  destruct (Z.leb_spec w 200); [repeat split; intros; qarith|].
  destruct (Z.leb_spec w 550); repeat split; intros; qarith.
Qed.

(** ** compute_spatialeval_score *)

(** X12: for components in [0, 1] and weights that are not negative and
    sum to 1, the default weights among them, the composite score lies in
    [0, 100]. *)
Theorem composite_score_range (accuracy reasoning efficiency : Q)
  (weights : Q * Q * Q) :
  0 <= accuracy <= 1 -> 0 <= reasoning <= 1 -> 0 <= efficiency <= 1 ->
  0 <= weights.1.1 -> 0 <= weights.1.2 -> 0 <= weights.2 ->
  weights.1.1 + weights.1.2 + weights.2 == 1 ->
  exists v,
    compute_spatialeval_score (Fin accuracy) (Fin reasoning) (Fin efficiency)
      (Fin weights.1.1, Fin weights.1.2, Fin weights.2) = Ok (Fin v)
    /\ 0 <= v <= 100.
Proof.
  destruct weights as [[w_acc w_reas] w_eff]. cbn [fst snd].
  intros Ha Hr He Hwa Hwr Hwe Hsum.
  destruct (weighted_sum_close accuracy reasoning efficiency
              w_acc w_reas w_eff Ha Hr He)
    as (t & Ht & Ht0 & Hte); try (split; lra).
  apply Qabs_Qle_condition in Hte.
  assert (Hex : exact_weighted_sum accuracy reasoning efficiency
                  (w_acc, w_reas, w_eff) <= 100).
  { unfold exact_weighted_sum. cbn [fst snd].
    destruct Ha as [Ha0 Ha1], Hr as [Hr0 Hr1], He as [He0 He1].
    assert (accuracy * w_acc <= 1 * w_acc) by now apply Qmult_le_compat_r.
    assert (reasoning * w_reas <= 1 * w_reas)
      by now apply Qmult_le_compat_r.
    assert (efficiency * w_eff <= 1 * w_eff)
      by now apply Qmult_le_compat_r.
    lra. }
  destruct (round2_close t ltac:(split; lra)) as (v & Hv & Hv0 & _ & Hv1).
  exists v. split.
  - unfold compute_spatialeval_score. unfold weighted_sum in Ht.
    cbn [fst snd] in Ht. now rewrite Ht, Hv.
  - split; [exact Hv0 | apply Hv1; lra].
Qed.

Lemma composite_score_range_witness :
  exists v,
    compute_spatialeval_score (Fin 1) (Fin 0.5) (Fin 0.3) default_weights
    = Ok (Fin v)
    /\ 0 <= v <= 100.
Proof.
  assert (E : default_weights
              = (Fin (nearest 0.5), Fin (nearest 0.3), Fin (nearest 0.2)))
    by (vm_compute; reflexivity).
  rewrite E.
  apply (composite_score_range 1 0.5 0.3
           (nearest 0.5, nearest 0.3, nearest 0.2));
    try (split; discriminate); try discriminate;
    vm_compute; reflexivity.
Defined.

(** ** compute_reasoning_score *)

(** X13: the reasoning score is 0.5, plus 0.05 for each indicator phrase
    found up to six of them, plus 0.1 for an arithmetic expression, plus
    0.1 for an answer marker: the final [min(score, 1.0)] never changes
    the value, and the score is 1.0 exactly when at least six of the
    sixteen indicators, an arithmetic expression and an answer marker are
    all present. *)
Theorem reasoning_score_closed_form (response : list ascii) :
  let n := indicator_count (lower response) in
  compute_reasoning_score response
  == 0.5 + 0.05 * inject_Z (Z.of_nat (Nat.min n 6))
     + (if search_arithmetic response then 0.1 else 0)
     + (if search_marker (lower response) then 0.1 else 0)
  /\ (compute_reasoning_score response == 1
      <-> (6 <= n)%nat /\ search_arithmetic response = true
          /\ search_marker (lower response) = true).
Proof.
  intros n. unfold compute_reasoning_score. fold n.
  assert (Hmin : py_min (inject_Z (Z.of_nat n) * 0.05) 0.3
                 == 0.05 * inject_Z (Z.of_nat (Nat.min n 6))).
  { unfold py_min. destruct (Qlt_le_dec 0.3 (inject_Z (Z.of_nat n) * 0.05))
      as [H|H].
    - assert (Hn : (6 < n)%nat) by (revert H; qarith).
      replace (Nat.min n 6) with 6%nat by lia. reflexivity.
    - assert (Hn : (n <= 6)%nat) by (revert H; qarith).
      replace (Nat.min n 6) with n by lia. ring. }
  set (m := py_min (inject_Z (Z.of_nat n) * 0.05) 0.3) in *.
  assert (Hm : 0 <= m <= 0.3).
  { rewrite Hmin. assert (H6 : (Nat.min n 6 <= 6)%nat) by lia.
    set (k := Nat.min n 6) in *. clearbody k. clear Hmin.
    split; qarith. }
  assert (Hm6 : m == 0.3 <-> (6 <= n)%nat).
  { rewrite Hmin. destruct (Nat.le_gt_cases 6 n) as [Hn|Hn].
    - replace (Nat.min n 6) with 6%nat by lia. split; [lia | reflexivity].
    - replace (Nat.min n 6) with n by lia. split; [qarith | lia]. }
  assert (Hout : forall s, s <= 1 -> py_min s 1.0 == s).
  { intros s Hs. unfold py_min. destruct (Qlt_le_dec 1.0 s); lra. }
  destruct (search_arithmetic response), (search_marker (lower response));
    (rewrite Hout by lra); (split; [rewrite <- Hmin; lra|]).
  - split; [intros Hone; split; [apply Hm6; lra | tauto]|].
    intros (Hn & _ & _). apply Hm6 in Hn. lra.
  - split; [intros Hone; exfalso; lra | intros (_ & _ & Hb); discriminate].
  - split; [intros Hone; exfalso; lra | intros (_ & Ha & _); discriminate].
  - split; [intros Hone; exfalso; lra | intros (_ & Ha & _); discriminate].
Qed.

(** ** compute_accuracy: the values it returns *)

Lemma check_number_values (extracted_num : parsed) (truth score : Q) :
  check_number extracted_num truth = Some score ->
  score = 1.0 \/ score = 0.9 \/ score = 0.7.
Proof.
  unfold check_number. destruct extracted_num as [x|]; [|discriminate].
  destruct (Qltb (Qabs (x - truth)) 1e-6); [intros [= <-]; tauto|].
  destruct (negb (Qeq_bool truth 0)); [|discriminate].
  destruct (Qltb _ 0.01); [intros [= <-]; tauto|].
  destruct (Qltb _ 0.05); [intros [= <-]; tauto | discriminate].
Qed.

Lemma check_numbers_values (numbers : list (list ascii)) (truth : Q) :
  check_numbers numbers truth = 1.0 \/ check_numbers numbers truth = 0.9
  \/ check_numbers numbers truth = 0.7 \/ check_numbers numbers truth = 0.0.
Proof.
  induction numbers as [|num_str rest IH]; [simpl; tauto|].
  simpl. destruct (float_of_string num_str) as [x|]; [|exact IH].
  destruct (check_number x truth) as [score|] eqn:Hc; [|exact IH].
  apply check_number_values in Hc. tauto.
Qed.

Lemma accuracy_number_values (response : list ascii) (truth : res Q) :
  match accuracy_number response truth with
  | Ok a => a = 1.0 \/ a = 0.9 \/ a = 0.7 \/ a = 0.0
  | Raise e => truth = Raise e
  end.
Proof.
  unfold accuracy_number. destruct (findall_number response); [tauto|].
  destruct truth as [t|e]; [|reflexivity]. apply check_numbers_values.
Qed.

(** X14: whatever the response and the ground truth, [compute_accuracy]
    returns 0.0, 0.7, 0.9 or 1.0, and for a string or list ground truth
    only 0.0 or 1.0; the only exception it can raise is the
    [OverflowError] of an integer too large for a [float]. *)
Theorem accuracy_values (response : list ascii) (ground_truth : gtvalue) :
  match compute_accuracy response ground_truth with
  | Ok a =>
      match ground_truth with
      | GInt _ | GFloat _ => a = 1.0 \/ a = 0.9 \/ a = 0.7 \/ a = 0.0
      | _ => a = 1.0 \/ a = 0.0
      end
  | Raise e => e = OverflowError
  end.
Proof.
  induction ground_truth as [z|f|s|l IH|] using gtvalue_nested_ind.
  - cbn [compute_accuracy].
    pose proof (accuracy_number_values response (as_float z)) as H.
    destruct (accuracy_number response (as_float z)) as [a|e]; [exact H|].
    unfold as_float in H. destruct (_ <=? _)%Z; congruence.
  - cbn [compute_accuracy].
    pose proof (accuracy_number_values response (Ok (float_value f))) as H.
    destruct (accuracy_number response (Ok (float_value f))) as [a|e];
      [exact H | discriminate H].
  - cbn [compute_accuracy]. rewrite accuracy_string_contains.
    destruct (contains _ _); tauto.
  - induction IH as [|g l Hg _ IHl].
    + rewrite compute_accuracy_nil. tauto.
    + rewrite compute_accuracy_cons.
      destruct (compute_accuracy response g) as [a|e]; [|exact Hg].
      cbn [res_bind]. destruct (Qltb 0.5 a); [tauto | exact IHl].
  - cbn [compute_accuracy]. tauto.
Qed.

(** ** compute_accuracy: numbers in the response *)

Lemma starts_number_digit (c : ascii) (s : list ascii) :
  starts_number c s = true -> existsb is_digit (c :: s) = true.
Proof.
  unfold starts_number. intros H. simpl.
  destruct (is_digit c); [reflexivity|]. simpl in *.
  destruct s as [|d s]; [rewrite andb_false_r in H; discriminate|].
  apply andb_true_iff in H as [_ H]. simpl. now rewrite H.
Qed.

Lemma findall_number_from_digit (s : list ascii) :
  forall st,
    findall_number_from s st = [] ->
    st = Idle /\ existsb is_digit s = false.
Proof.
  induction s as [|c s IH]; intros st H.
  - destruct st; [now split | discriminate..].
  - simpl in H. destruct st as [|acc|acc].
    + split; [reflexivity|].
      destruct (starts_number c s) eqn:Hs.
      * apply IH in H as [[=] _].
      * apply IH in H as [_ H]. simpl. rewrite H.
        unfold starts_number in Hs. apply orb_false_iff in Hs as [-> _].
        reflexivity.
    + destruct (is_digit c); [apply IH in H as [[=] _]|].
      destruct (is_dot c); [apply IH in H as [[=] _] | discriminate].
    + destruct (is_digit c); [apply IH in H as [[=] _] | discriminate].
Qed.

Lemma findall_number_no_digit (s : list ascii) :
  existsb is_digit s = false -> findall_number s = [].
Proof.
  unfold findall_number. induction s as [|c s IH]; [reflexivity|].
  simpl. intros [Hc Hs]%orb_false_iff.
  destruct (starts_number c s) eqn:Hst; [|now apply IH].
  apply starts_number_digit in Hst. simpl in Hst. now rewrite Hc, Hs in Hst.
Qed.

(** X15: the pattern finds a number in a response exactly when the
    response holds a digit.  So a response without a digit scores 0.0
    against every integer, however large; a response with a digit makes
    an integer ground truth of magnitude 2^1024 - 2^970 or more raise
    [OverflowError]; every smaller integer is scored without an
    exception. *)
Theorem int_accuracy_overflow (response : list ascii) (z : Z) :
  (existsb is_digit response = false ->
   compute_accuracy response (GInt z) = Ok 0.0)
  /\ (existsb is_digit response = true ->
      (float_limit <= Z.abs z)%Z ->
      compute_accuracy response (GInt z) = Raise OverflowError)
  /\ ((Z.abs z < float_limit)%Z ->
      exists a, compute_accuracy response (GInt z) = Ok a).
Proof.
  cbn [compute_accuracy]. unfold accuracy_number, as_float.
  split; [|split].
  - intros H. now rewrite (findall_number_no_digit response H).
  - intros Hd Hz. destruct (findall_number response) eqn:Hf.
    + apply findall_number_from_digit in Hf as [_ Hf]. congruence.
    + destruct (Z.leb_spec float_limit (Z.abs z)); [reflexivity | lia].
  - intros Hz. destruct (findall_number response); [now eexists|].
    destruct (Z.leb_spec float_limit (Z.abs z)); [lia|]. now eexists.
Qed.

Lemma int_accuracy_overflow_witness :
  compute_accuracy (chars "about 7") (GInt (2 ^ 1024))
  = Raise OverflowError.
Proof.
  apply (proj1 (proj2 (int_accuracy_overflow (chars "about 7") (2 ^ 1024)))).
  - reflexivity.
  - vm_compute. discriminate.
Defined.

(** *** The last number decides *)

Lemma starts_number_space (c : ascii) (p t : list ascii) :
  starts_number c (p ++ " "%char :: t) = starts_number c p.
Proof. now destruct p. Qed.

Lemma findall_number_from_space (p t : list ascii) :
  forall st,
    findall_number_from (p ++ " "%char :: t) st
    = findall_number_from p st ++ findall_number_from t Idle.
Proof.
  induction p as [|c p IH]; intros st.
  - destruct st; reflexivity.
  - cbn [app findall_number_from]. rewrite starts_number_space.
    destruct st as [|acc|acc].
    + destruct (starts_number c p); apply IH.
    + destruct (is_digit c); [apply IH|].
      destruct (is_dot c); [apply IH|].
      cbn [app]. f_equal. destruct (starts_number c p); apply IH.
    + destruct (is_digit c); [apply IH|].
      cbn [app]. f_equal. destruct (starts_number c p); apply IH.
Qed.

Lemma check_numbers_app (numbers others : list (list ascii)) (truth : Q) :
  ~ check_numbers numbers truth == 0 ->
  check_numbers (numbers ++ others) truth = check_numbers numbers truth.
Proof.
  induction numbers as [|num_str rest IH]; intros Hnz.
  - exfalso. apply Hnz. reflexivity.
  - cbn [app check_numbers] in *.
    destruct (float_of_string num_str) as [x|]; [|now apply IH].
    destruct (check_number x truth); [reflexivity | now apply IH].
Qed.

Lemma accuracy_number_prefix (prefix response : list ascii) (truth : res Q)
  (a : Q) :
  accuracy_number response truth = Ok a -> ~ a == 0 ->
  accuracy_number (prefix ++ " "%char :: response) truth = Ok a.
Proof.
  unfold accuracy_number, findall_number. intros Ha Hnz.
  rewrite findall_number_from_space.
  destruct (findall_number_from response Idle) as [|n ns] eqn:Hf.
  { injection Ha as <-. exfalso. apply Hnz. reflexivity. }
  destruct truth as [t|e]; [|discriminate Ha].
  cbn [res_bind] in *. injection Ha as <-.
  destruct (findall_number_from prefix Idle ++ n :: ns) eqn:Happ.
  { now apply app_eq_nil in Happ as [_ [=]]. }
  rewrite <- Happ, rev_app_distr. f_equal. now apply check_numbers_app.
Qed.

(** X16: for a numeric ground truth the numbers of the response are
    tried from the last one back, and the first that earns credit
    decides: putting any text and a space in front of a response whose
    score is not 0.0 leaves the score unchanged, even when that text
    holds the exact answer and the response only a near one. *)
Theorem last_number_decides (prefix response : list ascii)
  (ground_truth : gtvalue) (a : Q) :
  match ground_truth with GInt _ | GFloat _ => True | _ => False end ->
  compute_accuracy response ground_truth = Ok a -> ~ a == 0 ->
  compute_accuracy (prefix ++ " "%char :: response) ground_truth = Ok a.
Proof.
  intros Hnum Ha Hnz. destruct ground_truth; try contradiction;
    cbn [compute_accuracy] in *; now apply accuracy_number_prefix.
Qed.

Lemma last_number_decides_witness :
  compute_accuracy (chars "42" ++ " "%char :: chars "or 42.5") (GInt 42)
  = Ok 0.7.
Proof.
  apply (last_number_decides (chars "42") (chars "or 42.5") (GInt 42) 0.7).
  - exact I.
  - vm_compute. reflexivity.
  - discriminate.
Defined.

(** X17: a response that ends with a space followed by the text of the
    ground truth scores 1.0 whatever comes before, for every integer
    that converts to a float and every float printed in positional
    notation. *)
Theorem final_answer_match :
  (forall (prefix : list ascii) (z : Z),
      (Z.abs z < float_limit)%Z ->
      compute_accuracy (prefix ++ " "%char :: str_number (GInt z)) (GInt z)
      = Ok 1.0)
  /\ (forall (prefix : list ascii) (f : pyfloat),
        float_digits_ok f -> positional f ->
        compute_accuracy (prefix ++ " "%char :: str_number (GFloat f))
                         (GFloat f) = Ok 1.0).
Proof.
  split.
  - intros prefix z Hz. pose proof (int_self_match z Hz) as H.
    cbn [compute_accuracy] in *.
    apply accuracy_number_prefix; [exact H | discriminate].
  - intros prefix f Hok Hpos. pose proof (float_self_match f Hok Hpos) as H.
    cbn [compute_accuracy] in *.
    apply accuracy_number_prefix; [exact H | discriminate].
Qed.

Lemma final_answer_match_witness :
  compute_accuracy (chars "Step 1: 3 + 4 = 7. The answer is"
                    ++ " "%char :: str_number (GInt 14)) (GInt 14) = Ok 1.0
  /\ compute_accuracy (chars "Area:" ++ " "%char
                       :: str_number (GFloat Inputs.fifteen_and_a_half))
                      (GFloat Inputs.fifteen_and_a_half) = Ok 1.0.
Proof.
  destruct final_answer_match as [Hint Hfloat]. split.
  - apply Hint. vm_compute. reflexivity.
  - apply Hfloat.
    + split; [discriminate | reflexivity].
    + split; vm_compute; [reflexivity | discriminate].
Defined.

(** ** compute_accuracy: string ground truths *)

Lemma contains_decompose (p : list ascii) :
  forall s, contains s p = true -> exists a b, s = a ++ p ++ b.
Proof.
  induction s as [|c s IH]; simpl; intros H.
  - rewrite orb_false_r in H. apply startswith_prefix in H as [t ->].
    now exists [], t.
  - apply orb_true_iff in H as [H|H].
    + apply startswith_prefix in H as [t ->]. now exists [], t.
    + apply IH in H as (a & b & ->). now exists (c :: a), b.
Qed.

Lemma lstrip_suffix (s : list ascii) : exists u, s = u ++ lstrip s.
Proof.
  induction s as [|c s [u IH]]; [now exists []|]. simpl.
  destruct (is_space c); [|now exists []].
  exists (c :: u). simpl. now f_equal.
Qed.

Lemma lstrip_head (s : list ascii) (c : ascii) (s' : list ascii) :
  lstrip s = c :: s' -> is_space c = false.
Proof.
  induction s as [|d s IH]; [discriminate|]. simpl.
  destruct (is_space d) eqn:Hd; [exact IH|]. now intros [= <- _].
Qed.

Lemma rstrip_prefix (s : list ascii) : exists w, s = rstrip s ++ w.
Proof.
  unfold rstrip. destruct (lstrip_suffix (rev s)) as [u Hu].
  exists (rev u). rewrite <- rev_app_distr, <- Hu. now rewrite rev_involutive.
Qed.

(** The stripped text starts and ends with a character that is not
    white space. *)
Lemma strip_head (s : list ascii) (c : ascii) (t : list ascii) :
  strip s = c :: t -> is_space c = false.
Proof.
  unfold strip. intros H.
  destruct (rstrip_prefix (lstrip s)) as [w Hw]. rewrite H in Hw.
  now apply (lstrip_head s c (t ++ w)).
Qed.

Lemma strip_last (s : list ascii) (t : list ascii) (c : ascii) :
  strip s = t ++ [c] -> is_space c = false.
Proof.
  unfold strip, rstrip. intros H.
  apply (f_equal (@rev ascii)) in H.
  rewrite rev_involutive, rev_app_distr in H. simpl in H.
  now apply lstrip_head in H.
Qed.

Lemma lstrip_keeps (p : list ascii) :
  (forall c t, p = c :: t -> is_space c = false) ->
  forall s, contains s p = true -> contains (lstrip s) p = true.
Proof.
  intros Hhead. induction s as [|c s IH]; intros H; [exact H|].
  simpl. destruct (is_space c) eqn:Hc; [|exact H].
  simpl in H. apply orb_true_iff in H as [H|H]; [|now apply IH].
  destruct p as [|d p]; [now destruct (lstrip s)|].
  simpl in H. apply andb_true_iff in H as [Hd _].
  apply ascii_eqb_eq in Hd. subst d.
  rewrite (Hhead c p eq_refl) in Hc. discriminate Hc.
Qed.

Lemma contains_rev (s p : list ascii) :
  contains s p = true -> contains (rev s) (rev p) = true.
Proof.
  intros (a & b & ->)%contains_decompose.
  rewrite !rev_app_distr, <- app_assoc. apply contains_infix.
Qed.

Lemma rstrip_keeps (p : list ascii) :
  (forall t c, p = t ++ [c] -> is_space c = false) ->
  forall s, contains s p = true -> contains (rstrip s) p = true.
Proof.
  intros Hlast s H. unfold rstrip.
  rewrite <- (rev_involutive p). apply contains_rev.
  apply lstrip_keeps; [|now apply contains_rev].
  intros c t Hp. apply (Hlast (rev t) c).
  rewrite <- (rev_involutive p), Hp. reflexivity.
Qed.

Lemma strip_keeps (s x : list ascii) :
  contains s (strip x) = true -> contains (strip s) (strip x) = true.
Proof.
  intros H. unfold strip at 1.
  apply rstrip_keeps; [intros t c; apply strip_last|].
  apply lstrip_keeps; [intros c t; apply strip_head | exact H].
Qed.

Lemma strip_infix (x : list ascii) : exists u w, x = u ++ strip x ++ w.
Proof.
  destruct (lstrip_suffix x) as [u Hu].
  destruct (rstrip_prefix (lstrip x)) as [w Hw].
  exists u, w. unfold strip. now rewrite <- Hw.
Qed.

(** X18: for a response and a ground truth string made of characters
    below code point 256 (Latin-1), where [str.lower] changes each
    character on its own: a response in which the ground truth string
    occurs, in any letter case, with or without its surrounding white
    space and with anything before or after it, scores 1.0; so does the
    ground truth itself. *)
Theorem accuracy_string_embedded (before after s s' : list ascii) :
  strip (lower s') = strip (lower s) ->
  compute_accuracy (before ++ s' ++ after) (GStr s) = Ok 1.0.
Proof.
  intros Hs. cbn [compute_accuracy]. rewrite accuracy_string_contains.
  rewrite strip_keeps; [reflexivity|].
  unfold lower at 1. rewrite !map_app.
  fold (lower before) (lower s') (lower after).
  destruct (strip_infix (lower s')) as (u & w & Hx).
  rewrite Hx, Hs.
  replace (lower before ++ (u ++ strip (lower s) ++ w) ++ lower after)
    with ((lower before ++ u) ++ strip (lower s) ++ (w ++ lower after))
    by now rewrite <- !app_assoc.
  apply contains_infix.
Qed.

Lemma accuracy_string_embedded_witness :
  compute_accuracy (chars "The answer is " ++ chars "YES" ++ chars ".")
                   (GStr (chars " Yes ")) = Ok 1.0.
Proof.
  apply (accuracy_string_embedded (chars "The answer is ") (chars ".")
           (chars " Yes ") (chars "YES")).
  reflexivity.
Defined.

End MetricsProps.

(** * Further properties of the data loading utilities *)

Module DataProps.
Import Data Spec Inputs DataFacts.

#[local] Arguments mem : simpl never.

Lemma getitem_dict_get {V : Type} (d : list (string * V)) (k : string) :
  getitem d k = match dict_get k d with
                | Some v => Ok v
                | None => Raise KeyError
                end.
Proof.
  induction d as [|[k' v] d IH]; simpl; [reflexivity|].
  destruct (String.eqb k k'); [reflexivity | exact IH].
Qed.

(** ** load_category *)

Lemma load_one_category (CATEGORIES : list string) (data_dir : files)
  (category : string) (ds : list string) :
  match (let! dataset := load_categories CATEGORIES data_dir [category] ds []
         in getitem dataset category) with
  | Ok entry =>
      mem category CATEGORIES = true
      /\ forallb (fun d => mem d DIFFICULTIES) ds = true
      /\ forall d, dict_get d entry
                   = if mem d ds then Some (stored data_dir category d)
                     else None
  | Raise e =>
      (exists msg, e = ValueError msg)
      /\ (mem category CATEGORIES = false
          \/ forallb (fun d => mem d DIFFICULTIES) ds = false)
  end.
Proof.
  cbn [load_categories].
  destruct (mem category CATEGORIES) eqn:Hc; cbn [negb];
    [|split; [eexists; reflexivity | now left]].
  destruct (forallb (fun d => mem d DIFFICULTIES) ds) eqn:Hd.
  - destruct (load_difficulties_ok data_dir category ds Hd [])
      as (entry & -> & Hentry).
    cbn [res_bind dict_set getitem]. rewrite String.eqb_refl.
    split; [reflexivity|]. split; [reflexivity|]. exact Hentry.
  - destruct (load_difficulties_raise data_dir category ds Hd [])
      as (msg & ->).
    cbn [res_bind]. split; [now exists msg | now right].
Qed.

(** X19: [load_category] never fails with a [KeyError]: it raises a
    [ValueError] when the category is unknown or a difficulty is unknown,
    and otherwise returns a dictionary that has, for each requested
    difficulty, the tasks of its file, or the empty list when the file
    is missing, and no other key.  This holds for both packages. *)
Theorem load_category_result (data_dir : files) (category : string)
  (difficulties : option (list string)) :
  let ds := default DIFFICULTIES difficulties in
  match SpatialOps.load_category category data_dir difficulties with
  | Ok entry =>
      mem category SpatialOps.CATEGORIES = true
      /\ forallb (fun d => mem d DIFFICULTIES) ds = true
      /\ forall d, dict_get d entry
                   = if mem d ds then Some (stored data_dir category d)
                     else None
  | Raise e =>
      (exists msg, e = ValueError msg)
      /\ (mem category SpatialOps.CATEGORIES = false
          \/ forallb (fun d => mem d DIFFICULTIES) ds = false)
  end
  /\ match SpatialEval.load_category category data_dir difficulties with
     | Ok entry =>
         mem category SpatialEval.CATEGORIES = true
         /\ forallb (fun d => mem d DIFFICULTIES) ds = true
         /\ forall d, dict_get d entry
                      = if mem d ds then Some (stored data_dir category d)
                        else None
     | Raise e =>
         (exists msg, e = ValueError msg)
         /\ (mem category SpatialEval.CATEGORIES = false
             \/ forallb (fun d => mem d DIFFICULTIES) ds = false)
     end.
Proof.
  intros ds. split.
  - apply (load_one_category SpatialOps.CATEGORIES data_dir category ds).
  - apply (load_one_category SpatialEval.CATEGORIES data_dir category ds).
Qed.

(** ** load_tier *)

Lemma dict_set_keys {V : Type} (k : string) (v : V) (d : list (string * V)) :
  map fst (dict_set k v d)
  = if mem k (map fst d) then map fst d else map fst d ++ [k].
Proof.
  unfold mem. induction d as [|[k' v'] d IH]; simpl; [reflexivity|].
  destruct (String.eqb_spec k k') as [->|Hne]; simpl; [reflexivity|].
  rewrite IH. now destruct (existsb (String.eqb k) (map fst d)).
Qed.

Lemma load_categories_keys (CATEGORIES : list string) (data_dir : files)
  (categories difficulties : list string) :
  forall dataset0 ds,
    load_categories CATEGORIES data_dir categories difficulties dataset0
    = Ok ds ->
    map fst ds
    = fold_left (fun ks c => if mem c ks then ks else ks ++ [c]) categories
                (map fst dataset0).
Proof.
  induction categories as [|c categories IH]; intros dataset0 ds H.
  - injection H as <-. reflexivity.
  - cbn [load_categories] in H.
    destruct (negb (mem c CATEGORIES)); [discriminate H|].
    destruct (load_difficulties data_dir c difficulties []) as [entry|e];
      [|discriminate H].
    cbn [res_bind] in H. apply IH in H. rewrite H, dict_set_keys.
    reflexivity.
Qed.

Lemma load_known_categories (data_dir : files)
  (categories difficulties : list string) :
  categories <> [] ->
  forallb (fun c => mem c SpatialOps.CATEGORIES) categories = true ->
  fold_left (fun ks c => if mem c ks then ks else ks ++ [c]) categories []
  = categories ->
  match load_categories SpatialOps.CATEGORIES data_dir categories
                        difficulties [] with
  | Ok dataset =>
      forallb (fun d => mem d DIFFICULTIES) difficulties = true
      /\ map fst dataset = categories
      /\ forall c d, In c categories -> In d difficulties ->
                     tasks_of dataset c d = Some (stored data_dir c d)
  | Raise e =>
      (exists msg, e = ValueError msg)
      /\ forallb (fun d => mem d DIFFICULTIES) difficulties = false
  end.
Proof.
  intros Hne Hknown Hkeys.
  pose proof (load_categories_spec SpatialOps.CATEGORIES data_dir categories
                difficulties []) as [Hspec _].
  pose proof (load_categories_keys SpatialOps.CATEGORIES data_dir categories
                difficulties []) as Hk.
  unfold load_rejects in Hspec. rewrite Hknown in Hspec.
  destruct categories as [|c0 categories]; [contradiction|].
  cbn [negb orb andb] in Hspec.
  destruct (load_categories SpatialOps.CATEGORIES data_dir (c0 :: categories)
                            difficulties []) as [dataset|e].
  - destruct Hspec as [Hrej Htasks].
    split; [now apply negb_false_iff in Hrej|].
    split; [|exact Htasks]. rewrite (Hk dataset eq_refl). exact Hkeys.
  - destruct Hspec as [Hmsg Hrej].
    split; [exact Hmsg | now apply negb_true_iff in Hrej].
Qed.

(** X20: [load_tier] raises a [ValueError] for a tier other than 1, 2 or
    3 and for an unknown difficulty; otherwise it returns exactly the four
    categories of the tier, in their order, each with the tasks of its
    files.  With a tier given, [load_dataset] ignores its [categories]
    argument, even one that names an unknown category. *)
Theorem load_tier_result (data_dir : files) (tier : Z)
  (difficulties categories : option (list string)) :
  let ds := default DIFFICULTIES difficulties in
  SpatialOps.load_dataset data_dir categories difficulties (Some tier)
  = SpatialOps.load_tier tier data_dir difficulties
  /\ match SpatialOps.load_tier tier data_dir difficulties with
     | Ok dataset =>
         forallb (fun d => mem d DIFFICULTIES) ds = true
         /\ ((tier = 1 /\ map fst dataset = SpatialOps.TIER_1_CATEGORIES)
             \/ (tier = 2 /\ map fst dataset = SpatialOps.TIER_2_CATEGORIES)
             \/ (tier = 3 /\ map fst dataset = SpatialOps.TIER_3_CATEGORIES))
         /\ forall c d, In c (map fst dataset) -> In d ds ->
                        tasks_of dataset c d = Some (stored data_dir c d)
     | Raise e =>
         (exists msg, e = ValueError msg)
         /\ (~ 1 <= tier <= 3
             \/ forallb (fun d => mem d DIFFICULTIES) ds = false)
     end.
Proof.
  intros ds. split; [reflexivity|].
  unfold SpatialOps.load_tier, SpatialOps.load_dataset. fold ds.
  destruct (Z.eqb_spec tier 1) as [->|H1];
    [|destruct (Z.eqb_spec tier 2) as [->|H2];
      [|destruct (Z.eqb_spec tier 3) as [->|H3]]];
    cbn [res_bind].
  - pose proof (load_known_categories data_dir SpatialOps.TIER_1_CATEGORIES ds
                  ltac:(discriminate) eq_refl eq_refl) as H.
    destruct (load_categories _ _ SpatialOps.TIER_1_CATEGORIES ds [])
      as [dataset|e].
    + destruct H as (Hd & Hk & Ht). split; [exact Hd|].
      split; [now left|]. now rewrite Hk.
    + destruct H as [Hmsg Hd]. split; [exact Hmsg | now right].
  - pose proof (load_known_categories data_dir SpatialOps.TIER_2_CATEGORIES ds
                  ltac:(discriminate) eq_refl eq_refl) as H.
    destruct (load_categories _ _ SpatialOps.TIER_2_CATEGORIES ds [])
      as [dataset|e].
    + destruct H as (Hd & Hk & Ht). split; [exact Hd|].
      split; [now right; left|]. now rewrite Hk.
    + destruct H as [Hmsg Hd]. split; [exact Hmsg | now right].
  - pose proof (load_known_categories data_dir SpatialOps.TIER_3_CATEGORIES ds
                  ltac:(discriminate) eq_refl eq_refl) as H.
    destruct (load_categories _ _ SpatialOps.TIER_3_CATEGORIES ds [])
      as [dataset|e].
    + destruct H as (Hd & Hk & Ht). split; [exact Hd|].
      split; [now right; right|]. now rewrite Hk.
    + destruct H as [Hmsg Hd]. split; [exact Hmsg | now right].
  - split; [eexists; reflexivity|]. left. lia.
Qed.

(** ** Task.tier and Task.category_code *)

(** X21: the tier of a task is 1, 2 or 3 exactly when its category is
    one of the twelve known categories, and 0 otherwise; the category
    code is "UNK" exactly when the tier is 0. *)
Theorem tier_and_category_code (self : SpatialOps.Task) :
  0 <= SpatialOps.tier self <= 3
  /\ (SpatialOps.tier self = 0
      <-> mem (SpatialOps.Task_category self) SpatialOps.CATEGORIES = false)
  /\ (SpatialOps.tier self = 0
      <-> SpatialOps.category_code self = "UNK"%string).
Proof.
  unfold SpatialOps.tier, SpatialOps.category_code, get, mem.
  set (c := SpatialOps.Task_category self). clearbody c.
  cbn [SpatialOps.CATEGORIES SpatialOps.TIER_1_CATEGORIES
       SpatialOps.TIER_2_CATEGORIES SpatialOps.TIER_3_CATEGORIES
       SpatialOps.CATEGORY_CODES app existsb getitem].
  repeat match goal with
         | |- context [String.eqb c ?l] =>
             destruct (String.eqb_spec c l) as [->|?];
             [vm_compute; repeat split; intros; (discriminate || lia)|]
         end.
  cbn [orb]. repeat split; intros; (reflexivity || lia).
Qed.

(** ** get_task_count *)

Lemma count_values_spec (category : string)
  (category_data : list (string * list task)) :
  forall count,
    count_values category_data count
    = count
      + Z.of_nat (length (flat_map
                            (fun '(difficulty, tasks) =>
                               map (fun task => (category, difficulty, task))
                                   tasks)
                            category_data)).
Proof.
  unfold count_values.
  induction category_data as [|[d tasks] cd IH]; intros count; simpl.
  - lia.
  - rewrite IH, length_app, length_map. lia.
Qed.

Lemma count_all_tasks (dataset : dataset) :
  forall count,
    fold_left (fun count category_data => count_values category_data count)
              (map snd dataset) count
    = count + Z.of_nat (length (Harness.all_tasks dataset)).
Proof.
  unfold Harness.all_tasks.
  induction dataset as [|[c cd] dataset IH]; intros count; simpl.
  - lia.
  - rewrite IH, (count_values_spec c), length_app. lia.
Qed.

(** X22: [get_task_count], in both packages, is the number of tasks the
    evaluator goes through when [max_tasks] is not given. *)
Theorem get_task_count_all_tasks (dataset : dataset) :
  SpatialOps.get_task_count dataset
  = Z.of_nat (length (Harness.all_tasks dataset))
  /\ SpatialEval.get_task_count dataset
     = Z.of_nat (length (Harness.all_tasks dataset)).
Proof.
  unfold SpatialOps.get_task_count, SpatialEval.get_task_count.
  now rewrite count_all_tasks.
Qed.

(** ** get_dataset_summary *)

Lemma summary_difficulties_spec (difficulties : list (string * list task)) :
  forall cat_total a b c,
    match for_each SpatialOps.summary_difficulty difficulties
                   (cat_total,
                    [("easy", a); ("medium", b); ("hard", c)]%string) with
    | Ok (cat_total', by_difficulty) =>
        forallb (fun kv => mem kv.1 DIFFICULTIES) difficulties = true
        /\ cat_total' = count_values difficulties cat_total
        /\ exists a' b' c',
             by_difficulty = [("easy", a'); ("medium", b'); ("hard", c')]%string
             /\ a' + b' + c' = a + b + c + (cat_total' - cat_total)
    | Raise e =>
        e = KeyError
        /\ forallb (fun kv => mem kv.1 DIFFICULTIES) difficulties = false
    end.
Proof.
  induction difficulties as [|[k tasks] difficulties IH];
    intros cat_total a b c.
  - simpl. split; [reflexivity|]. split; [reflexivity|].
    exists a, b, c. split; [reflexivity | lia].
  - cbn [for_each SpatialOps.summary_difficulty forallb fst].
    unfold dict_incr, mem, DIFFICULTIES. cbn [getitem existsb].
    unfold count_values. cbn [map snd fold_left].
    fold (count_values difficulties
            (cat_total + Z.of_nat (length tasks))).
    destruct (String.eqb_spec k "easy") as [->|He].
    { cbn [res_bind dict_set String.eqb Ascii.eqb Bool.eqb orb andb].
      specialize (IH (cat_total + Z.of_nat (length tasks))
                     (a + Z.of_nat (length tasks)) b c).
      destruct (for_each _ difficulties _) as [[ct bd]|e]; [|exact IH].
      destruct IH as (Hk & Hct & a' & b' & c' & Hbd & Hsum).
      split; [exact Hk|]. split; [exact Hct|].
      exists a', b', c'. split; [exact Hbd | lia]. }
    destruct (String.eqb_spec k "medium") as [->|Hm].
    { cbn [res_bind dict_set String.eqb Ascii.eqb Bool.eqb orb andb].
      specialize (IH (cat_total + Z.of_nat (length tasks))
                     a (b + Z.of_nat (length tasks)) c).
      destruct (for_each _ difficulties _) as [[ct bd]|e]; [|exact IH].
      destruct IH as (Hk & Hct & a' & b' & c' & Hbd & Hsum).
      split; [exact Hk|]. split; [exact Hct|].
      exists a', b', c'. split; [exact Hbd | lia]. }
    destruct (String.eqb_spec k "hard") as [->|Hh].
    { cbn [res_bind dict_set String.eqb Ascii.eqb Bool.eqb orb andb].
      specialize (IH (cat_total + Z.of_nat (length tasks))
                     a b (c + Z.of_nat (length tasks))).
      destruct (for_each _ difficulties _) as [[ct bd]|e]; [|exact IH].
      destruct IH as (Hk & Hct & a' & b' & c' & Hbd & Hsum).
      split; [exact Hk|]. split; [exact Hct|].
      exists a', b', c'. split; [exact Hbd | lia]. }
    cbn [res_bind orb andb]. now split.
Qed.

Lemma summary_categories_spec (dataset : dataset) :
  forall total by_category a b c t1 t2 t3,
    match for_each SpatialOps.summary_category dataset
                   (SpatialOps.mk_summary total by_category
                      [("easy", a); ("medium", b); ("hard", c)]%string
                      (t1, t2, t3)) with
    | Ok s =>
        forallb (fun kv => forallb (fun kv' => mem kv'.1 DIFFICULTIES) kv.2)
                dataset = true
        /\ SpatialOps.total_tasks s
           = fold_left (fun count category_data =>
                          count_values category_data count)
                       (map snd dataset) total
        /\ (exists a' b' c',
              SpatialOps.by_difficulty s
              = [("easy", a'); ("medium", b'); ("hard", c')]%string
              /\ a' + b' + c'
                 = a + b + c + (SpatialOps.total_tasks s - total))
        /\ (t1 + t2 + t3
            <= (SpatialOps.by_tier s).1.1 + (SpatialOps.by_tier s).1.2
               + (SpatialOps.by_tier s).2
            <= t1 + t2 + t3 + (SpatialOps.total_tasks s - total))
        /\ (forallb (fun kv => mem kv.1 SpatialOps.CATEGORIES) dataset = true
            -> (SpatialOps.by_tier s).1.1 + (SpatialOps.by_tier s).1.2
               + (SpatialOps.by_tier s).2
               = t1 + t2 + t3 + (SpatialOps.total_tasks s - total))
    | Raise e =>
        e = KeyError
        /\ forallb (fun kv => forallb (fun kv' => mem kv'.1 DIFFICULTIES) kv.2)
                   dataset = false
    end.
Proof.
  induction dataset as [|[category difficulties] dataset IH];
    intros total by_category a b c t1 t2 t3.
  - cbn. split; [reflexivity|]. split; [reflexivity|].
    split; [exists a, b, c; split; [reflexivity | lia]|].
    split; [lia | intros _; lia].
  - cbn [for_each SpatialOps.summary_category SpatialOps.by_difficulty
         SpatialOps.by_category SpatialOps.total_tasks SpatialOps.by_tier
         forallb map snd fst fold_left].
    pose proof (summary_difficulties_spec difficulties 0 a b c) as Hd.
    destruct (for_each SpatialOps.summary_difficulty difficulties _)
      as [[cat_total bd]|e]; cbn [res_bind];
      [|destruct Hd as [-> Hd]; rewrite Hd; now split].
    destruct Hd as (Hk & Hct & a' & b' & c' & -> & Hsum). rewrite Hk.
    cbn [andb].
    assert (Hge : 0 <= cat_total).
    { rewrite Hct, (count_values_spec category). lia. }
    assert (Hcount : count_values difficulties total = total + cat_total).
    { rewrite Hct, !(count_values_spec category). lia. }
    rewrite Hcount.
    assert (Hknown : mem category SpatialOps.CATEGORIES
                     = mem category SpatialOps.TIER_1_CATEGORIES
                       || mem category SpatialOps.TIER_2_CATEGORIES
                       || mem category SpatialOps.TIER_3_CATEGORIES).
    { unfold mem, SpatialOps.CATEGORIES. now rewrite !existsb_app, orb_assoc. }
    rewrite Hknown.
    destruct (mem category SpatialOps.TIER_1_CATEGORIES);
      [|destruct (mem category SpatialOps.TIER_2_CATEGORIES);
        [|destruct (mem category SpatialOps.TIER_3_CATEGORIES)]];
      cbn [orb andb];
      match goal with
      | |- context [for_each _ dataset (SpatialOps.mk_summary ?t ?bc _ (?u1, ?u2, ?u3))] =>
          specialize (IH t bc a' b' c' u1 u2 u3);
          destruct (for_each SpatialOps.summary_category dataset
                      (SpatialOps.mk_summary t bc _ (u1, u2, u3)))
            as [s|e]; [|exact IH];
          destruct IH as (Hall & Htot & (a2 & b2 & c2 & Hbd & Hs2) & Hle & Heq)
      end;
      (split; [exact Hall|]); (split; [exact Htot|]);
      (split; [exists a2, b2, c2; split; [exact Hbd | lia]|]);
      (split; [lia|]); intros Hcats; try discriminate Hcats;
      specialize (Heq Hcats); lia.
Qed.

(** X23: [get_dataset_summary] raises a [KeyError] exactly when some
    category of the dataset has a difficulty key other than "easy",
    "medium" and "hard".  When it returns, its total is
    [get_task_count], the three difficulty counts add up to the total,
    and the three tier counts add up to at most the total, and to the
    total when every category is a known one: the tasks of an unknown
    category are counted in the total and in no tier. *)
Theorem dataset_summary_result (dataset : dataset) :
  match SpatialOps.get_dataset_summary dataset with
  | Ok s =>
      forallb (fun kv => forallb (fun kv' => mem kv'.1 DIFFICULTIES) kv.2)
              dataset = true
      /\ SpatialOps.total_tasks s = SpatialOps.get_task_count dataset
      /\ (exists a b c,
            SpatialOps.by_difficulty s
            = [("easy", a); ("medium", b); ("hard", c)]%string
            /\ a + b + c = SpatialOps.total_tasks s)
      /\ (0 <= (SpatialOps.by_tier s).1.1 + (SpatialOps.by_tier s).1.2
               + (SpatialOps.by_tier s).2
          <= SpatialOps.total_tasks s)
      /\ (forallb (fun kv => mem kv.1 SpatialOps.CATEGORIES) dataset = true
          -> (SpatialOps.by_tier s).1.1 + (SpatialOps.by_tier s).1.2
             + (SpatialOps.by_tier s).2
             = SpatialOps.total_tasks s)
  | Raise e =>
      e = KeyError
      /\ forallb (fun kv => forallb (fun kv' => mem kv'.1 DIFFICULTIES) kv.2)
                 dataset = false
  end.
Proof.
  unfold SpatialOps.get_dataset_summary, SpatialOps.get_task_count.
  pose proof (summary_categories_spec dataset 0 [] 0 0 0 0 0 0) as H.
  destruct (for_each SpatialOps.summary_category dataset _) as [s|e];
    [|exact H].
  destruct H as (Hall & Htot & (a & b & c & Hbd & Hsum) & Hle & Heq).
  split; [exact Hall|]. split; [exact Htot|].
  split; [exists a, b, c; split; [exact Hbd | lia]|].
  split; [lia|]. intros Hc. specialize (Heq Hc). lia.
Qed.

(** ** What a loaded dataset looks like *)

Lemma dict_set_forallb {V : Type} (P : string * V -> bool) (k : string)
  (v : V) (d : list (string * V)) :
  P (k, v) = true -> forallb P d = true -> forallb P (dict_set k v d) = true.
Proof.
  intros Hk. induction d as [|[k' v'] d IH]; simpl.
  - now rewrite Hk.
  - intros [H1 H2]%andb_true_iff. destruct (String.eqb k k'); simpl.
    + now rewrite Hk, H2.
    + now rewrite H1, IH.
Qed.

Section Loaded.
Variable CATEGORIES : list string.
Variable data_dir : files.
Variable P : string -> string * list task -> bool.
Hypothesis HP : forall c d,
    mem c CATEGORIES = true -> mem d DIFFICULTIES = true ->
    P c (d, stored data_dir c d) = true.

Lemma load_difficulties_forallb (c : string) (difficulties : list string) :
  mem c CATEGORIES = true ->
  forall entry entry',
    load_difficulties data_dir c difficulties entry = Ok entry' ->
    forallb (P c) entry = true -> forallb (P c) entry' = true.
Proof.
  intros Hc. induction difficulties as [|d difficulties IH];
    intros entry entry' H Hentry.
  - now injection H as <-.
  - cbn [load_difficulties] in H.
    destruct (mem d DIFFICULTIES) eqn:Hd; cbn [negb] in H; [|discriminate H].
    apply IH in H; [exact H|].
    apply dict_set_forallb; [|exact Hentry]. now apply HP.
Qed.

Lemma load_categories_forallb (categories difficulties : list string) :
  forall dataset0 dataset,
    load_categories CATEGORIES data_dir categories difficulties dataset0
    = Ok dataset ->
    forallb (fun kv => mem kv.1 CATEGORIES && forallb (P kv.1) kv.2) dataset0
    = true ->
    forallb (fun kv => mem kv.1 CATEGORIES && forallb (P kv.1) kv.2) dataset
    = true.
Proof.
  induction categories as [|c categories IH]; intros dataset0 dataset H H0.
  - now injection H as <-.
  - cbn [load_categories] in H.
    destruct (mem c CATEGORIES) eqn:Hc; cbn [negb] in H; [|discriminate H].
    destruct (load_difficulties data_dir c difficulties []) as [entry|e]
      eqn:Hentry; [|discriminate H].
    cbn [res_bind] in H. apply IH in H; [exact H|].
    apply dict_set_forallb; [|exact H0]. cbn [fst snd]. rewrite Hc.
    now apply (load_difficulties_forallb c difficulties Hc [] entry).
Qed.

End Loaded.

Lemma load_dataset_categories (data_dir : files)
  (categories difficulties : option (list string)) (tier : option Z)
  (dataset : dataset) :
  SpatialOps.load_dataset data_dir categories difficulties tier = Ok dataset ->
  exists cats_to_load,
    load_categories SpatialOps.CATEGORIES data_dir cats_to_load
                    (default DIFFICULTIES difficulties) [] = Ok dataset.
Proof.
  unfold SpatialOps.load_dataset. intros H.
  destruct tier as [t|].
  - destruct (t =? 1); [eexists; exact H|].
    destruct (t =? 2); [eexists; exact H|].
    destruct (t =? 3); [eexists; exact H | discriminate H].
  - destruct categories; eexists; exact H.
Qed.

(** X24: on every dataset returned by [load_dataset], whatever the
    requested categories, difficulties and tier, [get_dataset_summary]
    returns without a [KeyError]; its total is [get_task_count] and its
    three tier counts add up to the total. *)
Theorem loaded_dataset_summary (data_dir : files)
  (categories difficulties : option (list string)) (tier : option Z)
  (dataset : dataset) :
  SpatialOps.load_dataset data_dir categories difficulties tier = Ok dataset ->
  exists s,
    SpatialOps.get_dataset_summary dataset = Ok s
    /\ SpatialOps.total_tasks s = SpatialOps.get_task_count dataset
    /\ (SpatialOps.by_tier s).1.1 + (SpatialOps.by_tier s).1.2
       + (SpatialOps.by_tier s).2
       = SpatialOps.total_tasks s.
Proof.
  intros [cats Hload]%load_dataset_categories.
  pose proof (load_categories_forallb SpatialOps.CATEGORIES data_dir
                (fun _ kv => mem kv.1 DIFFICULTIES)
                (fun c d _ Hd => Hd) cats _ [] dataset Hload eq_refl) as Hkeys.
  assert (Hd : forallb (fun kv => forallb (fun kv' => mem kv'.1 DIFFICULTIES)
                                          kv.2) dataset = true).
  { apply forallb_forall. intros kv Hkv.
    rewrite forallb_forall in Hkeys. specialize (Hkeys kv Hkv).
    now apply andb_true_iff in Hkeys as [_ Hkeys]. }
  assert (Hc : forallb (fun kv => mem kv.1 SpatialOps.CATEGORIES) dataset
               = true).
  { apply forallb_forall. intros kv Hkv.
    rewrite forallb_forall in Hkeys. specialize (Hkeys kv Hkv).
    now apply andb_true_iff in Hkeys as [Hkeys _]. }
  unfold SpatialOps.get_dataset_summary, SpatialOps.get_task_count.
  pose proof (summary_categories_spec dataset 0 [] 0 0 0 0 0 0) as H.
  destruct (for_each SpatialOps.summary_category dataset _) as [s|e].
  - destruct H as (_ & Htot & _ & _ & Heq). exists s.
    split; [reflexivity|]. split; [exact Htot|].
    specialize (Heq Hc). lia.
  - destruct H as [_ H]. rewrite Hd in H. discriminate H.
Qed.

Lemma loaded_dataset_summary_witness :
  exists s,
    SpatialOps.get_dataset_summary two_tasks_loaded = Ok s
    /\ SpatialOps.total_tasks s = SpatialOps.get_task_count two_tasks_loaded
    /\ (SpatialOps.by_tier s).1.1 + (SpatialOps.by_tier s).1.2
       + (SpatialOps.by_tier s).2
       = SpatialOps.total_tasks s.
Proof.
  apply (loaded_dataset_summary nav_files
           (Some ["navigation_pathfinding"%string]) None None).
  reflexivity.
Defined.

End DataProps.

(** * Further properties of the evaluation harness *)

Module HarnessProps.
Import Data Spec Harness Inputs DataProps.

Section Run.
Variable model_fn : list ascii -> res (list ascii).
Variable compute_accuracy : list ascii -> Metrics.gtvalue -> res Q.
Variable compute_reasoning_score : list ascii -> Q.
Variable compute_efficiency_score : list ascii -> Q.
Variable compute_spatialops_score : Q -> Q -> Q -> res Q.

#[local] Abbreviation evaluate_task :=
  (evaluate_task model_fn compute_accuracy compute_reasoning_score
                 compute_efficiency_score).
#[local] Abbreviation run_loop :=
  (run_loop model_fn compute_accuracy compute_reasoning_score
            compute_efficiency_score).
#[local] Abbreviation run :=
  (run model_fn compute_accuracy compute_reasoning_score
       compute_efficiency_score compute_spatialops_score).
#[local] Abbreviation final_scores_of :=
  (_compute_final_scores compute_spatialops_score).

Lemma run_loop_all (tasks : list (string * string * task)) :
  (forall item, In item tasks -> exists r, evaluate_task item = Ok r) ->
  forall results,
    exists rs,
      run_loop tasks results = (results ++ rs, Ok tt)
      /\ Forall2 (fun item r => evaluate_task item = Ok r) tasks rs.
Proof.
  induction tasks as [|item tasks IH]; intros Hall results.
  - exists []. rewrite app_nil_r. split; [reflexivity | constructor].
  - destruct (Hall item (or_introl eq_refl)) as [r Hr].
    destruct (IH (fun i Hi => Hall i (or_intror Hi)) (results ++ [r]))
      as (rs & Hrs & Hf).
    exists (r :: rs). cbn [Harness.run_loop]. rewrite Hr, Hrs, <- app_assoc.
    split; [reflexivity | now constructor].
Qed.

Lemma evaluate_task_fields (item : string * string * task) (r : result) :
  evaluate_task item = Ok r ->
  r_task_id r = task_id item.2 /\ r_category r = item.1.1
  /\ r_difficulty r = item.1.2 /\ r_prompt r = prompt item.2
  /\ r_ground_truth r = ground_truth item.2.
Proof.
  destruct item as [[category difficulty] t]. unfold Harness.evaluate_task.
  destruct (model_fn (prompt t)) as [response|e]; [|discriminate].
  cbn [res_bind].
  destruct (compute_accuracy response (ground_truth t)) as [a|e];
    [|discriminate].
  intros [= <-]. now repeat split.
Qed.

Lemma dict_set_In_key {V : Type} (k : string) (v : V)
  (d : list (string * V)) (c : string) :
  In c (map fst (dict_set k v d)) <-> c = k \/ In c (map fst d).
Proof.
  induction d as [|[k' v'] d IH]; simpl; [intuition congruence|].
  destruct (String.eqb_spec k k') as [->|Hne]; simpl;
    [intuition congruence|].
  rewrite IH. intuition congruence.
Qed.

Lemma dict_set_NoDup {V : Type} (k : string) (v : V)
  (d : list (string * V)) :
  List.NoDup (map fst d) -> List.NoDup (map fst (dict_set k v d)).
Proof.
  induction d as [|[k' v'] d IH]; simpl; intros Hd.
  - constructor; [intros []|constructor].
  - apply List.NoDup_cons_iff in Hd as [Hk' Hd].
    destruct (String.eqb_spec k k') as [->|Hne]; simpl.
    + now constructor.
    + constructor; [|now apply IH].
      rewrite dict_set_In_key. intros [->|Hin]; [now apply Hne | tauto].
Qed.

Lemma dict_set_In {V : Type} (k : string) (v : V) (d : list (string * V))
  (c : string) (w : V) :
  In (c, w) (dict_set k v d) -> (c = k /\ w = v) \/ In (c, w) d.
Proof.
  induction d as [|[k' v'] d IH]; simpl.
  - intros [[= <- <-]|[]]. now left.
  - destruct (String.eqb_spec k k') as [->|Hne]; simpl.
    + intros [[= <- <-]|Hin]; [now left | tauto].
    + intros [Heq|Hin]; [tauto|]. apply IH in Hin. tauto.
Qed.

(** A score entry whose score is the one the score function gives for
    its accuracy, reasoning and efficiency. *)
#[local] Abbreviation scored sc :=
  (compute_spatialops_score (cs_accuracy sc) (cs_reasoning sc)
                            (cs_efficiency sc) = Ok (cs_score sc)).

Section Total.
(** The score function returns a score on every input. *)
Hypothesis score_total :
  forall a r e, exists v, compute_spatialops_score a r e = Ok v.

Lemma score_of_total (rs : list result) :
  exists sc, score_of compute_spatialops_score rs = Ok sc /\ scored sc.
Proof.
  unfold score_of.
  destruct (score_total (mean (map r_accuracy rs))
              (mean (map r_reasoning_score rs))
              (mean (map r_efficiency_score rs))) as [v Hv].
  rewrite Hv. cbn [res_bind]. eexists. split; [reflexivity|exact Hv].
Qed.

Lemma filter_category_nil (results : list result) (c : string) :
  filter (fun r => r_category r = c) results = []
  <-> ~ exists r, In r results /\ r_category r = c.
Proof.
  split.
  - intros Hnil (r & Hr & Hc).
    assert (Hin : r ∈ filter (fun r => r_category r = c) results).
    { apply list_elem_of_filter. split; [exact Hc|].
      now apply list_elem_of_In. }
    rewrite Hnil in Hin. now apply elem_of_nil in Hin.
  - intros Hno.
    destruct (filter (fun r => r_category r = c) results) as [|r rs] eqn:E;
      [reflexivity|].
    exfalso. apply Hno. exists r.
    assert (Hin : r ∈ filter (fun r => r_category r = c) results)
      by (rewrite E; left).
    apply list_elem_of_filter in Hin as [Hc Hin].
    split; [now apply list_elem_of_In | exact Hc].
Qed.

(** The per-category loop: it ends without raising; the keys it adds are
    the categories, among those it goes through, that have a result; it
    keeps keys distinct and entries well formed. *)
Lemma category_scores_total (categories : list string)
  (results : list result) :
  forall scores,
    exists out,
      category_scores compute_spatialops_score categories results scores
      = Ok out
      /\ (forall c, In c (map fst out)
                    <-> In c (map fst scores)
                        \/ (In c categories
                            /\ exists r, In r results /\ r_category r = c))
      /\ (List.NoDup (map fst scores) -> List.NoDup (map fst out))
      /\ ((forall c sc, In (c, sc) scores -> scored sc)
          -> forall c sc, In (c, sc) out -> scored sc).
Proof.
  induction categories as [|category rest IH]; intros scores.
  - exists scores. split; [reflexivity|]. split; [|tauto].
    intros c. simpl. tauto.
  - cbn [category_scores].
    destruct (filter (fun r => r_category r = category) results)
      as [|r0 rs] eqn:E.
    + apply filter_category_nil in E.
      destruct (IH scores) as (out & Hout & Hkeys & Hnd & Hsc).
      exists out. split; [exact Hout|]. split; [|tauto].
      intros c. rewrite Hkeys. simpl. split; [tauto|].
      intros [H|[[<-|H] Hr]]; tauto.
    + assert (Hex : exists r, In r results /\ r_category r = category).
      { exists r0.
        assert (Hin : r0 ∈ filter (fun r => r_category r = category) results)
          by (rewrite E; left).
        apply list_elem_of_filter in Hin as [Hc Hin].
        split; [now apply list_elem_of_In | exact Hc]. }
      destruct (score_of_total (r0 :: rs)) as (sc0 & -> & Hsc0).
      cbn [res_bind].
      destruct (IH (dict_set category sc0 scores))
        as (out & Hout & Hkeys & Hnd & Hsc).
      exists out. split; [exact Hout|]. split; [|split].
      * intros c. rewrite Hkeys, dict_set_In_key. simpl. split.
        -- intros [[->|H]|[H1 H2]]; tauto.
        -- intros [H|[[<-|H1] H2]]; tauto.
      * intros H. now apply Hnd, dict_set_NoDup.
      * intros H. apply Hsc. intros c sc Hin.
        apply dict_set_In in Hin as [[_ ->]|Hin]; [exact Hsc0|].
        now apply (H c).
Qed.

End Total.

Lemma all_tasks_category (dataset : dataset)
  (item : string * string * task) :
  In item (all_tasks dataset) -> In item.1.1 (map fst dataset).
Proof.
  unfold all_tasks. intros Hin. apply in_flat_map in Hin as ([c cd] & Hc & Hin).
  apply in_flat_map in Hin as ([d tasks] & _ & Hin).
  apply in_map_iff in Hin as (t & <- & _). cbn [fst].
  apply in_map_iff. now exists (c, cd).
Qed.

Lemma selected_tasks_all (dataset : dataset) (max_tasks : option Z)
  (item : string * string * task) :
  In item (selected_tasks dataset max_tasks) -> In item (all_tasks dataset).
Proof.
  unfold selected_tasks, slice_to. destruct max_tasks as [n|]; [|tauto].
  intros Hin. apply list_elem_of_In.
  destruct (0 <=? n)%Z; apply list_elem_of_In in Hin;
    exact (subseteq_take _ _ _ Hin).
Qed.

Lemma Forall2_In_r {A B : Type} (P : A -> B -> Prop) (xs : list A)
  (ys : list B) (y : B) :
  Forall2 P xs ys -> In y ys -> exists x, In x xs /\ P x y.
Proof.
  induction 1 as [|x y' xs ys Hxy _ IH]; simpl; [tauto|].
  intros [<-|Hin]; [now exists x; split; [left|]|].
  destruct (IH Hin) as (x' & Hx' & HP). exists x'. split; [now right|exact HP].
Qed.

(** X25: when the evaluation of no selected task raises and the score
    function returns a score on every input, [run] records exactly one
    result per selected task, in the order of the dataset, each with the
    identifier, category, difficulty, prompt and ground truth of its
    task, and returns without raising.  With no task selected it returns
    the error dictionary.  Otherwise it returns scores: [num_tasks] is
    the number of selected tasks, [overall_score] is what the score
    function gives for the returned accuracy, reasoning and efficiency,
    and [per_category] has exactly one entry for each category that has
    a result and none for the others, the score of each entry being what
    the score function gives for the accuracy, reasoning and efficiency
    of that entry. *)
Theorem run_records_every_task (dataset : dataset) (max_tasks : option Z) :
  (forall item, In item (selected_tasks dataset max_tasks) ->
                exists r, evaluate_task item = Ok r) ->
  (forall a r e, exists v, compute_spatialops_score a r e = Ok v) ->
  exists results scores,
    run dataset max_tasks = (results, Ok scores)
    /\ Forall2 (fun item r =>
                  evaluate_task item = Ok r
                  /\ r_task_id r = task_id item.2
                  /\ r_category r = item.1.1
                  /\ r_difficulty r = item.1.2
                  /\ r_prompt r = prompt item.2
                  /\ r_ground_truth r = ground_truth item.2)
               (selected_tasks dataset max_tasks) results
    /\ match scores with
       | NoResults => selected_tasks dataset max_tasks = []
       | Scores overall_score accuracy reasoning efficiency num_tasks
                per_category =>
           selected_tasks dataset max_tasks <> []
           /\ num_tasks = length (selected_tasks dataset max_tasks)
           /\ compute_spatialops_score accuracy reasoning efficiency
              = Ok overall_score
           /\ List.NoDup (map fst per_category)
           /\ (forall c, In c (map fst per_category)
                         <-> exists r, In r results /\ r_category r = c)
           /\ (forall c sc, In (c, sc) per_category ->
                 compute_spatialops_score (cs_accuracy sc) (cs_reasoning sc)
                                          (cs_efficiency sc)
                 = Ok (cs_score sc))
       end.
Proof.
  intros Hall Htotal.
  destruct (run_loop_all (selected_tasks dataset max_tasks) Hall [])
    as (rs & Hrs & Hf).
  assert (Hfields :
            Forall2 (fun item r =>
                       evaluate_task item = Ok r
                       /\ r_task_id r = task_id item.2
                       /\ r_category r = item.1.1
                       /\ r_difficulty r = item.1.2
                       /\ r_prompt r = prompt item.2
                       /\ r_ground_truth r = ground_truth item.2)
                    (selected_tasks dataset max_tasks) rs).
  { eapply Forall2_impl; [exact Hf|]. intros item r Hr.
    split; [exact Hr | now apply evaluate_task_fields]. }
  pose proof (Forall2_length _ _ _ Hf) as Hlen.
  exists rs. unfold Harness.run. rewrite Hrs. cbn [app].
  destruct rs as [|r0 rs].
  - exists NoResults. split; [reflexivity|]. split; [exact Hfields|].
    now apply length_zero_iff_nil.
  - unfold _compute_final_scores.
    destruct (score_of_total Htotal (r0 :: rs)) as (total & -> & Htot).
    cbn [res_bind].
    destruct (category_scores_total Htotal (map fst dataset) (r0 :: rs) [])
      as (out & -> & Hkeys & Hnd & Hsc).
    cbn [res_bind]. eexists. split; [reflexivity|].
    split; [exact Hfields|].
    split; [intros E; rewrite E in Hlen; discriminate|].
    split; [now rewrite Hlen|]. split; [exact Htot|].
    split; [apply Hnd; constructor|]. split.
    + intros c. rewrite Hkeys. simpl. split; [tauto|].
      intros (r & Hr & Hc). right. split; [|now exists r].
      destruct (Forall2_In_r _ _ _ _ Hfields Hr)
        as (item & Hitem & _ & _ & Hcat & _).
      rewrite <- Hc, Hcat.
      now apply all_tasks_category, (selected_tasks_all dataset max_tasks).
    + apply Hsc. intros c sc [].
Qed.

Lemma run_loop_length_le (tasks : list (string * string * task)) :
  forall results,
    (length (run_loop tasks results).1 <= length results + length tasks)%nat.
Proof.
  induction tasks as [|item tasks IH]; intros results;
    cbn [Harness.run_loop].
  - simpl. lia.
  - destruct (evaluate_task item) as [r|e]; [|simpl; lia].
    specialize (IH (results ++ [r])). rewrite length_app in IH. simpl in *.
    lia.
Qed.

Lemma run_results (dataset : dataset) (max_tasks : option Z) :
  (run dataset max_tasks).1
  = (run_loop (selected_tasks dataset max_tasks) []).1.
Proof.
  unfold Harness.run.
  now destruct (run_loop (selected_tasks dataset max_tasks) [])
    as [results [u|e]].
Qed.

(** X26: whatever the model does, [run] with [max_tasks = n] records at
    most [n] results when [n] is not negative, and for a negative [n] at
    most the number of tasks less [|n|]: a negative [max_tasks] drops
    tasks from the end of the dataset instead of being rejected. *)
Theorem run_respects_max_tasks (dataset : dataset) (n : Z) :
  (Z.of_nat (length (run dataset (Some n)).1)
   <= if 0 <=? n then n
      else Z.max 0 (Z.of_nat (length (all_tasks dataset)) + n))%Z.
Proof.
  rewrite run_results.
  pose proof (run_loop_length_le (selected_tasks dataset (Some n)) []) as H.
  unfold selected_tasks, slice_to in *.
  destruct (Z.leb_spec 0 n); rewrite length_take in H; simpl in H; lia.
Qed.

Lemma all_tasks_empty (dataset : dataset) :
  forallb (fun kv : string * list (string * list task) =>
             forallb (fun kv' : string * list task =>
                        match kv'.2 with [] => true | _ => false end) kv.2)
          dataset = true ->
  all_tasks dataset = [].
Proof.
  unfold all_tasks. induction dataset as [|[c cd] dataset IH]; simpl;
    [reflexivity|].
  intros [Hcd Hds]%andb_true_iff. rewrite (IH Hds), app_nil_r. clear IH Hds.
  induction cd as [|[d tasks] cd IH]; simpl in *; [reflexivity|].
  apply andb_true_iff in Hcd as [Ht Hcd]. rewrite (IH Hcd), app_nil_r.
  now destruct tasks.
Qed.

(** X27: when the data directory holds no task, because the task files
    are missing or empty, the evaluator is still built for every valid
    request, and [run] then calls the model on nothing, records nothing
    and returns the error dictionary instead of scores, without raising. *)
Theorem run_without_tasks (data_dir : files)
  (categories difficulties : option (list string)) (dataset : dataset)
  (max_tasks : option Z) :
  (forall c d, stored data_dir c d = []) ->
  Evaluator_init data_dir categories difficulties = Ok dataset ->
  all_tasks dataset = []
  /\ run dataset max_tasks = ([], Ok NoResults).
Proof.
  intros Hempty Hinit. unfold Evaluator_init in Hinit.
  apply load_dataset_categories in Hinit as [cats Hload].
  assert (Hall : all_tasks dataset = []).
  { apply all_tasks_empty.
    assert (HP : forall c d : string,
               mem c SpatialOps.CATEGORIES = true ->
               mem d DIFFICULTIES = true ->
               match (d, stored data_dir c d).2 with
               | [] => true
               | _ => false
               end = true).
    { intros c d _ _. cbn [snd]. now rewrite Hempty. }
    pose proof (load_categories_forallb SpatialOps.CATEGORIES data_dir
                  (fun _ kv => match kv.2 with [] => true | _ => false end)
                  HP cats _ [] dataset Hload eq_refl) as Hkeys.
    apply forallb_forall. intros kv Hkv.
    rewrite forallb_forall in Hkeys. specialize (Hkeys kv Hkv).
    now apply andb_true_iff in Hkeys as [_ Hkeys]. }
  split; [exact Hall|].
  unfold Harness.run, selected_tasks. rewrite Hall.
  destruct max_tasks as [n|]; [|reflexivity].
  unfold slice_to. now rewrite !take_nil, Tauto.if_same.
Qed.

End Run.

Lemma run_records_every_task_witness :
  exists results scores,
    run steady_model Metrics.compute_accuracy Metrics.compute_reasoning_score
        Metrics.compute_efficiency_score plain_score two_tasks None
    = (results, Ok scores)
    /\ Forall2 (fun item r =>
                  evaluate_task steady_model Metrics.compute_accuracy
                    Metrics.compute_reasoning_score
                    Metrics.compute_efficiency_score item = Ok r
                  /\ r_task_id r = task_id item.2
                  /\ r_category r = item.1.1
                  /\ r_difficulty r = item.1.2
                  /\ r_prompt r = prompt item.2
                  /\ r_ground_truth r = ground_truth item.2)
               (selected_tasks two_tasks None) results
    /\ match scores with
       | NoResults => selected_tasks two_tasks None = []
       | Scores overall_score accuracy reasoning efficiency num_tasks
                per_category =>
           selected_tasks two_tasks None <> []
           /\ num_tasks = length (selected_tasks two_tasks None)
           /\ plain_score accuracy reasoning efficiency = Ok overall_score
           /\ List.NoDup (map fst per_category)
           /\ (forall c, In c (map fst per_category)
                         <-> exists r, In r results /\ r_category r = c)
           /\ (forall c sc, In (c, sc) per_category ->
                 plain_score (cs_accuracy sc) (cs_reasoning sc)
                             (cs_efficiency sc)
                 = Ok (cs_score sc))
       end.
Proof.
  apply (run_records_every_task steady_model Metrics.compute_accuracy
           Metrics.compute_reasoning_score Metrics.compute_efficiency_score
           plain_score two_tasks None).
  - intros item [<-|[<-|[]]]; eexists; reflexivity.
  - intros a r e. eexists. reflexivity.
Defined.

Lemma run_without_tasks_witness :
  all_tasks
    [("navigation_pathfinding"%string,
      [("easy"%string, []); ("medium"%string, []); ("hard"%string, [])])]
  = []
  /\ run failing_model Metrics.compute_accuracy
         Metrics.compute_reasoning_score Metrics.compute_efficiency_score
         spatialops_score
         [("navigation_pathfinding"%string,
           [("easy"%string, []); ("medium"%string, []);
            ("hard"%string, [])])] None
     = ([], Ok NoResults).
Proof.
  apply (run_without_tasks failing_model Metrics.compute_accuracy
           Metrics.compute_reasoning_score Metrics.compute_efficiency_score
           spatialops_score no_files
           (Some ["navigation_pathfinding"%string]) None).
  - reflexivity.
  - reflexivity.
Defined.

End HarnessProps.

(** * Further properties of the graph search and the grid search *)

Module SearchProps.
Import Generator GraphSpec GridSpec BfsFacts AStarFacts.

(** ** bfs_connected *)

(** X1: with enough fuel for the graph, [bfs_connected] answers [True]
    exactly when [end_] can be reached from [start] along listed
    neighbours, and [False] exactly when it cannot; it never runs out of
    fuel. *)
Theorem bfs_connected_decides_reachability (graph : gmap Z (list Z))
  (start end_ : Z) (fuel : nat) :
  (bfs_fuel graph <= fuel)%nat ->
  (bfs_connected fuel graph start end_ = Some true
   <-> reachable graph start end_)
  /\ (bfs_connected fuel graph start end_ = Some false
      <-> ~ reachable graph start end_).
Proof.
  intros Hfuel.
  destruct (bfs_connected_correct graph start end_ fuel Hfuel)
    as (r & Hr & Hiff).
  rewrite Hr. split; split.
  - intros [= ->]. now apply Hiff.
  - intros H. f_equal. now apply Hiff.
  - intros [= ->] H. apply Hiff in H. discriminate H.
  - intros H. destruct r; [|reflexivity].
    exfalso. apply H. now apply Hiff.
Qed.

Lemma bfs_connected_decides_reachability_witness :
  (bfs_connected (bfs_fuel Inputs.line_graph) Inputs.line_graph 1 4
   = Some true <-> reachable Inputs.line_graph 1 4)
  /\ (bfs_connected (bfs_fuel Inputs.line_graph) Inputs.line_graph 1 4
      = Some false <-> ~ reachable Inputs.line_graph 1 4).
Proof.
  apply (bfs_connected_decides_reachability Inputs.line_graph 1 4
           (bfs_fuel Inputs.line_graph)).
  apply le_n.
Defined.

(** ** a_star *)

Section Walks.
Variable grid : grid.
Variables rows cols : Z.
Variables start end_ : cell.
Hypothesis Hrect : rectangular grid rows cols.

#[local] Abbreviation walked := (walked grid rows cols start).
#[local] Abbreviation measure := (a_star_measure rows cols start).

(** A score is only ever written for a free neighbour of a cell that has
    a score: the walk to the cell, extended by one step. *)
Lemma relax_walked (current : cell) (d : Z * Z) (st st' : astate) :
  d ∈ directions ->
  relax grid rows cols end_ current st d = Ok st' ->
  walked st.2 -> walked st'.2.
Proof.
  intros Hd Hrelax Hwalked. destruct st as [open_set g].
  unfold relax in Hrelax. simpl in Hwalked.
  set (neighbor := (current.1 + d.1, current.2 + d.2)) in *.
  destruct (in_bounds rows cols neighbor) eqn:Hin;
    [|injection Hrelax as <-; exact Hwalked].
  destruct (grid_at grid neighbor) as [v|] eqn:Hat; [|discriminate Hrelax].
  destruct (v =? 1) eqn:Hv; [injection Hrelax as <-; exact Hwalked|].
  destruct (g !! current) as [g_current|] eqn:Hcur; [|discriminate Hrelax].
  destruct (match g !! neighbor with
            | Some g_neighbor => g_current + 1 <? g_neighbor
            | None => true
            end); [|injection Hrelax as <-; exact Hwalked].
  injection Hrelax as <-. simpl. intros n w Hn.
  destruct (decide (n = neighbor)) as [->|Hne].
  - rewrite lookup_insert_eq in Hn. injection Hn as <-.
    destruct (Hwalked current g_current Hcur) as (p & Hp & Hlen).
    exists (p ++ [neighbor]). split.
    + apply (is_path_app grid rows cols p [neighbor] current); [exact Hp|].
      simpl. split; [exists d; split; [exact Hd | reflexivity]|].
      split; [|reflexivity]. split; [exact Hin|].
      rewrite Hat. intros [= ->]. discriminate Hv.
    + rewrite length_app. simpl. lia.
  - rewrite lookup_insert_ne in Hn by congruence. now apply Hwalked.
Qed.

Lemma for_each_walked (current : cell) (ds : list (Z * Z)) :
  (forall d, d ∈ ds -> d ∈ directions) ->
  forall st st',
    for_each (relax grid rows cols end_ current) ds st = Ok st' ->
    walked st.2 -> walked st'.2.
Proof.
  induction ds as [|d ds IH]; intros Hds st st' Hfor Hwalked.
  - injection Hfor as <-. exact Hwalked.
  - rewrite for_each_cons in Hfor.
    destruct (relax grid rows cols end_ current st d) as [st1|e] eqn:Hrelax;
      [|discriminate Hfor].
    simpl in Hfor.
    assert (Hds' : forall d', d' ∈ ds -> d' ∈ directions).
    { intros d' Hd'. apply Hds. now right. }
    apply (IH Hds' st1 st' Hfor).
    apply (relax_walked current d st st1); [|exact Hrelax | exact Hwalked].
    apply Hds. now left.
Qed.

(** The loop ends whether or not the goal can be reached, and what it
    returns is -1 or the length of a walk to the goal. *)
Lemma a_star_loop_walked (fuel : nat) :
  forall open_set g,
    a_star_inv grid rows cols start end_ open_set g ->
    walked g ->
    measure open_set g < Z.of_nat fuel ->
    exists v,
      a_star_loop fuel grid rows cols end_ open_set g = Some (Ok v)
      /\ (v = -1
          \/ exists p, is_path grid rows cols start p end_
                       /\ Z.of_nat (length p) = v).
Proof.
  induction fuel as [|fuel IH]; intros open_set g Hinv Hwalked Hfuel.
  - pose proof (measure_nonneg rows cols start end_ open_set g (proj1 Hinv)).
    lia.
  - rewrite a_star_loop_S.
    destruct (heappop open_set) as [[[f current] open_set']|] eqn:Hpop.
    2:{ exists (-1). split; [reflexivity | now left]. }
    apply heappop_Some in Hpop as [Hperm _].
    destruct (cell_eqb current end_) eqn:Heq.
    + apply cell_eqb_eq in Heq. subst current.
      destruct (base_end _ _ _ _ _ _ (proj1 Hinv) f) as (v & Hv & _).
      { rewrite Hperm. now left. }
      rewrite Hv. exists v. split; [reflexivity|]. right.
      exact (Hwalked end_ v Hv).
    + assert (Hne : current <> end_).
      { intros H. apply cell_eqb_eq in H. congruence. }
      destruct (inv_pop grid rows cols start end_ open_set open_set' g f
                        current Hinv Hperm) as [Hexp Hm].
      destruct (expand_all grid rows cols start end_ Hrect current directions
                           (fun d Hd => Hd) [] open_set' g Hexp)
        as (done' & open2 & g2 & Hfor & Hsub & Hexp2 & Hm2).
      rewrite Hfor. apply IH; [| |lia].
      * apply (inv_close grid rows cols start end_ current done');
          [exact Hexp2 | | exact Hne].
        intros d Hd. apply Hsub. now left.
      * apply (for_each_walked current directions (fun d Hd => Hd)
                 (open_set', g) (open2, g2) Hfor).
        exact Hwalked.
Qed.

End Walks.

(** X2: on a rectangular grid with at least one row, with enough fuel for
    the grid, [a_star] always returns, without raising: -1 exactly when no
    walk over free cells leads from [start] to [end_], and otherwise the
    number of steps of a shortest such walk. *)
Theorem a_star_shortest_walk (grid : grid) (rows cols : Z)
  (start end_ : cell) (fuel : nat) :
  rectangular grid rows cols -> 0 < rows ->
  (a_star_fuel rows cols <= fuel)%nat ->
  exists v,
    a_star fuel grid start end_ = Some (Ok v)
    /\ ((v = -1 /\ unreachable grid rows cols start end_)
        \/ shortest_walk grid rows cols start end_ v).
Proof.
  intros Hrect Hrows Hfuel.
  assert (Hloop : exists v,
             a_star fuel grid start end_ = Some (Ok v)
             /\ (v = -1
                 \/ exists p, is_path grid rows cols start p end_
                              /\ Z.of_nat (length p) = v)).
  { unfold a_star. pose proof Hrect as [Hlen Hcols].
    destruct grid as [|row0 grid']; [simpl in Hlen; lia|].
    assert (Hc0 : Z.of_nat (length row0) = cols).
    { rewrite Forall_forall in Hcols. apply Hcols. now left. }
    rewrite Hlen, Hc0.
    apply (a_star_loop_walked (row0 :: grid') rows cols start end_ Hrect).
    - apply a_star_inv_initial.
    - intros n v [<- <-]%lookup_singleton_Some. exists []. now split.
    - pose proof (measure_initial rows cols start) as Hm.
      unfold a_star_fuel in Hfuel. lia. }
  destruct Hloop as (v & Hv & Hcases). exists v. split; [exact Hv|].
  destruct Hcases as [-> | (p & Hp & Hlen)].
  - left. split; [reflexivity|]. intros q Hq.
    destruct (a_star_correct grid rows cols start end_ q fuel Hrect Hrows
                Hq Hfuel) as (v' & Hv' & Hlow & _).
    rewrite Hv in Hv'. injection Hv' as <-.
    unfold manhattan_distance in Hlow. lia.
  - right. split; [now exists p|]. intros q Hq.
    destruct (a_star_correct grid rows cols start end_ q fuel Hrect Hrows
                Hq Hfuel) as (v' & Hv' & _ & Hup).
    rewrite Hv in Hv'. injection Hv' as <-. exact Hup.
Qed.

Lemma a_star_shortest_walk_witness :
  exists v,
    a_star (a_star_fuel 3 3) Inputs.walled_grid (0, 0) (0, 2) = Some (Ok v)
    /\ ((v = -1 /\ unreachable Inputs.walled_grid 3 3 (0, 0) (0, 2))
        \/ shortest_walk Inputs.walled_grid 3 3 (0, 0) (0, 2) v).
Proof.
  apply (a_star_shortest_walk Inputs.walled_grid 3 3 (0, 0) (0, 2)
           (a_star_fuel 3 3)).
  - split; [reflexivity|]. repeat constructor.
  - lia.
  - apply le_n.
Defined.

End SearchProps.

(** * Further properties of the dataset generator *)

Module GeneratorProps.
Import Generator GridSpec Inputs AStarFacts GeneratorFacts.

(** ** a_star without obstacles *)

Lemma in_bounds_true (rows cols : Z) (c : cell) :
  in_bounds rows cols c = true <-> 0 <= c.1 < rows /\ 0 <= c.2 < cols.
Proof.
  unfold in_bounds. rewrite !andb_true_iff, !Z.leb_le, !Z.ltb_lt. lia.
Qed.

Section FreeGrid.
Variable grid : grid.
Variables rows cols : Z.
Hypothesis Hfree : forall c, grid_at grid c <> Some 1.

(** A straight walk along the first coordinate. *)
Lemma walk_first (s : cell) (e1 : Z) :
  0 <= s.1 < rows -> 0 <= e1 < rows -> 0 <= s.2 < cols ->
  exists p, is_path grid rows cols s p (e1, s.2)
            /\ Z.of_nat (length p) = Z.abs (e1 - s.1).
Proof.
  intros Hs He Hc. destruct s as [sx sy]. simpl in *.
  destruct (Z_le_gt_dec sx e1) as [Hle|Hgt].
  - exists (walk (sx, sy) (1, 0) (Z.to_nat (e1 - sx))). split.
    + replace (e1, sy)
        with (((sx, sy) : cell).1 + Z.of_nat (Z.to_nat (e1 - sx)) * 1,
              ((sx, sy) : cell).2 + Z.of_nat (Z.to_nat (e1 - sx)) * 0)
        by (simpl; f_equal; lia).
      apply (is_path_walk grid rows cols (1, 0)).
      * unfold directions. set_solver.
      * intros i Hi. split; [|apply Hfree].
        apply in_bounds_true. simpl. lia.
    + rewrite length_walk. lia.
  - exists (walk (sx, sy) (-1, 0) (Z.to_nat (sx - e1))). split.
    + replace (e1, sy)
        with (((sx, sy) : cell).1 + Z.of_nat (Z.to_nat (sx - e1)) * -1,
              ((sx, sy) : cell).2 + Z.of_nat (Z.to_nat (sx - e1)) * 0)
        by (simpl; f_equal; lia).
      apply (is_path_walk grid rows cols (-1, 0)).
      * unfold directions. set_solver.
      * intros i Hi. split; [|apply Hfree].
        apply in_bounds_true. simpl. lia.
    + rewrite length_walk. lia.
Qed.

(** A straight walk along the second coordinate. *)
Lemma walk_second (s : cell) (e2 : Z) :
  0 <= s.1 < rows -> 0 <= s.2 < cols -> 0 <= e2 < cols ->
  exists p, is_path grid rows cols s p (s.1, e2)
            /\ Z.of_nat (length p) = Z.abs (e2 - s.2).
Proof.
  intros Hs Hc He. destruct s as [sx sy]. simpl in *.
  destruct (Z_le_gt_dec sy e2) as [Hle|Hgt].
  - exists (walk (sx, sy) (0, 1) (Z.to_nat (e2 - sy))). split.
    + replace (sx, e2)
        with (((sx, sy) : cell).1 + Z.of_nat (Z.to_nat (e2 - sy)) * 0,
              ((sx, sy) : cell).2 + Z.of_nat (Z.to_nat (e2 - sy)) * 1)
        by (simpl; f_equal; lia).
      apply (is_path_walk grid rows cols (0, 1)).
      * unfold directions. set_solver.
      * intros i Hi. split; [|apply Hfree].
        apply in_bounds_true. simpl. lia.
    + rewrite length_walk. lia.
  - exists (walk (sx, sy) (0, -1) (Z.to_nat (sy - e2))). split.
    + replace (sx, e2)
        with (((sx, sy) : cell).1 + Z.of_nat (Z.to_nat (sy - e2)) * 0,
              ((sx, sy) : cell).2 + Z.of_nat (Z.to_nat (sy - e2)) * -1)
        by (simpl; f_equal; lia).
      apply (is_path_walk grid rows cols (0, -1)).
      * unfold directions. set_solver.
      * intros i Hi. split; [|apply Hfree].
        apply in_bounds_true. simpl. lia.
    + rewrite length_walk. lia.
Qed.

(** Two straight legs lead from any cell to any other. *)
Lemma manhattan_walk (s e : cell) :
  in_bounds rows cols s = true -> in_bounds rows cols e = true ->
  exists p, is_path grid rows cols s p e
            /\ Z.of_nat (length p) = manhattan_distance s e.
Proof.
  intros Hs He. apply in_bounds_true in Hs, He.
  destruct (walk_first s e.1) as (p & Hp & Hlp); [lia..|].
  destruct (walk_second (e.1, s.2) e.2) as (q & Hq & Hlq); [simpl; lia..|].
  exists (p ++ q). split.
  - apply (is_path_app grid rows cols p q (e.1, s.2)); [exact Hp|].
    simpl in Hq. now destruct e.
  - rewrite length_app. unfold manhattan_distance. simpl in Hlq. lia.
Qed.

Lemma a_star_free_grid (s e : cell) (fuel : nat) :
  rectangular grid rows cols ->
  in_bounds rows cols s = true -> in_bounds rows cols e = true ->
  (a_star_fuel rows cols <= fuel)%nat ->
  a_star fuel grid s e = Some (Ok (manhattan_distance s e)).
Proof.
  intros Hrect Hs He Hfuel.
  destruct (manhattan_walk s e Hs He) as (p & Hp & Hlen).
  assert (Hrows : 0 < rows) by (apply in_bounds_true in Hs; lia).
  destruct (a_star_correct grid rows cols s e p fuel Hrect Hrows Hp Hfuel)
    as (v & Hv & Hlow & Hup).
  rewrite Hv. do 2 f_equal. lia.
Qed.

End FreeGrid.

(** X3: on a rectangular grid that holds no obstacle, with enough fuel,
    [a_star] between any two cells of the grid returns their Manhattan
    distance. *)
Theorem a_star_without_obstacles (grid : grid) (rows cols : Z)
  (start end_ : cell) (fuel : nat) :
  rectangular grid rows cols ->
  (forall c, grid_at grid c <> Some 1) ->
  in_bounds rows cols start = true -> in_bounds rows cols end_ = true ->
  (a_star_fuel rows cols <= fuel)%nat ->
  a_star fuel grid start end_ = Some (Ok (manhattan_distance start end_)).
Proof.
  intros Hrect Hfree Hs He Hfuel.
  now apply (a_star_free_grid grid rows cols Hfree).
Qed.

Lemma a_star_without_obstacles_witness :
  a_star (a_star_fuel 4 4) (empty_grid 4) (3, 1) (0, 2)
  = Some (Ok (manhattan_distance (3, 1) (0, 2))).
Proof.
  apply (a_star_without_obstacles (empty_grid 4) 4 4 (3, 1) (0, 2)
           (a_star_fuel 4 4)).
  - apply (rectangular_empty 4).
  - apply (grid_at_empty 4).
  - reflexivity.
  - reflexivity.
  - apply le_n.
Defined.

(** ** generate_navigation_pathfinding, easy *)

(** X4: the easy generator always returns (it has no loop), it consumes
    two draws, its goal lies in rows and columns 2 to 4 of the 5 by 5
    grid and its ground truth, between 4 and 8, is the path length
    [a_star] finds on the 5 by 5 grid without obstacles. *)
Theorem easy_generation (r : stream) (task_id : Z) (i fuel : nat) :
  exists ex ey,
    generate_navigation_pathfinding (S fuel) r "easy" task_id i
    = Some (Ok (mk_nav_task task_id "easy" 5 (ex, ey) [] (ex + ey)),
            S (S i))
    /\ 2 <= ex <= 4 /\ 2 <= ey <= 4
    /\ forall fuel',
         (a_star_fuel 5 5 <= fuel')%nat ->
         a_star fuel' (empty_grid 5) (0, 0) (ex, ey) = Some (Ok (ex + ey)).
Proof.
  pose proof (randint_range r 2 4 i ltac:(lia)) as Hx.
  pose proof (randint_range r 2 4 (S i) ltac:(lia)) as Hy.
  exists (randint r 2 4 i).1, (randint r 2 4 (S i)).1.
  split; [|split; [exact Hx | split; [exact Hy|]]].
  - cbn [generate_navigation_pathfinding String.eqb Ascii.eqb Bool.eqb].
    unfold manhattan_distance, randint in *. cbn [fst snd] in *.
    change (5 - 1 - 2 + 1) with 3. change (4 - 2 + 1) with 3 in *.
    set (a := r i mod 3) in *. set (b := r (S i) mod 3) in *.
    do 3 f_equal. f_equal. lia.
  - intros fuel' Hfuel.
    rewrite (a_star_free_grid (empty_grid 5) 5 5 (grid_at_empty 5)
               (0, 0) _ fuel' (rectangular_empty 5)).
    + unfold manhattan_distance. cbn [fst snd]. do 2 f_equal. lia.
    + reflexivity.
    + apply in_bounds_true. cbn [fst snd]. lia.
    + exact Hfuel.
Qed.

(** ** The obstacle loop *)

Lemma set_add_NoDup (c : cell) (obstacles : list cell) :
  NoDup obstacles -> NoDup (set_add c obstacles).
Proof.
  intros Hnd. unfold set_add. destruct (decide (c ∈ obstacles)) as [|Hnot].
  - exact Hnd.
  - apply NoDup_app. split; [exact Hnd|]. split.
    + intros x Hx ->%list_elem_of_singleton. contradiction.
    + apply NoDup_singleton.
Qed.

Lemma set_add_length (c : cell) (obstacles : list cell) :
  (length obstacles <= length (set_add c obstacles)
   <= S (length obstacles))%nat.
Proof.
  unfold set_add. destruct (decide (c ∈ obstacles)).
  - lia.
  - rewrite length_app. simpl. lia.
Qed.

Lemma draw_obstacles_count (r : stream) (grid_size num : Z) (fuel : nat) :
  forall obstacles i obstacles' j,
    NoDup obstacles -> Z.of_nat (length obstacles) <= num ->
    draw_obstacles fuel r grid_size num obstacles i = Some (obstacles', j) ->
    NoDup obstacles' /\ Z.of_nat (length obstacles') = num.
Proof.
  induction fuel as [|fuel IH]; intros obstacles i obstacles' j Hnd Hle Hdraw.
  - rewrite draw_obstacles_O in Hdraw.
    destruct (Z.of_nat (length obstacles) <? num) eqn:Hlt; [discriminate|].
    injection Hdraw as <- <-. apply Z.ltb_ge in Hlt. split; [exact Hnd | lia].
  - rewrite draw_obstacles_S in Hdraw.
    destruct (Z.of_nat (length obstacles) <? num) eqn:Hlt.
    + apply Z.ltb_lt in Hlt.
      apply (IH _ _ _ _ (set_add_NoDup _ _ Hnd)) in Hdraw; [exact Hdraw|].
      pose proof (set_add_length
                    ((randint r 1 (grid_size - 2) i).1,
                     (randint r 1 (grid_size - 2) (S i)).1) obstacles).
      lia.
    + injection Hdraw as <- <-. apply Z.ltb_ge in Hlt.
      split; [exact Hnd | lia].
Qed.

(** X5: when the obstacle loop ends, it has drawn exactly the requested
    number of cells, all different and all strictly inside the grid: no
    obstacle lies on the border, in particular none on the start or the
    goal corner. *)
Theorem draw_obstacles_result (r : stream) (grid_size num : Z) (fuel : nat)
  (i : nat) (obstacles : list cell) (j : nat) :
  3 <= grid_size -> 0 <= num ->
  draw_obstacles fuel r grid_size num [] i = Some (obstacles, j) ->
  NoDup obstacles
  /\ Z.of_nat (length obstacles) = num
  /\ Forall (interior grid_size) obstacles.
Proof.
  intros Hsize Hnum Hdraw.
  destruct (draw_obstacles_count r grid_size num fuel [] i obstacles j)
    as [Hnd Hlen]; [apply NoDup_nil_2 | simpl; lia | exact Hdraw|].
  split; [exact Hnd | split; [exact Hlen|]].
  apply (draw_obstacles_interior r grid_size num fuel Hsize [] i obstacles j);
    [apply Forall_nil_2 | exact Hdraw].
Qed.

Lemma draw_obstacles_result_witness :
  NoDup [(1, 2); (2, 3); (3, 4)]
  /\ Z.of_nat (length [(1, 2); (2, 3); (3, 4)]) = 3
  /\ Forall (interior 6) [(1, 2); (2, 3); (3, 4)].
Proof.
  apply (draw_obstacles_result climbing_stream 6 3 3 1
           [(1, 2); (2, 3); (3, 4)] 7).
  - lia.
  - lia.
  - reflexivity.
Defined.

(** ** generate_navigation_pathfinding, hard *)

Lemma generate_hard_S (fuel : nat) (r : stream) (difficulty : string)
  (task_id : Z) (i : nat) :
  difficulty <> "easy"%string -> difficulty <> "medium"%string ->
  generate_navigation_pathfinding (S fuel) r difficulty task_id i =
  match draw_obstacles fuel r 8 (randint r 8 12 i).1 [] (S i) with
  | None => None
  | Some (obstacles, i2) =>
      match a_star fuel (place_obstacles (empty_grid 8) obstacles)
                   (0, 0) (7, 7) with
      | None => None
      | Some (Raise e) => Some (Raise e, i2)
      | Some (Ok path_length) =>
          Some (Ok (mk_nav_task task_id difficulty 8 (7, 7) obstacles
                                path_length), i2)
      end
  end.
Proof.
  intros He Hm. apply String.eqb_neq in He, Hm.
  cbn [generate_navigation_pathfinding]. rewrite He, Hm. reflexivity.
Qed.

Lemma a_star_hard (fuel : nat) (obstacles : list cell) :
  Forall (interior 8) obstacles ->
  (a_star_fuel 8 8 <= fuel)%nat ->
  a_star fuel (place_obstacles (empty_grid 8) obstacles) (0, 0) (7, 7)
  = Some (Ok 14).
Proof.
  intros Hall Hfuel.
  apply (a_star_interior_obstacles 8 fuel obstacles); [lia | exact Hall |].
  exact Hfuel.
Qed.

(** X6: every difficulty other than "easy" and "medium" takes the hard
    branch, which has no retry.  Its 8 to 12 obstacles lie strictly
    inside the 8 by 8 grid, so the border is free: when the obstacle loop
    ends, generation returns a task whose ground truth is 14; whenever
    generation returns, the ground truth is 14, never -1, and the
    obstacles are 8 to 12 different interior cells. *)
Theorem hard_generation (r : stream) (difficulty : string) (task_id : Z)
  (i : nat) :
  difficulty <> "easy"%string -> difficulty <> "medium"%string ->
  (forall (fuel0 fuel j : nat) (obstacles : list cell),
      draw_obstacles fuel0 r 8 (randint r 8 12 i).1 [] (S i)
      = Some (obstacles, j) ->
      (fuel0 <= fuel)%nat -> (a_star_fuel 8 8 <= fuel)%nat ->
      generate_navigation_pathfinding (S fuel) r difficulty task_id i
      = Some (Ok (mk_nav_task task_id difficulty 8 (7, 7) obstacles 14), j))
  /\ (forall (fuel : nat) (x : res nav_task * nat),
        generate_navigation_pathfinding fuel r difficulty task_id i = Some x ->
        exists task,
          x.1 = Ok task /\ nt_ground_truth task = 14
          /\ NoDup (nt_obstacles task)
          /\ 8 <= Z.of_nat (length (nt_obstacles task)) <= 12
          /\ Forall (interior 8) (nt_obstacles task)).
Proof.
  intros He Hm. split.
  - intros fuel0 fuel j obstacles Hdraw Hle Hfuel.
    rewrite (generate_hard_S fuel r difficulty task_id i He Hm).
    rewrite (draw_obstacles_mono r 8 _ fuel0 fuel [] (S i) _ Hdraw Hle).
    rewrite (a_star_hard fuel obstacles); [reflexivity | | exact Hfuel].
    eapply (draw_obstacles_interior r 8); [lia | apply Forall_nil_2|].
    exact Hdraw.
  - intros [|fuel] x; [discriminate|].
    rewrite (generate_hard_S fuel r difficulty task_id i He Hm).
    pose proof (randint_range r 8 12 i ltac:(lia)) as Hnum.
    destruct (draw_obstacles fuel r 8 (randint r 8 12 i).1 [] (S i))
      as [[obstacles j]|] eqn:Hdraw; [|discriminate].
    assert (Hall : Forall (interior 8) obstacles).
    { eapply (draw_obstacles_interior r 8); [lia | apply Forall_nil_2|].
      exact Hdraw. }
    destruct (draw_obstacles_count r 8 (randint r 8 12 i).1 fuel [] (S i)
                obstacles j)
      as [Hnd Hlen]; [apply NoDup_nil_2 | simpl length; lia | exact Hdraw|].
    destruct (a_star fuel (place_obstacles (empty_grid 8) obstacles)
                     (0, 0) (7, 7)) as [res|] eqn:Hstar; [|discriminate].
    apply (a_star_mono _ _ _ _ (Nat.max fuel (a_star_fuel 8 8))) in Hstar;
      [|lia].
    rewrite a_star_hard in Hstar; [|exact Hall | lia].
    injection Hstar as <-. intros [= <-]. eexists.
    split; [reflexivity|]. simpl.
    split; [reflexivity|]. split; [exact Hnd|]. split; [lia | exact Hall].
Qed.

Lemma hard_generation_witness :
  generate_navigation_pathfinding (S (a_star_fuel 8 8)) sweeping_stream
                                  "hard" 1 0
  = Some (Ok (mk_nav_task 1 "hard" 8 (7, 7)
                [(1, 1); (2, 1); (3, 1); (4, 1); (5, 1); (6, 1); (1, 2);
                 (2, 2)] 14),
          17%nat).
Proof.
  apply (proj1 (hard_generation sweeping_stream "hard" 1 0
                  ltac:(discriminate) ltac:(discriminate)) 8%nat).
  - reflexivity.
  - vm_compute. lia.
  - apply Nat.le_refl.
Defined.

(** ** point_in_rectangle and rectangles_overlap *)

Ltac bool_cases :=
  repeat match goal with
         | |- context [?a <? ?b] => destruct (Z.ltb_spec a b)
         | |- context [?a <=? ?b] => destruct (Z.leb_spec a b)
         | |- context [?a >? ?b] =>
             rewrite (Z.gtb_ltb a b); destruct (Z.ltb_spec b a)
         end.

Lemma point_in_rectangle_true (x y x_min y_min x_max y_max : Z) :
  point_in_rectangle (x, y) (x_min, y_min, x_max, y_max) = true
  <-> x_min <= x <= x_max /\ y_min <= y <= y_max.
Proof.
  unfold point_in_rectangle.
  rewrite !andb_true_iff, !Z.leb_le. lia.
Qed.

(** X7: [rectangles_overlap] does not depend on the order of its
    arguments and, for rectangles given with x_min <= x_max and
    y_min <= y_max, it holds exactly when some point lies in both
    rectangles according to [point_in_rectangle]; rectangles that only
    share an edge or a corner overlap. *)
Theorem rectangles_overlap_common_point (a0 a1 a2 a3 b0 b1 b2 b3 : Z) :
  a0 <= a2 -> a1 <= a3 -> b0 <= b2 -> b1 <= b3 ->
  rectangles_overlap (a0, a1, a2, a3) (b0, b1, b2, b3)
  = rectangles_overlap (b0, b1, b2, b3) (a0, a1, a2, a3)
  /\ (rectangles_overlap (a0, a1, a2, a3) (b0, b1, b2, b3) = true
      <-> exists p, point_in_rectangle p (a0, a1, a2, a3) = true
                    /\ point_in_rectangle p (b0, b1, b2, b3) = true).
Proof.
  intros Ha02 Ha13 Hb02 Hb13. split.
  - unfold rectangles_overlap. bool_cases; reflexivity || lia.
  - split.
    + intros Hov. exists (Z.max a0 b0, Z.max a1 b1).
      rewrite !point_in_rectangle_true.
      unfold rectangles_overlap in Hov. revert Hov.
      bool_cases; simpl; try discriminate; intros _; lia.
    + intros [[x y] [H1 H2]]. apply point_in_rectangle_true in H1, H2.
      unfold rectangles_overlap. bool_cases; reflexivity || lia.
Qed.

Lemma rectangles_overlap_common_point_witness :
  rectangles_overlap (0, 0, 2, 2) (2, 2, 5, 5)
  = rectangles_overlap (2, 2, 5, 5) (0, 0, 2, 2)
  /\ (rectangles_overlap (0, 0, 2, 2) (2, 2, 5, 5) = true
      <-> exists p, point_in_rectangle p (0, 0, 2, 2) = true
                    /\ point_in_rectangle p (2, 2, 5, 5) = true).
Proof.
  apply (rectangles_overlap_common_point 0 0 2 2 2 2 5 5); lia.
Defined.

(** ** generate_geometric_reasoning *)

(** X8: in the medium task the second rectangle is built to overlap the
    first exactly when the draw of [random.random()] is below 0.5, and
    [rectangles_overlap] agrees with that intent on every draw: the
    ground truth is "Yes" in the first case and "No" in the second.  The
    task uses nine draws. *)
Theorem geometric_medium_ground_truth (r : stream) (task_id : Z) (i : nat) :
  ge_ground_truth (generate_geometric_reasoning r "medium" task_id i).1
  = AStr (yes_no (Metrics.Qltb (random r (S (S (S (S i))))).1 0.5))
  /\ (generate_geometric_reasoning r "medium" task_id i).2 = (9 + i)%nat.
Proof.
  pose proof (randint_range r 0 5 i ltac:(lia)) as H0.
  pose proof (randint_range r 0 5 (S i) ltac:(lia)) as H1.
  pose proof (randint_range r 6 10 (S (S i)) ltac:(lia)) as H2.
  pose proof (randint_range r 6 10 (S (S (S i))) ltac:(lia)) as H3.
  set (a0 := (randint r 0 5 i).1) in *.
  set (a1 := (randint r 0 5 (S i)).1) in *.
  set (a2 := (randint r 6 10 (S (S i))).1) in *.
  set (a3 := (randint r 6 10 (S (S (S i)))).1) in *.
  set (i5 := S (S (S (S (S i))))).
  change (generate_geometric_reasoning r "medium" task_id i)
    with (let '(r2, i9) :=
            if Metrics.Qltb (random r (S (S (S (S i))))).1 0.5 then
              ((( randint r a0 (a2 - 1) i5).1,
                (randint r a1 (a3 - 1) (S i5)).1,
                (randint r a2 15 (S (S i5))).1,
                (randint r a3 15 (S (S (S i5)))).1), S (S (S (S i5))))
            else
              ((a2 + (randint r 1 5 i5).1,
                a3 + (randint r 1 5 (S i5)).1,
                a2 + (randint r 6 10 (S (S i5))).1,
                a3 + (randint r 6 10 (S (S (S i5)))).1), S (S (S (S i5))))
          in
          let overlap := rectangles_overlap (a0, a1, a2, a3) r2 in
          let '(b0, b1, b2, b3) := r2 in
          (mk_geo_task task_id "medium" [a0; a1; a2; a3; b0; b1; b2; b3]
                       (AStr (yes_no overlap)), i9)).
  destruct (Metrics.Qltb (random r (S (S (S (S i))))).1 0.5).
  - pose proof (randint_range r a0 (a2 - 1) i5 ltac:(lia)) as Hb0.
    pose proof (randint_range r a1 (a3 - 1) (S i5) ltac:(lia)) as Hb1.
    pose proof (randint_range r a2 15 (S (S i5)) ltac:(lia)) as Hb2.
    pose proof (randint_range r a3 15 (S (S (S i5))) ltac:(lia)) as Hb3.
    cbv zeta. cbn [fst snd ge_ground_truth]. split; [|reflexivity].
    do 2 f_equal. unfold rectangles_overlap.
    bool_cases; reflexivity || lia.
  - pose proof (randint_range r 1 5 i5 ltac:(lia)) as Hk0.
    cbv zeta. cbn [fst snd ge_ground_truth]. split; [|reflexivity].
    do 2 f_equal. unfold rectangles_overlap.
    bool_cases; reflexivity || lia.
Qed.

(** ** line_intersects_rectangle on the diagonal *)

Section Diagonal.
Import GeometrySpec.
Variable t : Z.
Variables x1 y1 x2 y2 : Z.
Hypothesis Hx : 0 < x1 <= x2.
Hypothesis Hy : 0 < y1 <= y2.
Hypothesis Hxt : x1 < t.
Hypothesis Hyt : y1 < t.

(** On which side of the diagonal a point lies. *)
Lemma ccw_diagonal (a b : Z) : ccw (0, 0) (t, t) (a, b) = (a <? b).
Proof.
  unfold ccw. cbn [fst snd]. rewrite Z.gtb_ltb.
  destruct (Z.ltb_spec (t * (a - 0)) ((b - 0) * (t - 0)));
    destruct (Z.ltb_spec a b); reflexivity || nia.
Qed.

Lemma intersect_lower_edge :
  intersect (0, 0) (t, t) (x1, y1) (x2, y1) = (x1 <? y1) && (y1 <=? x2).
Proof.
  unfold intersect. rewrite !ccw_diagonal. unfold ccw. cbn [fst snd].
  rewrite !Z.gtb_ltb.
  destruct (Z.ltb_spec ((y1 - 0) * (x2 - 0)) ((y1 - 0) * (x1 - 0)));
    [nia|].
  destruct (Z.ltb_spec ((y1 - t) * (x2 - t)) ((y1 - t) * (x1 - t)));
    destruct (Z.ltb_spec x1 y1); destruct (Z.ltb_spec x2 y1);
    destruct (Z.leb_spec y1 x2); simpl; reflexivity || nia.
Qed.

Lemma intersect_left_edge :
  intersect (0, 0) (t, t) (x1, y2) (x1, y1) = (x1 <? y2) && (y1 <=? x1).
Proof.
  unfold intersect. rewrite !ccw_diagonal. unfold ccw. cbn [fst snd].
  rewrite !Z.gtb_ltb.
  destruct (Z.ltb_spec ((y2 - 0) * (x1 - 0)) ((y1 - 0) * (x1 - 0)));
    [nia|].
  destruct (Z.ltb_spec ((y2 - t) * (x1 - t)) ((y1 - t) * (x1 - t)));
    destruct (Z.ltb_spec x1 y2); destruct (Z.ltb_spec x1 y1);
    destruct (Z.leb_spec y1 x1); simpl; reflexivity || nia.
Qed.

Lemma intersect_right_edge :
  intersect (0, 0) (t, t) (x2, y1) (x2, y2) = true ->
  y1 <= x2 /\ x2 < y2.
Proof.
  unfold intersect. rewrite !ccw_diagonal.
  intros [_ H]%andb_true_iff. revert H.
  destruct (Z.ltb_spec x2 y1); destruct (Z.ltb_spec x2 y2); simpl;
    try discriminate; intros _; lia.
Qed.

Lemma intersect_upper_edge :
  intersect (0, 0) (t, t) (x2, y2) (x1, y2) = true ->
  y2 <= x2 /\ x1 < y2.
Proof.
  unfold intersect. rewrite !ccw_diagonal.
  intros [_ H]%andb_true_iff. revert H.
  destruct (Z.ltb_spec x2 y2); destruct (Z.ltb_spec x1 y2); simpl;
    try discriminate; intros _; lia.
Qed.

Lemma diagonal_blocked :
  line_intersects_rectangle (0, 0) (t, t) (x1, y1, x2, y2)
  = crosses_diagonal (x1, y1, x2, y2).
Proof.
  unfold crosses_diagonal.
  change (line_intersects_rectangle (0, 0) (t, t) (x1, y1, x2, y2))
    with (if intersect (0, 0) (t, t) (x1, y1) (x2, y1)
             || (intersect (0, 0) (t, t) (x2, y1) (x2, y2)
                 || (intersect (0, 0) (t, t) (x2, y2) (x1, y2)
                     || (intersect (0, 0) (t, t) (x1, y2) (x1, y1)
                         || false)))
          then true
          else if point_in_rectangle (0, 0) (x1, y1, x2, y2)
                  && point_in_rectangle (t, t) (x1, y1, x2, y2)
               then true else false).
  rewrite intersect_lower_edge, intersect_left_edge.
  pose proof intersect_right_edge as Hright.
  pose proof intersect_upper_edge as Hupper.
  assert (Hin : point_in_rectangle (0, 0) (x1, y1, x2, y2) = false).
  { unfold point_in_rectangle. destruct (Z.leb_spec x1 0); [lia|reflexivity]. }
  rewrite Hin.
  destruct (intersect (0, 0) (t, t) (x2, y1) (x2, y2));
    [specialize (Hright eq_refl)|clear Hright];
    (destruct (intersect (0, 0) (t, t) (x2, y2) (x1, y2));
     [specialize (Hupper eq_refl)|clear Hupper]);
    destruct (Z.ltb_spec x1 y1); destruct (Z.leb_spec y1 x2);
    destruct (Z.ltb_spec x1 y2); destruct (Z.leb_spec y1 x1);
    simpl; reflexivity || lia.
Qed.

End Diagonal.

(** X9: for the line of sight from the origin to [(t, t)] and a
    rectangle whose lower left corner lies strictly between the two,
    [line_intersects_rectangle] reports an intersection exactly when
    some point of the diagonal lies in the rectangle, except when the
    diagonal only touches the corner [(x_min, y_max)]: that contact is
    not reported. *)
Theorem line_of_sight_diagonal (t x1 y1 x2 y2 : Z) :
  0 < x1 <= x2 -> 0 < y1 <= y2 -> x1 < t -> y1 < t ->
  line_intersects_rectangle (0, 0) (t, t) (x1, y1, x2, y2) = true
  <-> (exists s, 0 <= s <= t
                 /\ point_in_rectangle (s, s) (x1, y1, x2, y2) = true)
      /\ x1 <> y2.
Proof.
  intros Hx Hy Hxt Hyt.
  rewrite (diagonal_blocked t x1 y1 x2 y2 Hx Hy Hxt Hyt).
  unfold GeometrySpec.crosses_diagonal.
  rewrite andb_true_iff, Z.ltb_lt, Z.leb_le. split.
  - intros [H1 H2]. split; [|lia]. exists (Z.max x1 y1).
    rewrite point_in_rectangle_true. lia.
  - intros [(s & Hs & Hin) Hne]. apply point_in_rectangle_true in Hin. lia.
Qed.

Lemma line_of_sight_diagonal_witness :
  line_intersects_rectangle (0, 0) (15, 15) (4, 2, 6, 4) = true
  <-> (exists s, 0 <= s <= 15
                 /\ point_in_rectangle (s, s) (4, 2, 6, 4) = true)
      /\ 4 <> 4.
Proof.
  apply (line_of_sight_diagonal 15 4 2 6 4); lia.
Defined.

(** ** generate_viewpoint_visibility *)

Lemma draw_rectangles_range (r : stream) (num_obs : nat) :
  forall obstacles i,
    Forall GeometrySpec.drawn_obstacle obstacles ->
    Forall GeometrySpec.drawn_obstacle
           (draw_rectangles r num_obs obstacles i).1.
Proof.
  induction num_obs as [|n IH]; intros obstacles i Hall; [exact Hall|].
  change (draw_rectangles r (S n) obstacles i)
    with (draw_rectangles r n
            (obstacles ++ [((randint r 2 12 i).1,
                            (randint r 2 12 (S i)).1,
                            (randint r 2 12 i).1
                            + (randint r 2 4 (S (S i))).1,
                            (randint r 2 12 (S i)).1
                            + (randint r 2 4 (S (S (S i)))).1)])
            (S (S (S (S i))))).
  apply IH. apply Forall_app. split; [exact Hall|].
  apply Forall_singleton. unfold GeometrySpec.drawn_obstacle.
  pose proof (randint_range r 2 12 i ltac:(lia)).
  pose proof (randint_range r 2 12 (S i) ltac:(lia)).
  pose proof (randint_range r 2 4 (S (S i)) ltac:(lia)).
  pose proof (randint_range r 2 4 (S (S (S i))) ltac:(lia)).
  lia.
Qed.

Lemma blocked_drawn (obstacles : list rect) :
  Forall GeometrySpec.drawn_obstacle obstacles ->
  existsb (fun obs => line_intersects_rectangle (0, 0) (15, 15) obs) obstacles
  = existsb GeometrySpec.crosses_diagonal obstacles.
Proof.
  induction 1 as [|[[[x1 y1] x2] y2] obstacles Hd _ IH]; [reflexivity|].
  simpl. rewrite IH. f_equal. unfold GeometrySpec.drawn_obstacle in Hd.
  apply diagonal_blocked; lia.
Qed.

(** X10: whatever the difficulty and the draws, the ground truth of a
    visibility task is "No" exactly when one of its obstacles has
    x_min < y_max and y_min <= x_max, and "Yes" otherwise: the label
    written by hand in the medium task and the one computed by
    [line_intersects_rectangle] in the hard task follow the same rule, and
    an obstacle that only touches the line of sight at its corner
    [(x_min, y_max)] does not block it. *)
Theorem visibility_ground_truth (r : stream) (difficulty : string)
  (task_id : Z) (i : nat) :
  let task := (generate_viewpoint_visibility r difficulty task_id i).1 in
  vt_ground_truth task
  = (if existsb GeometrySpec.crosses_diagonal (vt_obstacles task)
     then "No" else "Yes")%string.
Proof.
  unfold generate_viewpoint_visibility.
  destruct (String.eqb difficulty "easy"); [reflexivity|].
  destruct (String.eqb difficulty "medium").
  - cbv zeta. destruct (random r i) as [u i1].
    destruct (Metrics.Qltb u 0.5); reflexivity.
  - cbv zeta. destruct (randint r 2 3 i) as [num_obs i1].
    pose proof (draw_rectangles_range r (Z.to_nat num_obs) [] i1
                  (Forall_nil_2 _)) as Hall.
    destruct (draw_rectangles r (Z.to_nat num_obs) [] i1) as [obstacles i2].
    cbn [fst snd vt_ground_truth vt_obstacles] in *.
    now rewrite (blocked_drawn obstacles Hall).
Qed.

(** ** generate_network_infrastructure *)

Lemma bfs_loop_mono (graph : gmap Z (list Z)) (end_ : Z) (fuel : nat) :
  forall fuel' visited queue b,
    bfs_loop fuel graph end_ visited queue = Some b ->
    (fuel <= fuel')%nat ->
    bfs_loop fuel' graph end_ visited queue = Some b.
Proof.
  induction fuel as [|fuel IH]; intros fuel' visited queue b H Hle;
    [discriminate H|].
  destruct fuel' as [|fuel']; [lia|]. cbn [bfs_loop] in *.
  destruct queue as [|node queue]; [exact H|].
  destruct (node =? end_); [exact H|].
  destruct (decide (node ∈ visited)); apply IH; (exact H || lia).
Qed.

Lemma bfs_connected_mono (graph : gmap Z (list Z)) (start end_ : Z)
  (fuel fuel' : nat) (b : bool) :
  bfs_connected fuel graph start end_ = Some b -> (fuel <= fuel')%nat ->
  bfs_connected fuel' graph start end_ = Some b.
Proof.
  unfold bfs_connected. destruct (start =? end_); [trivial|].
  intros H Hle. now apply (bfs_loop_mono graph end_ fuel).
Qed.

Lemma hops_loop_mono (graph : gmap Z (list Z)) (end_ : Z) (fuel : nat) :
  forall fuel' visited queue x,
    hops_loop fuel graph end_ visited queue = Some x ->
    (fuel <= fuel')%nat ->
    hops_loop fuel' graph end_ visited queue = Some x.
Proof.
  induction fuel as [|fuel IH]; intros fuel' visited queue x H Hle;
    [discriminate H|].
  destruct fuel' as [|fuel']; [lia|]. cbn [hops_loop] in *.
  destruct queue as [|node queue]; [exact H|].
  destruct (node =? end_); [exact H|].
  destruct (graph !! node) as [neighbors|]; [|exact H].
  destruct (for_each (visit_neighbor node) neighbors (visited, queue))
    as [[visited' queue']|e]; [|exact H].
  apply IH; [exact H | lia].
Qed.

Lemma generate_network_mono (r : stream) (difficulty : string) (task_id : Z)
  (i fuel fuel' : nat) (x : res net_task * nat) :
  generate_network_infrastructure fuel r difficulty task_id i = Some x ->
  (fuel <= fuel')%nat ->
  generate_network_infrastructure fuel' r difficulty task_id i = Some x.
Proof.
  unfold generate_network_infrastructure. intros H Hle.
  destruct (String.eqb difficulty "easy").
  { destruct (build_graph 5 _) as [graph|e]; [|exact H].
    destruct (bfs_connected fuel graph 0 4) as [b|] eqn:Hb; [|discriminate H].
    now rewrite (bfs_connected_mono graph 0 4 fuel fuel' b Hb Hle). }
  destruct (String.eqb difficulty "medium").
  { destruct (choice r _ i) as [[removed i1]|e]; [|exact H].
    destruct (build_graph 6 _) as [graph|e]; [|exact H].
    destruct (bfs_connected fuel graph 0 5) as [b|] eqn:Hb; [|discriminate H].
    now rewrite (bfs_connected_mono graph 0 5 fuel fuel' b Hb Hle). }
  destruct (build_graph 7 _) as [graph|e]; [|exact H].
  destruct (hops_loop fuel graph 6 {[0 := 0]} [0]) as [v|] eqn:Hv;
    [|discriminate H].
  now rewrite (hops_loop_mono graph 6 fuel fuel' _ _ v Hv Hle).
Qed.

Lemma choice_index {A : Type} (r : stream) (xs : list A) (i : nat) (k : nat)
  (x : A) :
  r i mod Z.of_nat (length xs) = Z.of_nat k -> xs !! k = Some x ->
  choice r xs i = Ok (x, S i).
Proof.
  intros Hk Hx. unfold choice. now rewrite Hk, Nat2Z.id, Hx.
Qed.

(** X28: the network tasks do not depend on the draws as their prompts
    suggest.  With fuel 20 or more, every easy task has the ground truth
    "Yes" and every hard task the ground truth 3; a medium task has the
    ground truth "No" exactly when the removed link is (4, 5), the only
    link of node 5, and "Yes" for the six other links.  No graph lookup
    fails and the searches end. *)
Theorem network_ground_truth (r : stream) (task_id : Z) (i fuel : nat) :
  (20 <= fuel)%nat ->
  generate_network_infrastructure fuel r "easy" task_id i
  = Some (Ok (mk_net_task task_id "easy"
                [(0, 1); (1, 2); (2, 3); (3, 4)] None (AStr "Yes")), i)
  /\ (exists removed_edge,
        In removed_edge
           [(0, 1); (1, 2); (2, 3); (3, 4); (4, 5); (0, 2); (2, 4)]
        /\ generate_network_infrastructure fuel r "medium" task_id i
           = Some (Ok (mk_net_task task_id "medium"
                         [(0, 1); (1, 2); (2, 3); (3, 4); (4, 5); (0, 2);
                          (2, 4)]
                         (Some removed_edge)
                         (AStr (if edge_eqb removed_edge (4, 5)
                                then "No" else "Yes"))), S i))
  /\ generate_network_infrastructure fuel r "hard" task_id i
     = Some (Ok (mk_net_task task_id "hard"
                   [(0, 1); (1, 2); (2, 3); (3, 6); (0, 4); (4, 5); (5, 6);
                    (1, 4); (2, 5)] None (AInt 3)), i).
Proof.
  intros Hfuel. split; [|split].
  - apply (generate_network_mono r "easy" task_id i 20 fuel); [|exact Hfuel].
    vm_compute. reflexivity.
  - set (edges := [(0, 1); (1, 2); (2, 3); (3, 4); (4, 5); (0, 2); (2, 4)]).
    pose proof (Z.mod_pos_bound (r i) 7 ltac:(lia)) as Hk.
    assert (Hcases : exists k x, (k < 7)%nat
                                 /\ r i mod 7 = Z.of_nat k
                                 /\ edges !! k = Some x).
    { exists (Z.to_nat (r i mod 7)).
      destruct (edges !! Z.to_nat (r i mod 7)) as [x|] eqn:Hx.
      - exists x. split; [lia|]. split; [lia | reflexivity].
      - apply lookup_ge_None in Hx. simpl in Hx. lia. }
    destruct Hcases as (k & x & Hlt & Hmod & Hx).
    pose proof (choice_index r edges i k x Hmod Hx) as Hchoice.
    exists x. split.
    { apply list_elem_of_In. eapply list_elem_of_lookup_2. exact Hx. }
    apply (generate_network_mono r "medium" task_id i 20 fuel);
      [|exact Hfuel].
    unfold generate_network_infrastructure.
    change (String.eqb "medium" "easy") with false.
    change (String.eqb "medium" "medium") with true.
    cbv iota. fold edges. rewrite Hchoice. clear Hchoice Hmod Hk.
    do 7 (destruct k as [|k];
          [injection Hx as <-; vm_compute; reflexivity|]).
    lia.
  - apply (generate_network_mono r "hard" task_id i 20 fuel); [|exact Hfuel].
    vm_compute. reflexivity.
Qed.

Lemma network_ground_truth_witness :
  generate_network_infrastructure 20 stuck_stream "hard" 1 0
  = Some (Ok (mk_net_task 1 "hard"
                [(0, 1); (1, 2); (2, 3); (3, 6); (0, 4); (4, 5); (5, 6);
                 (1, 4); (2, 5)] None (AInt 3)), 0%nat).
Proof.
  apply (proj2 (proj2 (network_ground_truth stuck_stream 1 0 20
                         (Nat.le_refl 20)))).
Defined.

End GeneratorProps.
